(** * adlist.c: the generic doubly linked list of Redis, as a heap program

    The C module manipulates three kinds of objects through pointers:
    [listNode] (a value and two links), [list] (head, tail, length and
    three callbacks) and [listIter] (a cursor and a direction).  The
    embedding keeps the pointer graph: nodes, list headers and the
    iterators of the heap live in three finite maps indexed by address, a
    nullable pointer is an [option Z],
    and every function of adlist.c is a computation in a small state
    monad whose failure outcome stands for undefined behaviour (a NULL or
    dangling pointer dereference).  An allocation that returns NULL is an
    ordinary result, as in the C code. *)

From stdpp Require Import gmap list.
From Stdlib Require Import ZArith Lia.

Local Open Scope Z_scope.

(** ** Machine integers and pointers *)

(** [unsigned long] and [long] are 64 bits wide (LP64). *)
Definition wrap_ulong (z : Z) : Z := z mod 2 ^ 64.
Definition wrap_long (z : Z) : Z := (z + 2 ^ 63) mod 2 ^ 64 - 2 ^ 63.
Definition is_long (z : Z) : Prop := - 2 ^ 63 <= z < 2 ^ 63.

(** A non-NULL pointer is an address of the 64-bit address space. *)
Definition valid_ptr (a : Z) : Prop := 0 < a < 2 ^ 64.

(** ** Data model (adlist.h) *)

(** Modelled from the spec: [struct listNode] of adlist.h, with its
    fields [prev], [next] and [value].  A link is a nullable pointer to a
    node; a [void *] value is an integer, 0 being NULL. *)
Record listNode := ListNode {
  prev : option Z;
  next : option Z;
  value : Z
}.

(** Modelled from the spec: [struct list] of adlist.h, with its fields
    [head], [tail], [dup], [free], [match] and [len]; the record is called
    [adlist] because [list] is the type of Rocq lists, and [match] is
    [match_].  A callback that is not installed is [None].  [dup] returns
    NULL (0) to signal a failure, [match] returns a C truth value, and a
    call of [free] is recorded in the state. *)
Record adlist := AdList {
  head : option Z;
  tail : option Z;
  len : Z;
  dup : option (Z → Z);
  free : option (Z → unit);
  match_ : option (Z → Z → Z)
}.

(** Modelled from the spec: [struct listIter] of adlist.h, with its
    fields [next], here [iter_next], and [direction]. *)
Record listIter := ListIter {
  iter_next : option Z;
  direction : Z
}.

(** Modelled from the spec: the two directions of adlist.h, forward from
    the head and backward from the tail, as two distinct integers. *)
Definition AL_START_HEAD : Z := 0.
Definition AL_START_TAIL : Z := 1.

(** The memory: allocated nodes, allocated list headers, allocated
    iterators, and the log of the values handed to a [free] callback,
    oldest first. *)
Record state := State {
  nodes : gmap Z listNode;
  lists : gmap Z adlist;
  iters : gmap Z listIter;
  released : list Z
}.

Definition empty_state : state := State ∅ ∅ ∅ [].

(** ** The monad of heap computations *)

Definition M (A : Type) : Type := state → option (A * state).

Definition ret {A} (x : A) : M A := λ s, Some (x, s).

Definition bind {A B} (m : M A) (k : A → M B) : M B :=
  λ s, match m s with
       | Some (x, s') => k x s'
       | None => None
       end.

(** Undefined behaviour. *)
Definition undefined {A} : M A := λ _, None.

Declare Scope M_scope.
Delimit Scope M_scope with M.
Notation "'let*' x ':=' m 'in' k" := (bind m (λ x, k))
  (at level 10, x name, m at level 100, k at level 200) : M_scope.
Notation "m ';;;' k" := (bind m (λ _, k))
  (at level 100, k at level 200, right associativity) : M_scope.

Local Open Scope M_scope.

(** *** Field updates *)

Definition set_prev (p : option Z) (n : listNode) : listNode :=
  ListNode p (next n) (value n).
Definition set_next (p : option Z) (n : listNode) : listNode :=
  ListNode (prev n) p (value n).
Definition set_value (v : Z) (n : listNode) : listNode :=
  ListNode (prev n) (next n) v.

Definition set_head (p : option Z) (l : adlist) : adlist :=
  AdList p (tail l) (len l) (dup l) (free l) (match_ l).
Definition set_tail (p : option Z) (l : adlist) : adlist :=
  AdList (head l) p (len l) (dup l) (free l) (match_ l).
Definition set_len (n : Z) (l : adlist) : adlist :=
  AdList (head l) (tail l) n (dup l) (free l) (match_ l).
Definition set_dup (f : option (Z → Z)) (l : adlist) : adlist :=
  AdList (head l) (tail l) (len l) f (free l) (match_ l).
Definition set_free (f : option (Z → unit)) (l : adlist) : adlist :=
  AdList (head l) (tail l) (len l) (dup l) f (match_ l).
Definition set_match (f : option (Z → Z → Z)) (l : adlist) : adlist :=
  AdList (head l) (tail l) (len l) (dup l) (free l) f.

Definition with_nodes (h : gmap Z listNode) (s : state) : state :=
  State h (lists s) (iters s) (released s).
Definition with_lists (h : gmap Z adlist) (s : state) : state :=
  State (nodes s) h (iters s) (released s).
Definition with_iters (h : gmap Z listIter) (s : state) : state :=
  State (nodes s) (lists s) h (released s).

(** *** Memory accesses *)

(** Reading [*a] for a node pointer; a dangling pointer is undefined. *)
Definition load_node (a : Z) : M listNode :=
  λ s, match nodes s !! a with
       | Some n => Some (n, s)
       | None => None
       end.

(** Writing one field of [*a]. *)
Definition update_node (a : Z) (f : listNode → listNode) : M unit :=
  λ s, match nodes s !! a with
       | Some n => Some (tt, with_nodes (<[a := f n]> (nodes s)) s)
       | None => None
       end.

Definition load_list (l : Z) : M adlist :=
  λ s, match lists s !! l with
       | Some L => Some (L, s)
       | None => None
       end.

Definition update_list (l : Z) (f : adlist → adlist) : M unit :=
  λ s, match lists s !! l with
       | Some L => Some (tt, with_lists (<[l := f L]> (lists s)) s)
       | None => None
       end.

(** Dereferencing a nullable pointer: NULL is undefined behaviour. *)
Definition deref (p : option Z) : M Z :=
  match p with
  | Some a => ret a
  | None => undefined
  end.

(** The allocator of zmalloc.c is not part of this module.  It is a
    parameter of every function that allocates: from the current memory
    it either fails ([None], the C NULL) or picks an address. *)
Definition allocator : Type := state → option Z.

(** What every allocator guarantees: the block it returns is a valid
    address that is not in use. *)
Definition fresh_allocator (zm : allocator) : Prop :=
  ∀ s a, zm s = Some a →
    valid_ptr a ∧ nodes s !! a = None ∧ lists s !! a = None ∧
    iters s !! a = None.

(** The contents of a block just obtained from the allocator.  The code
    writes every field before it reads it. *)
Definition uninit_node : listNode := ListNode None None 0.
Definition uninit_list : adlist := AdList None None 0 None None None.
Definition uninit_iter : listIter := ListIter None 0.

(** [zmalloc(sizeof(listNode))] *)
Definition zmalloc_node (zm : allocator) : M (option Z) :=
  λ s, match zm s with
       | Some a => Some (Some a, with_nodes (<[a := uninit_node]> (nodes s)) s)
       | None => Some (None, s)
       end.

(** [zmalloc(sizeof(list))] *)
Definition zmalloc_list (zm : allocator) : M (option Z) :=
  λ s, match zm s with
       | Some a => Some (Some a, with_lists (<[a := uninit_list]> (lists s)) s)
       | None => Some (None, s)
       end.

(** [zfree(node)]: the node must be allocated. *)
Definition zfree_node (a : Z) : M unit :=
  λ s, match nodes s !! a with
       | Some _ => Some (tt, with_nodes (delete a (nodes s)) s)
       | None => None
       end.

(** [zfree(list)] *)
Definition zfree_list (l : Z) : M unit :=
  λ s, match lists s !! l with
       | Some _ => Some (tt, with_lists (delete l (lists s)) s)
       | None => None
       end.

(** [list->free(v)]: the call is logged. *)
Definition call_free (v : Z) : M unit :=
  λ s, Some (tt, State (nodes s) (lists s) (iters s) (released s ++ [v])).

(** [if (list->free) list->free(v);] *)
Definition free_value (l : Z) (v : Z) : M unit :=
  let* L := load_list l in
  match free L with
  | Some _ => call_free v
  | None => ret tt
  end.

(** ** The functions of adlist.c *)

(** [listCreate] *)
Definition listCreate (zm : allocator) : M (option Z) :=
  let* r := zmalloc_list zm in
  match r with
  | None => ret None
  | Some l =>
      update_list l (set_tail None) ;;;
      update_list l (set_head None) ;;;
      update_list l (set_len 0) ;;;
      update_list l (set_dup None) ;;;
      update_list l (set_free None) ;;;
      update_list l (set_match None) ;;;
      ret (Some l)
  end.

(** The loop of [listEmpty]: [while(len--) { next = current->next; ... }],
    for a counter that holds [n]. *)
Fixpoint listEmpty_loop (l : Z) (n : nat) (current : option Z) : M unit :=
  match n with
  | O => ret tt
  | S n' =>
      let* c := deref current in
      let* nd := load_node c in
      free_value l (value nd) ;;;
      zfree_node c ;;;
      listEmpty_loop l n' (next nd)
  end.

(** [listEmpty] *)
Definition listEmpty (l : Z) : M unit :=
  let* L := load_list l in
  listEmpty_loop l (Z.to_nat (len L)) (head L) ;;;
  update_list l (set_tail None) ;;;
  update_list l (set_head None) ;;;
  update_list l (set_len 0).

(** [listRelease] *)
Definition listRelease (l : Z) : M unit :=
  listEmpty l ;;;
  zfree_list l.

(** [list->len++] and [list->len--] *)
Definition incr_len (l : Z) : M unit :=
  update_list l (λ L, set_len (wrap_ulong (len L + 1)) L).
Definition decr_len (l : Z) : M unit :=
  update_list l (λ L, set_len (wrap_ulong (len L - 1)) L).

(** [listAddNodeHead] *)
Definition listAddNodeHead (zm : allocator) (l : Z) (v : Z) : M (option Z) :=
  let* r := zmalloc_node zm in
  match r with
  | None => ret None
  | Some node =>
      update_node node (set_value v) ;;;
      let* L := load_list l in
      (if len L =? 0 then
         update_list l (set_tail (Some node)) ;;;
         update_list l (set_head (Some node)) ;;;
         update_node node (set_next None) ;;;
         update_node node (set_prev None)
       else
         update_node node (set_prev None) ;;;
         update_node node (set_next (head L)) ;;;
         (let* h := deref (head L) in
          update_node h (set_prev (Some node))) ;;;
         update_list l (set_head (Some node))) ;;;
      incr_len l ;;;
      ret (Some l)
  end.

(** [listAddNodeTail] *)
Definition listAddNodeTail (zm : allocator) (l : Z) (v : Z) : M (option Z) :=
  let* r := zmalloc_node zm in
  match r with
  | None => ret None
  | Some node =>
      update_node node (set_value v) ;;;
      let* L := load_list l in
      (if len L =? 0 then
         update_list l (set_tail (Some node)) ;;;
         update_list l (set_head (Some node)) ;;;
         update_node node (set_next None) ;;;
         update_node node (set_prev None)
       else
         update_node node (set_prev (tail L)) ;;;
         update_node node (set_next None) ;;;
         (let* t := deref (tail L) in
          update_node t (set_next (Some node))) ;;;
         update_list l (set_tail (Some node))) ;;;
      incr_len l ;;;
      ret (Some l)
  end.

(** [listInsertNode]; [after] is a C truth value. *)
Definition listInsertNode (zm : allocator) (l : Z) (old_node : Z) (v : Z)
    (after : Z) : M (option Z) :=
  let* r := zmalloc_node zm in
  match r with
  | None => ret None
  | Some node =>
      update_node node (set_value v) ;;;
      (if negb (after =? 0) then
         update_node node (set_prev (Some old_node)) ;;;
         (let* old := load_node old_node in
          update_node node (set_next (next old))) ;;;
         let* L := load_list l in
         if decide (tail L = Some old_node)
         then update_list l (set_tail (Some node))
         else ret tt
       else
         update_node node (set_next (Some old_node)) ;;;
         (let* old := load_node old_node in
          update_node node (set_prev (prev old))) ;;;
         let* L := load_list l in
         if decide (head L = Some old_node)
         then update_list l (set_head (Some node))
         else ret tt) ;;;
      (let* n := load_node node in
       match prev n with
       | Some p => update_node p (set_next (Some node))
       | None => ret tt
       end) ;;;
      (let* n := load_node node in
       match next n with
       | Some q => update_node q (set_prev (Some node))
       | None => ret tt
       end) ;;;
      incr_len l ;;;
      ret (Some l)
  end.

(** [listDelNode] *)
Definition listDelNode (l : Z) (node : Z) : M unit :=
  (let* n := load_node node in
   match prev n with
   | Some p => update_node p (set_next (next n))
   | None => update_list l (set_head (next n))
   end) ;;;
  (let* n := load_node node in
   match next n with
   | Some q => update_node q (set_prev (prev n))
   | None => update_list l (set_tail (prev n))
   end) ;;;
  (let* n := load_node node in
   free_value l (value n)) ;;;
  zfree_node node ;;;
  decr_len l.

(** *** Iterators

    An iterator is a [listIter] block.  The block that [listGetIterator]
    returns is allocated in the heap, and [listReleaseIterator] frees it;
    [listDup] and [listSearchKey] keep theirs in a local variable. *)

Definition set_iter_next (p : option Z) (it : listIter) : listIter :=
  ListIter p (direction it).
Definition set_direction (d : Z) (it : listIter) : listIter :=
  ListIter (iter_next it) d.

(** [zmalloc(sizeof(listIter))] *)
Definition zmalloc_iter (zm : allocator) : M (option Z) :=
  λ s, match zm s with
       | Some a => Some (Some a, with_iters (<[a := uninit_iter]> (iters s)) s)
       | None => Some (None, s)
       end.

(** Reading [*p] for a pointer to an iterator of the heap. *)
Definition load_iter (p : Z) : M listIter :=
  λ s, match iters s !! p with
       | Some it => Some (it, s)
       | None => None
       end.

(** Writing one field of [*p], or the whole block. *)
Definition update_iter (p : Z) (f : listIter → listIter) : M unit :=
  λ s, match iters s !! p with
       | Some it => Some (tt, with_iters (<[p := f it]> (iters s)) s)
       | None => None
       end.

(** [zfree(iter)]: the iterator must be allocated. *)
Definition zfree_iter (p : Z) : M unit :=
  λ s, match iters s !! p with
       | Some _ => Some (tt, with_iters (delete p (iters s)) s)
       | None => None
       end.

(** [listGetIterator]; NULL is [None]. *)
Definition listGetIterator (zm : allocator) (l : Z) (dir : Z)
    : M (option Z) :=
  let* r := zmalloc_iter zm in
  match r with
  | None => ret None
  | Some iter =>
      (if dir =? AL_START_HEAD
       then let* L := load_list l in update_iter iter (set_iter_next (head L))
       else let* L := load_list l in update_iter iter (set_iter_next (tail L))) ;;;
      update_iter iter (set_direction dir) ;;;
      ret (Some iter)
  end.

(** [listReleaseIterator] *)
Definition listReleaseIterator (iter : Z) : M unit :=
  zfree_iter iter.

(** [listRewind] and [listRewindTail] *)
Definition listRewind (l : Z) : M listIter :=
  let* L := load_list l in
  ret (ListIter (head L) AL_START_HEAD).

Definition listRewindTail (l : Z) : M listIter :=
  let* L := load_list l in
  ret (ListIter (tail L) AL_START_TAIL).

(** [listNext]: the node under the cursor and the advanced iterator. *)
Definition listNext (it : listIter) : M (option Z * listIter) :=
  match iter_next it with
  | Some current =>
      let* n := load_node current in
      if direction it =? AL_START_HEAD
      then ret (Some current, ListIter (next n) (direction it))
      else ret (Some current, ListIter (prev n) (direction it))
  | None => ret (None, it)
  end.

(** [listRewind], [listRewindTail] and [listNext] are given a pointer to
    an iterator that their caller owns.  They are modelled on the contents
    of that block: they take the iterator their caller holds and return
    the iterator it holds afterwards.  [at_iter p f] is the call of such
    a function on the iterator at the address [p] of the heap. *)
Definition at_iter {A} (p : Z) (f : listIter → M (A * listIter)) : M A :=
  let* it := load_iter p in
  let* r := f it in
  update_iter p (λ _, snd r) ;;;
  ret (fst r).

(** [listDup].  The [while] loop over the iterator is run for [fuel]
    iterations at most; running out of fuel gives no result. *)
Fixpoint listDup_loop (fuel : nat) (zm : allocator) (copy : Z)
    (it : listIter) : M (option Z) :=
  match fuel with
  | O => undefined
  | S fuel' =>
      let* r := listNext it in
      match r with
      | (None, _) => ret (Some copy)
      | (Some node, it') =>
          let* C := load_list copy in
          let* n := load_node node in
          let add (v : Z) : M (option Z) :=
            let* a := listAddNodeTail zm copy v in
            match a with
            | None => listRelease copy ;;; ret None
            | Some _ => listDup_loop fuel' zm copy it'
            end in
          match dup C with
          | Some d =>
              let v := d (value n) in
              if v =? 0
              then listRelease copy ;;; ret None
              else add v
          | None => add (value n)
          end
      end
  end.

Definition listDup (fuel : nat) (zm : allocator) (orig : Z) : M (option Z) :=
  let* r := listCreate zm in
  match r with
  | None => ret None
  | Some copy =>
      (let* O := load_list orig in update_list copy (set_dup (dup O))) ;;;
      (let* O := load_list orig in update_list copy (set_free (free O))) ;;;
      (let* O := load_list orig in update_list copy (set_match (match_ O))) ;;;
      let* it := listRewind orig in
      listDup_loop fuel zm copy it
  end.

(** [listSearchKey], with the same convention for the loop. *)
Fixpoint listSearchKey_loop (fuel : nat) (l : Z) (key : Z) (it : listIter)
    : M (option Z) :=
  match fuel with
  | O => undefined
  | S fuel' =>
      let* r := listNext it in
      match r with
      | (None, _) => ret None
      | (Some node, it') =>
          let* L := load_list l in
          let* n := load_node node in
          match match_ L with
          | Some m =>
              if negb (m (value n) key =? 0)
              then ret (Some node)
              else listSearchKey_loop fuel' l key it'
          | None =>
              if key =? value n
              then ret (Some node)
              else listSearchKey_loop fuel' l key it'
          end
      end
  end.

Definition listSearchKey (fuel : nat) (l : Z) (key : Z) : M (option Z) :=
  let* it := listRewind l in
  listSearchKey_loop fuel l key it.

(** The loops of [listIndex]: [while(index-- && n) n = n->prev;] and its
    twin on [next], for a counter that holds [k]. *)
Fixpoint listIndex_loop (link : listNode → option Z) (k : nat)
    (n : option Z) : M (option Z) :=
  match k with
  | O => ret n
  | S k' =>
      match n with
      | None => ret None
      | Some a =>
          let* nd := load_node a in
          listIndex_loop link k' (link nd)
      end
  end.

(** [listIndex]; [index] is a [long], and the negation and the
    subtraction wrap around.  For a negative [long] the counter of the
    loop is then [- index - 1], which is not negative. *)
Definition listIndex (l : Z) (index : Z) : M (option Z) :=
  if index <? 0 then
    let index := wrap_long (wrap_long (- index) - 1) in
    let* L := load_list l in
    listIndex_loop prev (Z.to_nat index) (tail L)
  else
    let* L := load_list l in
    listIndex_loop next (Z.to_nat index) (head L).

(** [listRotate]; [listLength(list)] is the field [len]. *)
Definition listRotate (l : Z) : M unit :=
  let* L := load_list l in
  let tail0 := tail L in
  if len L <=? 1 then ret tt
  else
    (let* t := deref tail0 in
     let* n := load_node t in
     update_list l (set_tail (prev n))) ;;;
    (let* L := load_list l in
     let* t := deref (tail L) in
     update_node t (set_next None)) ;;;
    (let* L := load_list l in
     let* h := deref (head L) in
     update_node h (set_prev tail0)) ;;;
    (let* t := deref tail0 in
     update_node t (set_prev None)) ;;;
    (let* L := load_list l in
     let* t := deref tail0 in
     update_node t (set_next (head L))) ;;;
    update_list l (set_head tail0).

(** [listJoin] *)
Definition listJoin (l : Z) (o : Z) : M unit :=
  (let* O := load_list o in
   match head O with
   | Some oh =>
       let* L := load_list l in
       update_node oh (set_prev (tail L))
   | None => ret tt
   end) ;;;
  (let* L := load_list l in
   let* O := load_list o in
   match tail L with
   | Some lt => update_node lt (set_next (head O))
   | None => update_list l (set_head (head O))
   end) ;;;
  (let* O := load_list o in
   match tail O with
   | Some ot => update_list l (set_tail (Some ot))
   | None => ret tt
   end) ;;;
  (let* O := load_list o in
   update_list l (λ L, set_len (wrap_ulong (len L + len O)) L)) ;;;
  update_list o (set_tail None) ;;;
  update_list o (set_head None) ;;;
  update_list o (set_len 0).

(** Modelled from the spec: the macros [listSetDupMethod],
    [listSetFreeMethod] and [listSetMatchMethod] of adlist.h, which install
    a callback by assigning the field. *)
Definition listSetDupMethod (l : Z) (m : option (Z → Z)) : M unit :=
  update_list l (set_dup m).
Definition listSetFreeMethod (l : Z) (m : option (Z → unit)) : M unit :=
  update_list l (set_free m).
Definition listSetMatchMethod (l : Z) (m : option (Z → Z → Z)) : M unit :=
  update_list l (set_match m).

(** ** The abstract view of a list

    A list is seen as the sequence of its nodes from head to tail, each
    with the value it holds. *)

Definition first_or (q : option Z) (xs : list (Z * Z)) : option Z :=
  match xs with
  | [] => q
  | (b, _) :: _ => Some b
  end.

Definition last_or (p : option Z) (xs : list (Z * Z)) : option Z :=
  match last xs with
  | Some (b, _) => Some b
  | None => p
  end.

(** [dlseg h p xs q]: in the heap [h] the nodes [xs] are chained in this
    order, the first one pointing back to [p] and the last one pointing
    on to [q]. *)
Fixpoint dlseg (h : gmap Z listNode) (p : option Z) (xs : list (Z * Z))
    (q : option Z) : Prop :=
  match xs with
  | [] => True
  | (a, v) :: xs' =>
      h !! a = Some (ListNode p (first_or q xs') v) ∧ dlseg h (Some a) xs' q
  end.

(** [dll h L xs]: the header [L] is a well-formed list whose nodes, from
    head to tail, are [xs]. *)
Record dll (h : gmap Z listNode) (L : adlist) (xs : list (Z * Z)) : Prop := {
  dll_nodup : NoDup xs.*1;
  dll_ptrs : Forall valid_ptr xs.*1;
  dll_seg : dlseg h None xs None;
  dll_head : head L = first_or None xs;
  dll_tail : tail L = last_or None xs;
  dll_len : len L = Z.of_nat (length xs)
}.

(** Following one kind of link from [p] until NULL, for [fuel] nodes at
    most: the nodes met, or nothing when a pointer dangles or the fuel
    runs out. *)
Fixpoint walk (link : listNode → option Z) (h : gmap Z listNode)
    (fuel : nat) (p : option Z) : option (list Z) :=
  match p with
  | None => Some []
  | Some a =>
      match fuel with
      | O => None
      | S fuel' =>
          match h !! a with
          | Some n =>
              match walk link h fuel' (link n) with
              | Some ns => Some (a :: ns)
              | None => None
              end
          | None => None
          end
      end
  end.

(** A walk that ends never meets a node twice, so the number of allocated
    nodes is fuel enough. *)
Definition forward (h : gmap Z listNode) (p : option Z) : option (list Z) :=
  walk next h (size h) p.
Definition backward (h : gmap Z listNode) (p : option Z) : option (list Z) :=
  walk prev h (size h) p.

(** ** Specifications of heap computations *)

(** [wp m s Q]: run from [s], the computation [m] returns a result, and the
    result and the final state satisfy [Q]. *)
Definition wp {A} (m : M A) (s : state) (Q : A → state → Prop) : Prop :=
  ∃ x s', m s = Some (x, s') ∧ Q x s'.

(** [relinked s l L xs xs' s']: from [s] to [s'] the list [l], whose nodes
    were [xs], has become the well-formed list of the nodes [xs'] with the
    same callbacks; the other lists and the nodes outside of [xs] and [xs']
    are as they were, the nodes that joined the list are new and those
    that left it are freed. *)
Definition relinked (s : state) (l : Z) (L : adlist) (xs xs' : list (Z * Z))
    (s' : state) : Prop :=
  (∃ L', lists s' !! l = Some L' ∧ dll (nodes s') L' xs' ∧
         dup L' = dup L ∧ free L' = free L ∧ match_ L' = match_ L) ∧
  (∀ l', l' ≠ l → lists s' !! l' = lists s !! l') ∧
  (∀ b, b ∉ xs.*1 → b ∉ xs'.*1 → nodes s' !! b = nodes s !! b) ∧
  (∀ b, b ∈ xs'.*1 → b ∉ xs.*1 → nodes s !! b = None) ∧
  (∀ b, b ∈ xs.*1 → b ∉ xs'.*1 → nodes s' !! b = None).

(** The values handed to the [free] callback of [L] when the values [vs]
    are released: all of them when a callback is installed. *)
Definition freed_values (L : adlist) (vs : list Z) : list Z :=
  match free L with Some _ => vs | None => [] end.

(** [joined s l o L O xs ys s']: the effect of [listJoin l o] on two
    distinct lists. *)
Definition joined (s : state) (l o : Z) (L O : adlist) (xs ys : list (Z * Z))
    (s' : state) : Prop :=
  (∃ L', lists s' !! l = Some L' ∧ dll (nodes s') L' (xs ++ ys) ∧
         dup L' = dup L ∧ free L' = free L ∧ match_ L' = match_ L) ∧
  (∃ O', lists s' !! o = Some O' ∧ dll (nodes s') O' [] ∧
         dup O' = dup O ∧ free O' = free O ∧ match_ O' = match_ O) ∧
  (∀ l', l' ≠ l → l' ≠ o → lists s' !! l' = lists s !! l') ∧
  (∀ b, b ∉ xs.*1 → b ∉ ys.*1 → nodes s' !! b = nodes s !! b) ∧
  (∀ b, is_Some (nodes s' !! b) ↔ is_Some (nodes s !! b)) ∧
  released s' = released s.

(** ** The structural invariants of a list

    The invariants of the data model, stated on the pointer graph: the
    two traversals, the stored length, the emptiness conditions, the
    mutual consistency of the links and the ends of the chain. *)
Definition structural_invariants (h : gmap Z listNode) (L : adlist) : Prop :=
  ∃ ns : list Z,
    forward h (head L) = Some ns ∧
    backward h (tail L) = Some (reverse ns) ∧
    len L = Z.of_nat (length ns) ∧
    (head L = None ↔ tail L = None) ∧
    (tail L = None ↔ len L = 0) ∧
    (∀ n nd m, n ∈ ns → h !! n = Some nd → next nd = Some m →
       ∃ md, h !! m = Some md ∧ prev md = Some n) ∧
    (∀ n nd m, n ∈ ns → h !! n = Some nd → prev nd = Some m →
       ∃ md, h !! m = Some md ∧ next md = Some n) ∧
    (∀ a, head L = Some a → ∃ nd, h !! a = Some nd ∧ prev nd = None) ∧
    (∀ a, tail L = Some a → ∃ nd, h !! a = Some nd ∧ next nd = None).

(** [member s l a]: the node [a] belongs to the list [l], that is, it is
    met on the way from the head of [l] along the [next] links. *)
Definition member (s : state) (l a : Z) : Prop :=
  ∃ L ns, lists s !! l = Some L ∧
          forward (nodes s) (head L) = Some ns ∧ a ∈ ns.

(** ** Sequences of operations *)

(** One call of a mutating operation of the interface. *)
Inductive call : Type :=
  | Create (zm : allocator)
  | AddHead (zm : allocator) (l v : Z)
  | AddTail (zm : allocator) (l v : Z)
  | Insert (zm : allocator) (l old_node v after : Z)
  | Delete (l node : Z)
  | Rotate (l : Z)
  | Join (l o : Z)
  | Empty (l : Z)
  | SetDup (l : Z) (m : option (Z → Z))
  | SetFree (l : Z) (m : option (Z → unit))
  | SetMatch (l : Z) (m : option (Z → Z → Z)).

Definition ignore {A} (m : M A) : M unit := m ;;; ret tt.

Definition run_call (c : call) : M unit :=
  match c with
  | Create zm => ignore (listCreate zm)
  | AddHead zm l v => ignore (listAddNodeHead zm l v)
  | AddTail zm l v => ignore (listAddNodeTail zm l v)
  | Insert zm l old_node v after => ignore (listInsertNode zm l old_node v after)
  | Delete l node => listDelNode l node
  | Rotate l => listRotate l
  | Join l o => listJoin l o
  | Empty l => listEmpty l
  | SetDup l m => listSetDupMethod l m
  | SetFree l m => listSetFreeMethod l m
  | SetMatch l m => listSetMatchMethod l m
  end.

(** The documented preconditions: the allocator hands out unused blocks,
    and the node given to an insertion or a deletion belongs to the list. *)
Definition legal (s : state) (c : call) : Prop :=
  match c with
  | Create zm | AddHead zm _ _ | AddTail zm _ _ => fresh_allocator zm
  | Insert zm l old_node _ _ => fresh_allocator zm ∧ member s l old_node
  | Delete l node => member s l node
  | _ => True
  end.

(** The states reached from the empty memory by a sequence of calls. *)
Inductive reachable : state → Prop :=
  | reachable_init : reachable empty_state
  | reachable_step s c s' :
      reachable s → legal s c → run_call c s = Some (tt, s') →
      reachable s'.

(** The invariant of the whole memory: [R] gives for every allocated list
    the sequence of its nodes; every list is well formed, and no node
    belongs to two lists. *)
Definition heap_inv (s : state) (R : gmap Z (list (Z * Z))) : Prop :=
  (∀ l, is_Some (R !! l) ↔ is_Some (lists s !! l)) ∧
  (∀ l L xs, lists s !! l = Some L → R !! l = Some xs →
     dll (nodes s) L xs) ∧
  (∀ l1 l2 xs1 xs2 a, l1 ≠ l2 → R !! l1 = Some xs1 → R !! l2 = Some xs2 →
     a ∈ xs1.*1 → a ∉ xs2.*1).

(** ** Reference behaviour of the queries *)

(** The test of [listSearchKey] on one value: the [match] callback when it
    is installed, the identity of the pointers otherwise. *)
Definition value_matches (m : option (Z → Z → Z)) (key v : Z) : bool :=
  match m with
  | Some f => negb (f v key =? 0)
  | None => key =? v
  end.

(** The first node, from the head, whose value passes the test. *)
Fixpoint first_match (m : option (Z → Z → Z)) (key : Z)
    (xs : list (Z * Z)) : option Z :=
  match xs with
  | [] => None
  | (a, v) :: xs' =>
      if value_matches m key v then Some a else first_match m key xs'
  end.

(** The node that [listIndex] designates in the sequence [ns]. *)
Definition index_model (ns : list Z) (i : Z) : option Z :=
  if i <? 0 then reverse ns !! Z.to_nat (- i - 1) else ns !! Z.to_nat i.

(** The value stored in the copy by [listDup] for a value [v] of the
    original. *)
Definition dup_value (d : option (Z → Z)) (v : Z) : Z :=
  match d with
  | Some f => f v
  | None => v
  end.

(** ** Using an iterator

    The loop [while ((node = listNext(iter)) != NULL) ...] quoted in the
    documentation of [listNext]: the nodes it meets, in order.  The loop
    runs for [fuel] calls at most. *)
Fixpoint iterate (fuel : nat) (it : listIter) : M (list Z) :=
  match fuel with
  | O => undefined
  | S fuel' =>
      let* r := listNext it in
      match r with
      | (None, _) => ret []
      | (Some node, it') =>
          let* rest := iterate fuel' it' in
          ret (node :: rest)
      end
  end.

(** The same loop when its body removes some of the nodes it is given,
    each one right after the call that returned it, which is the one
    modification that the documentation of [listNext] allows; [del] tells
    which nodes the body removes. *)
Fixpoint iterate_deleting (fuel : nat) (l : Z) (del : Z → bool)
    (it : listIter) : M (list Z) :=
  match fuel with
  | O => undefined
  | S fuel' =>
      let* r := listNext it in
      match r with
      | (None, _) => ret []
      | (Some node, it') =>
          (if del node then listDelNode l node else ret tt) ;;;
          let* rest := iterate_deleting fuel' l del it' in
          ret (node :: rest)
      end
  end.

(** The nodes that such a loop leaves in the list. *)
Fixpoint remaining (del : Z → bool) (xs : list (Z * Z)) : list (Z * Z) :=
  match xs with
  | [] => []
  | (a, v) :: xs' =>
      if del a then remaining del xs' else (a, v) :: remaining del xs'
  end.

(** ** The outcome of [listDup]

    The loop of [listDup] copies the values of the original one by one,
    from the head, and stops at the first value on which the [dup]
    callback fails or for which no node can be allocated. *)

(** The [dup] callback signals a failure on [v]: it returns NULL. *)
Definition dup_fails (d : option (Z → Z)) (v : Z) : bool :=
  match d with
  | Some f => f v =? 0
  | None => false
  end.

(** Adding the values [vs], in this order, at the tail of [copy]; the
    result tells whether every node could be allocated. *)
Fixpoint append_values (zm : allocator) (copy : Z) (vs : list Z) : M bool :=
  match vs with
  | [] => ret true
  | v :: vs' =>
      let* r := listAddNodeTail zm copy v in
      match r with
      | Some _ => append_values zm copy vs'
      | None => ret false
      end
  end.

(** [copied zm copy d vs k s0 sk]: the first [k] values of [vs] are copied,
    which leads from the memory [s0] to the memory [sk]: the [dup]
    callback fails on none of them, and their images are added at the
    tail of [copy], every allocation being successful. *)
Definition copied (zm : allocator) (copy : Z) (d : option (Z → Z))
    (vs : list Z) (k : nat) (s0 sk : state) : Prop :=
  (k ≤ length vs)%nat ∧
  Forall (λ v, dup_fails d v = false) (take k vs) ∧
  append_values zm copy (dup_value d <$> take k vs) s0 = Some (true, sk).

(** The memory in which [listDup] enters its loop: the header [c] of the
    copy is allocated, empty, with the callbacks of the original. *)
Definition dup_start (O : adlist) (c : Z) (s : state) : state :=
  with_lists (<[c := AdList None None 0 (dup O) (free O) (match_ O)]> (lists s))
    s.

(** [dup_post zm O orig xs s r s']: the contract of [listDup] on the list
    [orig], of header [O] and nodes [xs], from the memory [s] to the result
    [r] and the memory [s']. *)
Definition dup_post (zm : allocator) (O : adlist) (orig : Z)
    (xs : list (Z * Z)) (s : state) (r : option Z) (s' : state) : Prop :=
  (* the original list is as it was *)
  (lists s' !! orig = Some O ∧ dll (nodes s') O xs ∧
   ∀ b, is_Some (nodes s !! b) → nodes s' !! b = nodes s !! b) ∧
  match zm s with
  | None =>
      (* no memory for the header of the copy *)
      r = None ∧ s' = s
  | Some c =>
      (* the loop copies [k] values and stops *)
      ∃ k sk, copied zm c (dup O) xs.*2 k (dup_start O c s) sk ∧
        match xs.*2 !! k with
        | None =>
            (* at the end of the list: the copy is returned *)
            r = Some c ∧ s' = sk ∧
            lists s !! c = None ∧ released s' = released s ∧
            iters s' = iters s ∧
            (∀ l', l' ≠ c → lists s' !! l' = lists s !! l') ∧
            ∃ C ys,
              lists s' !! c = Some C ∧ dll (nodes s') C ys ∧
              dup C = dup O ∧ free C = free O ∧ match_ C = match_ O ∧
              len C = len O ∧
              ys.*2 = dup_value (dup O) <$> xs.*2 ∧
              (∀ b, b ∈ ys.*1 → nodes s !! b = None) ∧
              (∀ b, nodes s !! b = None → b ∉ ys.*1 → nodes s' !! b = None)
        | Some v =>
            (* at the value [v]: the callback fails on it, or there is no
               memory for its node; the copy is torn down *)
            (dup_fails (dup O) v = true ∨ zm sk = None) ∧
            r = None ∧
            nodes s' = nodes s ∧ lists s' = lists s ∧ iters s' = iters s ∧
            released s' =
              released s ++
              freed_values O (dup_value (dup O) <$> take k xs.*2)
        end
  end.

(** ** Contracts of the mutating operations *)

(** [inserted s l L xs xs' a s']: one node, [a], was allocated and linked
    into the list [l], which went from the nodes [xs] to the nodes [xs'];
    the length went up by one, and nothing was released. *)
Definition inserted (s : state) (l : Z) (L : adlist) (xs xs' : list (Z * Z))
    (a : Z) (s' : state) : Prop :=
  relinked s l L xs xs' s' ∧
  released s' = released s ∧
  (∃ L', lists s' !! l = Some L' ∧ len L' = len L + 1) ∧
  (∀ b, is_Some (nodes s' !! b) ↔ b = a ∨ is_Some (nodes s !! b)).

(** [removed s l L xs xs' b w s']: the node [b], which held [w], was
    unlinked from the list [l] and freed; the length went down by one, and
    [w] went through the [free] callback when there is one. *)
Definition removed (s : state) (l : Z) (L : adlist) (xs xs' : list (Z * Z))
    (b w : Z) (s' : state) : Prop :=
  relinked s l L xs xs' s' ∧
  released s' = released s ++ freed_values L [w] ∧
  (∃ L', lists s' !! l = Some L' ∧ len L' = len L - 1) ∧
  nodes s' !! b = None ∧
  (∀ c, c ≠ b → is_Some (nodes s' !! c) ↔ is_Some (nodes s !! c)).

(** [rotated s l L xs xs' s']: the nodes of [l] were relinked from [xs] to
    [xs'], and no node was allocated or freed. *)
Definition rotated (s : state) (l : Z) (L : adlist) (xs xs' : list (Z * Z))
    (s' : state) : Prop :=
  relinked s l L xs xs' s' ∧
  released s' = released s ∧
  (∃ L', lists s' !! l = Some L' ∧ len L' = len L) ∧
  (∀ b, is_Some (nodes s' !! b) ↔ is_Some (nodes s !! b)).

(** ** Concrete memories for the examples *)

(** An allocator for the examples: one past the largest address in use,
    and NULL once [limit] blocks are in use or the address space is
    exhausted. *)
Definition top_addr {A} (m : gmap Z A) : Z :=
  foldr Z.max 0 (map_to_list m).*1.

Definition bump (limit : nat) : allocator :=
  λ s, let a := 1 + Z.max (Z.max (top_addr (nodes s)) (top_addr (lists s)))
                        (top_addr (iters s)) in
       if decide ((size (nodes s) + size (lists s) + size (iters s) < limit)%nat
                  ∧ a < 2 ^ 64)
       then Some a
       else None.

(** The allocator of a machine that is out of memory. *)
Definition no_memory : allocator := λ _, None.

Definition run_calls (cs : list call) : M unit :=
  foldr (λ c k, run_call c ;;; k) (ret tt) cs.

Definition final_state (cs : list call) : state :=
  match run_calls cs empty_state with
  | Some (_, s) => s
  | None => empty_state
  end.

(** The list at address 1 holds 10, 20, 30 in the nodes 2, 3, 4. *)
Definition demo_calls : list call :=
  [Create (bump 8); AddTail (bump 8) 1 10; AddTail (bump 8) 1 20;
   AddTail (bump 8) 1 30].
Definition demo_state : state := final_state demo_calls.
Definition demo_list : adlist := AdList (Some 2) (Some 4) 3 None None None.
Definition demo_nodes : list (Z * Z) := [(2, 10); (3, 20); (4, 30)].

(** Two lists: 1, 2 in the nodes 2, 3 of the list at address 1, and 3, 4
    in the nodes 5, 6 of the list at address 4. *)
Definition pair_calls : list call :=
  [Create (bump 8); AddTail (bump 8) 1 1; AddTail (bump 8) 1 2;
   Create (bump 8); AddTail (bump 8) 4 3; AddTail (bump 8) 4 4].
Definition pair_state : state := final_state pair_calls.
Definition pair_first : adlist := AdList (Some 2) (Some 3) 2 None None None.
Definition pair_second : adlist := AdList (Some 5) (Some 6) 2 None None None.

(** Every call of the sequence [cs], run from [s], meets its
    precondition. *)
Fixpoint all_legal (cs : list call) (s : state) : Prop :=
  match cs with
  | [] => True
  | c :: cs' =>
      legal s c ∧ ∀ s1, run_call c s = Some (tt, s1) → all_legal cs' s1
  end.

(** The values held by the list [l], from head to tail. *)
Definition list_values (l : Z) : M (list Z) :=
  λ s, match lists s !! l with
       | Some L =>
           match forward (nodes s) (head L) with
           | Some ns =>
               match mapM (λ a, value <$> nodes s !! a) ns with
               | Some vs => Some (vs, s)
               | None => None
               end
           | None => None
           end
       | None => None
       end.

(** The two scenarios of the specification. *)
Definition scenario_1 : M (list Z * list Z * list Z * list Z * option Z) :=
  listCreate (bump 8) ;;;
  listAddNodeTail (bump 8) 1 1 ;;;
  listAddNodeTail (bump 8) 1 2 ;;;
  listAddNodeTail (bump 8) 1 3 ;;;
  let* v1 := list_values 1 in
  let* n := listSearchKey 8 1 2 in
  let* n := deref n in
  listDelNode 1 n ;;;
  let* v2 := list_values 1 in
  listRotate 1 ;;;
  let* v3 := list_values 1 in
  listAddNodeHead (bump 8) 1 0 ;;;
  let* v4 := list_values 1 in
  let* i := listIndex 1 (-1) in
  ret (v1, v2, v3, v4, i).

Definition scenario_2 : M (list Z * Z * Z * option Z) :=
  run_calls pair_calls ;;;
  listJoin 1 4 ;;;
  let* va := list_values 1 in
  let* A := load_list 1 in
  let* B := load_list 4 in
  ret (va, len A, len B, head B).

(** The list of [demo_state] with a dup callback that fails on the value
    30, and with a free callback. *)
Definition guarded_calls : list call :=
  demo_calls ++
  [SetDup 1 (Some (λ v, if v =? 30 then 0 else v + 100));
   SetFree 1 (Some (λ _, tt))].
Definition guarded_state : state := final_state guarded_calls.

(** What the examples observe of the outcome of [listDup]: the result,
    the log of the released values, the nodes and the addresses of the
    lists. *)
Definition dup_outcome (r : option (option Z * state))
    : option (option Z * list Z * list (Z * listNode) * list Z) :=
  match r with
  | Some (c, s) =>
      Some (c, released s, map_to_list (nodes s), (map_to_list (lists s)).*1)
  | None => None
  end.

(** ** Notions for the further properties of the module *)

(** [listRotate] called [k] times in a row. *)
Fixpoint rotations (k : nat) (l : Z) : M unit :=
  match k with
  | O => ret tt
  | S k' => listRotate l ;;; rotations k' l
  end.

(** The lists that a call is given. *)
Definition operands (c : call) : list Z :=
  match c with
  | Create _ => []
  | AddHead _ l _ | AddTail _ l _ | Insert _ l _ _ _ | Delete l _
  | Rotate l | Empty l | SetDup l _ | SetFree l _ | SetMatch l _ => [l]
  | Join l o => [l; o]
  end.

(** A call that joins a list to itself. *)
Definition joins_itself (c : call) : Prop :=
  match c with
  | Join l o => l = o
  | _ => False
  end.

(** Every allocated node belongs to a list. *)
Definition no_leak (s : state) : Prop :=
  ∀ b, is_Some (nodes s !! b) → ∃ l, member s l b.

(** [covered s R]: every allocated node is in one of the sequences of
    [R]. *)
Definition covered (s : state) (R : gmap Z (list (Z * Z))) : Prop :=
  ∀ b, is_Some (nodes s !! b) → ∃ l xs, R !! l = Some xs ∧ b ∈ xs.*1.

(** Three lists: the two lists of [pair_state], and the list at address 7
    that holds 5 in the node 8. *)
Definition triple_calls : list call :=
  pair_calls ++ [Create (bump 8); AddTail (bump 8) 7 5].
Definition triple_state : state := final_state triple_calls.
Definition triple_third : adlist := AdList (Some 8) (Some 8) 1 None None None.

(** Duplicating a list and releasing the copy right away. *)
Definition dup_and_release (fuel : nat) (zm : allocator) (orig : Z) : M unit :=
  let* r := listDup fuel zm orig in
  match r with
  | Some copy => listRelease copy
  | None => ret tt
  end.

(** [keeps_iters m]: the computation [m] leaves the iterators of the heap
    as they are. *)
Definition keeps_iters {A} (m : M A) : Prop :=
  ∀ s r s', m s = Some (r, s') → iters s' = iters s.

(** The list of [demo_state] with a free callback. *)
Definition freeing_calls : list call :=
  demo_calls ++ [SetFree 1 (Some (λ _, tt))].
Definition freeing_state : state := final_state freeing_calls.
Definition freeing_list : adlist :=
  AdList (Some 2) (Some 4) 3 None (Some (λ _, tt)) None.

(** The loop [while ((node = listNext(iter)) != NULL) ...] on an iterator
    of the heap: the nodes it meets, for [fuel] calls at most. *)
Fixpoint iterate_at (fuel : nat) (iter : Z) : M (list Z) :=
  match fuel with
  | O => undefined
  | S fuel' =>
      let* r := at_iter iter listNext in
      match r with
      | None => ret []
      | Some node =>
          let* rest := iterate_at fuel' iter in
          ret (node :: rest)
      end
  end.

(** The usage that the documentation of [listNext] gives, from the
    creation of the iterator to its release: the nodes met, or NULL when
    the iterator cannot be allocated. *)
Definition traverse (fuel : nat) (zm : allocator) (l dir : Z)
    : M (option (list Z)) :=
  let* r := listGetIterator zm l dir in
  match r with
  | None => ret None
  | Some iter =>
      let* ns := iterate_at fuel iter in
      listReleaseIterator iter ;;;
      ret (Some ns)
  end.

#[local] Set Warnings "-clear-no-such-hyp".

(** ** Lemmas on segments *)

Lemma first_or_app q xs ys :
  first_or q (xs ++ ys) = first_or (first_or q ys) xs.
Proof. destruct xs as [|[a v] xs]; reflexivity. Qed.

Lemma last_or_app p xs ys :
  last_or p (xs ++ ys) = last_or (last_or p xs) ys.
Proof.
  unfold last_or. destruct ys as [|y ys] using rev_ind.
  - rewrite app_nil_r. simpl. by destruct (last xs) as [[]|].
  - rewrite app_assoc, !last_snoc. by destruct y.
Qed.

Lemma last_or_snoc p xs a v : last_or p (xs ++ [(a, v)]) = Some a.
Proof. unfold last_or. by rewrite last_snoc. Qed.

Lemma last_or_cons p a v xs : last_or p ((a, v) :: xs) = last_or (Some a) xs.
Proof. apply (last_or_app p [(a, v)] xs). Qed.

Lemma dlseg_app h p xs ys q :
  dlseg h p (xs ++ ys) q ↔
  dlseg h p xs (first_or q ys) ∧ dlseg h (last_or p xs) ys q.
Proof.
  revert p. induction xs as [|[a v] xs IH]; intros p; simpl.
  - unfold last_or; simpl. tauto.
  - rewrite IH, first_or_app, last_or_cons. tauto.
Qed.

Lemma dlseg_frame h h' p xs q :
  (∀ a, a ∈ xs.*1 → h' !! a = h !! a) →
  dlseg h p xs q → dlseg h' p xs q.
Proof.
  revert p. induction xs as [|[a v] xs IH]; intros p Hag; simpl; [done|].
  intros [Ha Hseg]. split.
  - rewrite Hag; [done|]. simpl. set_solver.
  - apply IH; [|done]. intros b Hb. apply Hag. simpl. set_solver.
Qed.

Lemma dlseg_lookup h p xs q a v :
  dlseg h p xs q → (a, v) ∈ xs →
  ∃ n, h !! a = Some n ∧ value n = v.
Proof.
  revert p. induction xs as [|[b w] xs IH]; intros p; simpl.
  - intros _ H. by apply elem_of_nil in H.
  - intros [Hb Hseg] [H|H]%elem_of_cons.
    + inversion H; subst. eauto.
    + eauto.
Qed.

Lemma dlseg_allocated h p xs q a :
  dlseg h p xs q → a ∈ xs.*1 → is_Some (h !! a).
Proof.
  intros Hseg ([b v] & -> & Hin)%list_elem_of_fmap.
  destruct (dlseg_lookup _ _ _ _ _ _ Hseg Hin) as (n & Hn & _). eauto.
Qed.

(** The address space bounds the length of a list. *)
Lemma valid_ptrs_length (ns : list Z) :
  NoDup ns → Forall valid_ptr ns → Z.of_nat (length ns) < 2 ^ 64.
Proof.
  intros Hnd Hv.
  assert (ns ⊆+ seqZ 1 (2 ^ 64 - 1)) as Hsub.
  { apply NoDup_submseteq; [done|]. intros x Hx.
    rewrite Forall_forall in Hv. specialize (Hv x Hx). unfold valid_ptr in Hv.
    apply elem_of_seqZ. lia. }
  apply submseteq_length in Hsub. rewrite length_seqZ in Hsub. lia.
Qed.

Lemma dll_length_bound h L xs :
  dll h L xs → Z.of_nat (length xs) < 2 ^ 64.
Proof.
  intros [Hnd Hv _ _ _ _]. rewrite <- (length_fmap fst).
  by apply valid_ptrs_length.
Qed.

(** ** Rules for running computations *)

Lemma wp_ret {A} (x : A) s Q : Q x s → wp (ret x) s Q.
Proof. intros H. by exists x, s. Qed.

Lemma wp_bind {A B} (m : M A) (k : A → M B) s Q :
  wp m s (λ x s', wp (k x) s' Q) → wp (bind m k) s Q.
Proof.
  intros (x & s' & Hm & y & s'' & Hk & HQ). exists y, s''.
  unfold bind. by rewrite Hm.
Qed.

Lemma wp_mono {A} (m : M A) s (Q Q' : A → state → Prop) :
  wp m s Q → (∀ x s', Q x s' → Q' x s') → wp m s Q'.
Proof. intros (x & s' & Hm & HQ) H. exists x, s'. eauto. Qed.

Lemma wp_load_node a n s Q :
  nodes s !! a = Some n → Q n s → wp (load_node a) s Q.
Proof. intros H HQ. exists n, s. unfold load_node. by rewrite H. Qed.

Lemma wp_update_node a f n s Q :
  nodes s !! a = Some n →
  Q tt (with_nodes (<[a := f n]> (nodes s)) s) →
  wp (update_node a f) s Q.
Proof. intros H HQ. eexists _, _. unfold update_node. rewrite H. eauto. Qed.

Lemma wp_load_list l L s Q :
  lists s !! l = Some L → Q L s → wp (load_list l) s Q.
Proof. intros H HQ. exists L, s. unfold load_list. by rewrite H. Qed.

Lemma wp_update_list l f L s Q :
  lists s !! l = Some L →
  Q tt (with_lists (<[l := f L]> (lists s)) s) →
  wp (update_list l f) s Q.
Proof. intros H HQ. eexists _, _. unfold update_list. rewrite H. eauto. Qed.

Lemma wp_zfree_node a n s Q :
  nodes s !! a = Some n →
  Q tt (with_nodes (delete a (nodes s)) s) →
  wp (zfree_node a) s Q.
Proof. intros H HQ. eexists _, _. unfold zfree_node. rewrite H. eauto. Qed.

Lemma wp_zfree_list l L s Q :
  lists s !! l = Some L →
  Q tt (with_lists (delete l (lists s)) s) →
  wp (zfree_list l) s Q.
Proof. intros H HQ. eexists _, _. unfold zfree_list. rewrite H. eauto. Qed.

Lemma wp_free_value l L v s Q :
  lists s !! l = Some L →
  Q tt (State (nodes s) (lists s) (iters s)
          (released s ++ match free L with Some _ => [v] | None => [] end)) →
  wp (free_value l v) s Q.
Proof.
  intros H HQ. unfold free_value. apply wp_bind.
  eapply wp_load_list; [done|]. destruct (free L).
  - eexists _, _. split; [reflexivity|]. done.
  - apply wp_ret. rewrite app_nil_r in HQ. by destruct s.
Qed.

Lemma wp_deref a s Q : Q a s → wp (deref (Some a)) s Q.
Proof. apply wp_ret. Qed.

Lemma wp_zmalloc_node zm a s Q :
  zm s = Some a →
  Q (Some a) (with_nodes (<[a := uninit_node]> (nodes s)) s) →
  wp (zmalloc_node zm) s Q.
Proof. intros H HQ. eexists _, _. unfold zmalloc_node. rewrite H. eauto. Qed.

#[local] Arguments Z.of_nat : simpl never.
#[local] Arguments Z.pow : simpl never.
#[local] Arguments wrap_ulong : simpl never.

Ltac norm_fmap :=
  simpl in *; repeat (progress (rewrite ?fmap_app, ?fmap_cons in *; simpl in *)).

Ltac neq_tac := first [assumption | congruence | done | set_solver].
Ltac lookup_rw :=
  simpl;
  repeat first
    [ rewrite lookup_insert_eq
    | rewrite lookup_insert_ne by neq_tac
    | rewrite lookup_delete_eq
    | rewrite lookup_delete_ne by neq_tac ].
Ltac lookup_tac := lookup_rw; first [reflexivity | eassumption].

Ltac wp_step :=
  lazymatch goal with
  | |- wp (ret _) _ _ => apply wp_ret
  | |- wp (bind _ _) _ _ => apply wp_bind
  | |- wp (load_node _) _ _ => eapply wp_load_node; [lookup_tac|]
  | |- wp (update_node _ _) _ _ => eapply wp_update_node; [lookup_tac|]
  | |- wp (load_list _) _ _ => eapply wp_load_list; [lookup_tac|]
  | |- wp (update_list _ _) _ _ => eapply wp_update_list; [lookup_tac|]
  | |- wp (incr_len _) _ _ => eapply wp_update_list; [lookup_tac|]
  | |- wp (decr_len _) _ _ => eapply wp_update_list; [lookup_tac|]
  | |- wp (free_value _ _) _ _ => eapply wp_free_value; [lookup_tac|]
  | |- wp (zfree_node _) _ _ => eapply wp_zfree_node; [lookup_tac|]
  | |- wp (zfree_list _) _ _ => eapply wp_zfree_list; [lookup_tac|]
  | |- wp (deref (Some _)) _ _ => apply wp_deref
  | |- wp (zmalloc_node _) _ _ => eapply wp_zmalloc_node; [eassumption|]
  end; unfold with_nodes, with_lists; simpl.
Ltac wp_run := repeat wp_step.

Lemma dll_fresh h L xs a : dll h L xs → h !! a = None → a ∉ xs.*1.
Proof.
  intros Hd Ha Hin. destruct (dlseg_allocated _ _ _ _ _ (dll_seg _ _ _ Hd) Hin) as [n Hn].
  congruence.
Qed.

Lemma wrap_ulong_small z : 0 <= z < 2 ^ 64 → wrap_ulong z = z.
Proof. intros H. unfold wrap_ulong. by apply Z.mod_small. Qed.

Lemma dlseg_insert_notin h p xs q a n :
  a ∉ xs.*1 → dlseg h p xs q → dlseg (<[a := n]> h) p xs q.
Proof.
  intros Ha. apply dlseg_frame. intros b Hb.
  apply lookup_insert_ne. intros ->. done.
Qed.

Lemma dlseg_delete_notin h p xs q a :
  a ∉ xs.*1 → dlseg h p xs q → dlseg (delete a h) p xs q.
Proof.
  intros Ha. apply dlseg_frame. intros b Hb.
  apply lookup_delete_ne. intros ->. done.
Qed.

Lemma listAddNodeHead_spec zm s l L xs a v :
  fresh_allocator zm → zm s = Some a → lists s !! l = Some L →
  dll (nodes s) L xs →
  wp (listAddNodeHead zm l v) s (λ r s',
    r = Some l ∧ released s' = released s ∧
    relinked s l L xs ((a, v) :: xs) s').
Proof.
  intros Hf Hzm HL Hd.
  destruct (Hf _ _ Hzm) as (Hva & Hna & Hla).
  pose proof (dll_fresh _ _ _ _ Hd Hna) as Hax.
  pose proof (dll_length_bound _ _ _ Hd) as Hbound.
  assert (Z.of_nat (length ((a, v) :: xs)) < 2 ^ 64) as Hbound'.
  { rewrite <- (length_fmap fst). apply valid_ptrs_length; simpl.
    - constructor; [done|]. apply Hd.
    - constructor; [done|]. apply Hd. }
  destruct Hd as [Hnd Hv Hseg Hh Ht Hlen].
  unfold listAddNodeHead. wp_run.
  destruct xs as [|[b w] xs]; simpl in *.
  - rewrite Hlen. simpl. wp_run.
    split; [done|]. split; [done|]. unfold relinked. simpl.
    split; [|split; [|split; [|split]]].
    + eexists. split; [lookup_tac|]. split; [|done].
      split; simpl; try done.
      * apply NoDup_singleton.
      * by constructor.
      * split; [|done]. lookup_tac.
      * rewrite Hlen. by rewrite wrap_ulong_small.
    + intros l' Hl'. lookup_tac.
    + intros b _ Hb. lookup_tac.
    + intros b Hb _. by apply list_elem_of_singleton in Hb as ->.
    + intros e He1 He2. norm_fmap. set_solver.
  - destruct Hseg as [Hb Hseg].
    assert (a ≠ b) as Hab by set_solver.
    assert ((len L =? 0) = false) as -> by lia.
    rewrite Hh. wp_run.
    split; [done|]. split; [done|]. unfold relinked. simpl.
    apply NoDup_cons in Hnd as [Hbx Hnd].
    split; [|split; [|split; [|split]]].
    + eexists. split; [lookup_tac|]. split; [|done].
      split; simpl; try done.
      * apply NoDup_cons. split; [done|]. by apply NoDup_cons.
      * by constructor.
      * split; [lookup_tac|]. split; [lookup_tac|].
        repeat (apply dlseg_insert_notin; [set_solver|]). done.
      * rewrite wrap_ulong_small; lia.
    + intros l' Hl'. lookup_tac.
    + intros c Hc1 Hc2. lookup_tac.
    + intros c Hc1 Hc2. assert (c = a) as -> by set_solver. done.
    + intros e He1 He2. norm_fmap. set_solver.
Qed.

Lemma first_or_snoc q q' xs y ys :
  first_or q ((xs ++ [y]) ++ ys) = first_or q' (xs ++ [y]).
Proof. by destruct xs as [|[] ?], y. Qed.

Lemma first_or_indep q q' xs y ys :
  first_or q (xs ++ y :: ys) = first_or q' (xs ++ y :: ys).
Proof. by destruct xs as [|[] ?], y. Qed.

Lemma snoc_cases {A} (xs : list A) : xs = [] ∨ ∃ ys y, xs = ys ++ [y].
Proof. destruct xs using rev_ind; eauto. Qed.

Lemma cons_length_bound h L xs a (v : Z) :
  dll h L xs → valid_ptr a → a ∉ xs.*1 →
  Z.of_nat (length xs) + 1 < 2 ^ 64.
Proof.
  intros Hd Hva Hax.
  assert (Z.of_nat (length ((a, v) :: xs)) < 2 ^ 64) as Hbound'.
  { rewrite <- (length_fmap fst). apply valid_ptrs_length; simpl.
    - constructor; [done|]. apply Hd.
    - constructor; [done|]. apply Hd. }
  simpl length in Hbound'. lia.
Qed.

Ltac relinked_intro :=
  split; [done|]; split; [done|]; unfold relinked; simpl;
  split; [|split; [|split; [|split]]].

Ltac frame_tac :=
  repeat first
    [ apply dlseg_insert_notin; [first [assumption | set_solver]|]
    | apply dlseg_delete_notin; [first [assumption | set_solver]|] ];
  try done.

Lemma listAddNodeTail_spec zm s l L xs a v :
  fresh_allocator zm → zm s = Some a → lists s !! l = Some L →
  dll (nodes s) L xs →
  wp (listAddNodeTail zm l v) s (λ r s',
    r = Some l ∧ released s' = released s ∧
    relinked s l L xs (xs ++ [(a, v)]) s').
Proof.
  intros Hf Hzm HL Hd.
  destruct (Hf _ _ Hzm) as (Hva & Hna & Hla).
  pose proof (dll_fresh _ _ _ _ Hd Hna) as Hax.
  pose proof (cons_length_bound _ _ _ _ v Hd Hva Hax) as Hbound.
  destruct Hd as [Hnd Hv Hseg Hh Ht Hlen].
  unfold listAddNodeTail. wp_run.
  destruct (snoc_cases xs) as [->|(ys & [b w] & ->)]; simpl in *.
  - rewrite Hlen. simpl. wp_run. relinked_intro.
    + eexists. split; [lookup_tac|]. split; [|done].
      split; simpl; try done.
      * apply NoDup_singleton.
      * by constructor.
      * split; [|done]. lookup_tac.
      * rewrite Hlen. by rewrite wrap_ulong_small.
    + intros l' Hl'. lookup_tac.
    + intros b _ Hb. lookup_tac.
    + intros b Hb _. by apply list_elem_of_singleton in Hb as ->.
    + intros e He1 He2. norm_fmap. set_solver.
  - rewrite length_app in *. simpl in *.
    rewrite fmap_app in *. simpl in *.
    assert ((len L =? 0) = false) as -> by lia.
    rewrite last_or_snoc in Ht. rewrite Ht.
    apply dlseg_app in Hseg as [Hseg1 Hb]. simpl in Hb. destruct Hb as [Hb _].
    apply NoDup_app in Hnd as (Hnd1 & Hnd2 & _).
    assert (a ≠ b) as Hab by set_solver.
    assert (b ∉ ys.*1) as Hby by set_solver.
    wp_run. relinked_intro.
    + eexists. split; [lookup_tac|]. split; [|done].
      split; simpl.
      * rewrite !fmap_app. simpl. rewrite <- app_assoc. simpl.
        apply NoDup_app. split; [done|]. split; [set_solver|].
        apply NoDup_cons. split; [set_solver|]. apply NoDup_singleton.
      * rewrite !fmap_app. simpl. rewrite <- app_assoc. simpl.
        rewrite Forall_app in *. destruct Hv as [Hv1 Hv2].
        split; [done|]. inversion Hv2; subst. constructor; [done|]. by constructor.
      * rewrite <- app_assoc. simpl. apply dlseg_app. simpl.
        split; [frame_tac|].
        split; [lookup_tac|]. split; [lookup_tac|]. done.
      * rewrite Hh. by rewrite first_or_snoc with (q' := None).
      * by rewrite last_or_snoc.
      * rewrite !length_app. simpl. rewrite wrap_ulong_small; lia.
    + intros l' Hl'. lookup_tac.
    + intros c Hc1 Hc2. norm_fmap. lookup_tac.
    + intros c Hc1 Hc2. norm_fmap. assert (c = a) as -> by set_solver. done.
    + intros c Hc1 Hc2. norm_fmap. set_solver.
Qed.

Lemma first_or_mid q xs1 b w xs2 :
  first_or q (xs1 ++ (b, w) :: xs2) = first_or (Some b) xs1.
Proof. by rewrite first_or_app. Qed.

Lemma last_or_mid p xs1 b w xs2 :
  last_or p (xs1 ++ (b, w) :: xs2) = last_or (Some b) xs2.
Proof. by rewrite last_or_app, last_or_cons. Qed.

Lemma last_or_elem p xs : xs ≠ [] → ∃ c, last_or p xs = Some c ∧ c ∈ xs.*1.
Proof.
  destruct (snoc_cases xs) as [->|(ys & [c u] & ->)]; [done|]. intros _.
  exists c. rewrite last_or_snoc. split; [done|]. rewrite fmap_app. set_solver.
Qed.

Lemma first_or_elem q xs : xs ≠ [] → ∃ c, first_or q xs = Some c ∧ c ∈ xs.*1.
Proof.
  destruct xs as [|[c u] xs]; [done|]. intros _. exists c. simpl. set_solver.
Qed.

Lemma listInsertNode_after_spec zm s l L xs1 b w xs2 a v after :
  fresh_allocator zm → zm s = Some a → lists s !! l = Some L →
  dll (nodes s) L (xs1 ++ (b, w) :: xs2) → after ≠ 0 →
  wp (listInsertNode zm l b v after) s (λ r s',
    r = Some l ∧ released s' = released s ∧
    relinked s l L (xs1 ++ (b, w) :: xs2) (xs1 ++ (b, w) :: (a, v) :: xs2) s').
Proof.
  intros Hf Hzm HL Hd Hafter.
  destruct (Hf _ _ Hzm) as (Hva & Hna & Hla).
  pose proof (dll_fresh _ _ _ _ Hd Hna) as Hax.
  pose proof (cons_length_bound _ _ _ _ v Hd Hva Hax) as Hbound.
  destruct Hd as [Hnd Hv Hseg Hh Ht Hlen].
  rewrite first_or_mid in Hh. rewrite last_or_mid in Ht.
  apply dlseg_app in Hseg as [Hseg1 [Hb Hseg2]]. simpl in Hseg1.
  norm_fmap.
  apply NoDup_app in Hnd as (Hnd1 & Hnd12 & [Hb2 Hnd2]%NoDup_cons).
  rewrite Forall_app, Forall_cons in Hv. destruct Hv as (Hv1 & Hvb & Hv2).
  assert (a ≠ b) as Hab by set_solver.
  assert (b ∉ xs1.*1) as Hb1 by set_solver.
  assert (a ∉ xs1.*1) as Ha1 by set_solver.
  assert (a ∉ xs2.*1) as Ha2 by set_solver.
  assert (NoDup (xs1.*1 ++ b :: a :: xs2.*1)) as Hnd'.
  { apply NoDup_app. split; [done|]. split; [set_solver|].
    apply NoDup_cons. split; [set_solver|]. by apply NoDup_cons. }
  assert (Forall valid_ptr (xs1.*1 ++ b :: a :: xs2.*1)) as Hv'.
  { rewrite Forall_app, !Forall_cons. done. }
  unfold listInsertNode. wp_run.
  assert ((after =? 0) = false) as -> by lia. simpl. wp_run.
  destruct xs2 as [|[c u] xs2]; simpl in *.
  - unfold last_or in Ht; simpl in Ht.
    destruct (decide (tail L = Some b)) as [_|Hne]; [|done].
    wp_run. relinked_intro.
    + eexists. split; [lookup_tac|]. split; [|done].
      split; simpl; norm_fmap; try done.
      * apply dlseg_app. simpl.
        split; [frame_tac|]. split; [lookup_tac|]. split; [lookup_tac|]. done.
      * by rewrite first_or_mid.
      * by rewrite last_or_app.
      * rewrite !length_app in *. simpl in *. rewrite wrap_ulong_small; lia.
    + intros l' Hl'. lookup_tac.
    + intros d Hd1 Hd2. norm_fmap. lookup_tac.
    + intros d Hd1 Hd2. norm_fmap. assert (d = a) as -> by set_solver. done.
    + intros d Hd1 Hd2. norm_fmap. set_solver.
  - destruct Hseg2 as [Hc Hseg2].
    rewrite last_or_cons in Ht.
    destruct (decide (tail L = Some b)) as [Heq|_].
    { exfalso. rewrite Ht in Heq.
      destruct (snoc_cases xs2) as [->|(ys & [d x] & ->)].
      - unfold last_or in Heq; simpl in Heq. set_solver.
      - rewrite last_or_snoc in Heq. norm_fmap. set_solver. }
    assert (a ≠ c) as Hac by set_solver.
    assert (b ≠ c) as Hbc by set_solver.
    apply NoDup_cons in Hnd2 as [Hc2 Hnd2].
    wp_run. relinked_intro.
    + eexists. split; [lookup_tac|]. split; [|done].
      split; simpl; norm_fmap; try done.
      * apply dlseg_app. simpl.
        split; [frame_tac|]. split; [lookup_tac|]. split; [lookup_tac|].
        split; [lookup_tac|]. frame_tac.
      * by rewrite first_or_mid.
      * by rewrite last_or_mid, !last_or_cons.
      * rewrite !length_app in *. simpl in *. rewrite wrap_ulong_small; lia.
    + intros l' Hl'. lookup_tac.
    + intros d Hd1 Hd2. norm_fmap. lookup_tac.
    + intros d Hd1 Hd2. norm_fmap. assert (d = a) as -> by set_solver. done.
    + intros d Hd1 Hd2. norm_fmap. set_solver.
Qed.

Lemma listInsertNode_before_spec zm s l L xs1 b w xs2 a v :
  fresh_allocator zm → zm s = Some a → lists s !! l = Some L →
  dll (nodes s) L (xs1 ++ (b, w) :: xs2) →
  wp (listInsertNode zm l b v 0) s (λ r s',
    r = Some l ∧ released s' = released s ∧
    relinked s l L (xs1 ++ (b, w) :: xs2) (xs1 ++ (a, v) :: (b, w) :: xs2) s').
Proof.
  intros Hf Hzm HL Hd.
  destruct (Hf _ _ Hzm) as (Hva & Hna & Hla).
  pose proof (dll_fresh _ _ _ _ Hd Hna) as Hax.
  pose proof (cons_length_bound _ _ _ _ v Hd Hva Hax) as Hbound.
  destruct Hd as [Hnd Hv Hseg Hh Ht Hlen].
  rewrite first_or_mid in Hh. rewrite last_or_mid in Ht.
  apply dlseg_app in Hseg as [Hseg1 [Hb Hseg2]]. simpl in Hseg1.
  norm_fmap.
  apply NoDup_app in Hnd as (Hnd1 & Hnd12 & [Hb2 Hnd2]%NoDup_cons).
  rewrite Forall_app, Forall_cons in Hv. destruct Hv as (Hv1 & Hvb & Hv2).
  assert (a ≠ b) as Hab by set_solver.
  assert (b ∉ xs1.*1) as Hb1 by set_solver.
  assert (a ∉ xs1.*1) as Ha1 by set_solver.
  assert (a ∉ xs2.*1) as Ha2 by set_solver.
  assert (NoDup (xs1.*1 ++ a :: b :: xs2.*1)) as Hnd'.
  { apply NoDup_app. split; [done|]. split; [set_solver|].
    apply NoDup_cons. split; [set_solver|]. by apply NoDup_cons. }
  assert (Forall valid_ptr (xs1.*1 ++ a :: b :: xs2.*1)) as Hv'.
  { rewrite Forall_app, !Forall_cons. done. }
  unfold listInsertNode. wp_run.
  destruct (snoc_cases xs1) as [->|(ys & [c u] & ->)]; simpl in *.
  - unfold last_or in Hb; simpl in Hb.
    destruct (decide (head L = Some b)) as [_|Hne]; [|done].
    wp_run. relinked_intro.
    + eexists. split; [lookup_tac|]. split; [|done].
      split; simpl; norm_fmap; try done.
      * split; [lookup_tac|]. split; [lookup_tac|]. frame_tac.
      * by rewrite !last_or_cons.
      * rewrite wrap_ulong_small; lia.
    + intros l' Hl'. lookup_tac.
    + intros d Hd1 Hd2. norm_fmap. lookup_tac.
    + intros d Hd1 Hd2. norm_fmap. assert (d = a) as -> by set_solver. done.
    + intros d Hd1 Hd2. norm_fmap. set_solver.
  - rewrite last_or_snoc in Hb.
    apply dlseg_app in Hseg1 as [Hseg1 [Hc _]]. simpl in Hseg1.
    norm_fmap.
    apply NoDup_app in Hnd1 as (Hnd1 & Hnd1c & _).
    destruct (decide (head L = Some b)) as [Heq|_].
    { exfalso. rewrite Hh in Heq. destruct ys as [|[d x] ys]; simpl in Heq;
        set_solver. }
    assert (c ∉ ys.*1) as Hcy by (clear -Hnd1c; set_solver).
    assert (b ∉ ys.*1) as Hby by (clear -Hb1; set_solver).
    assert (a ∉ ys.*1) as Hay by (clear -Ha1; set_solver).
    assert (a ≠ c) as Hac by set_solver.
    assert (b ≠ c) as Hbc by set_solver.
    rewrite !last_or_snoc. wp_run. relinked_intro.
    + eexists. split; [lookup_tac|]. split; [|done].
      split; simpl; norm_fmap; try done.
      * apply dlseg_app. simpl. rewrite last_or_snoc.
        split; [|split; [lookup_tac|split; [lookup_tac|frame_tac]]].
        apply dlseg_app. simpl.
        split; [frame_tac|]. split; [lookup_tac|done].
      * rewrite Hh. by rewrite first_or_snoc with (q' := Some b).
      * by rewrite last_or_mid, !last_or_cons.
      * rewrite !length_app in *. simpl in *. rewrite wrap_ulong_small; lia.
    + intros l' Hl'. lookup_tac.
    + intros d Hd1 Hd2. norm_fmap. lookup_tac.
    + intros d Hd1 Hd2. norm_fmap. assert (d = a) as -> by set_solver. done.
    + intros d Hd1 Hd2. norm_fmap. set_solver.
Qed.

Lemma listDelNode_spec s l L xs1 b w xs2 :
  lists s !! l = Some L →
  dll (nodes s) L (xs1 ++ (b, w) :: xs2) →
  wp (listDelNode l b) s (λ _ s',
    True ∧ released s' = released s ++ freed_values L [w] ∧
    relinked s l L (xs1 ++ (b, w) :: xs2) (xs1 ++ xs2) s').
Proof.
  intros HL Hd.
  pose proof (dll_length_bound _ _ _ Hd) as Hbound.
  destruct Hd as [Hnd Hv Hseg Hh Ht Hlen].
  rewrite first_or_mid in Hh. rewrite last_or_mid in Ht.
  apply dlseg_app in Hseg as [Hseg1 [Hb Hseg2]]. simpl in Hseg1.
  rewrite length_app in *.
  norm_fmap.
  apply NoDup_app in Hnd as (Hnd1 & Hnd12 & [Hb2 Hnd2]%NoDup_cons).
  rewrite Forall_app, Forall_cons in Hv. destruct Hv as (Hv1 & Hvb & Hv2).
  assert (b ∉ xs1.*1) as Hb1 by set_solver.
  assert (NoDup (xs1.*1 ++ xs2.*1)) as Hnd'.
  { apply NoDup_app. split; [done|]. split; [set_solver|done]. }
  assert (Forall valid_ptr (xs1.*1 ++ xs2.*1)) as Hv'.
  { rewrite Forall_app. done. }
  unfold listDelNode, freed_values. wp_run.
  destruct (snoc_cases xs1) as [->|(ys & [c u] & ->)];
    destruct xs2 as [|[d x] xs2]; simpl in *;
    rewrite ?last_or_snoc in *; unfold last_or in Hb; simpl in Hb.
  - wp_run. relinked_intro.
    + eexists. split; [lookup_tac|]. split; [|done].
      split; simpl; try done.
      rewrite wrap_ulong_small; lia.
    + intros l' Hl'. lookup_tac.
    + intros e He1 He2. lookup_tac.
    + intros e He1 He2. norm_fmap. set_solver.
    + intros e He1 He2. assert (e = b) as -> by set_solver. lookup_tac.
  - destruct Hseg2 as [Hd Hseg2].
    apply NoDup_cons in Hnd2 as [Hd2 Hnd2].
    assert (b ≠ d) as Hbd by set_solver.
    assert (b ∉ xs2.*1) as Hbx by set_solver.
    wp_run. relinked_intro.
    + eexists. split; [lookup_tac|]. split; [|done].
      split; simpl; try done.
      * split; [lookup_tac|]. frame_tac.
      * rewrite Ht. by rewrite !last_or_cons.
      * rewrite wrap_ulong_small; lia.
    + intros l' Hl'. lookup_tac.
    + intros e He1 He2. lookup_tac.
    + intros e He1 He2. norm_fmap. set_solver.
    + intros e He1 He2. assert (e = b) as -> by set_solver. lookup_tac.
  - apply dlseg_app in Hseg1 as [Hseg1 [Hc _]]. simpl in Hseg1.
    rewrite length_app in *. norm_fmap.
    apply NoDup_app in Hnd1 as (Hnd1 & Hnd1c & _).
    assert (c ∉ ys.*1) as Hcy by (clear -Hnd1c; set_solver).
    assert (b ∉ ys.*1) as Hby by (clear -Hb1; set_solver).
    assert (b ≠ c) as Hbc by (clear -Hb1; set_solver).
    wp_run. relinked_intro; rewrite ?app_nil_r.
    + eexists. split; [lookup_tac|]. split; [|done].
      split; simpl; norm_fmap; try done.
      * by rewrite app_nil_r in Hnd'.
      * apply dlseg_app. simpl. split; [frame_tac|]. split; [lookup_tac|done].
      * rewrite Hh. apply first_or_indep.
      * by rewrite last_or_snoc.
      * rewrite length_app. simpl. rewrite wrap_ulong_small; lia.
    + intros l' Hl'. lookup_tac.
    + intros e He1 He2. norm_fmap. lookup_tac.
    + intros e He1 He2. norm_fmap. set_solver.
    + intros e He1 He2. norm_fmap.
      assert (e = b) as -> by set_solver. lookup_tac.
  - apply dlseg_app in Hseg1 as [Hseg1 [Hc _]]. simpl in Hseg1.
    destruct Hseg2 as [Hd Hseg2].
    rewrite length_app in *. norm_fmap.
    apply NoDup_app in Hnd1 as (Hnd1 & Hnd1c & _).
    apply NoDup_cons in Hnd2 as [Hd2 Hnd2].
    assert (c ∉ ys.*1) as Hcy by (clear -Hnd1c; set_solver).
    assert (b ∉ ys.*1) as Hby by (clear -Hb1; set_solver).
    assert (b ≠ c) as Hbc by (clear -Hb1; set_solver).
    assert (b ≠ d) as Hbd by set_solver.
    pose proof (Hnd12 c ltac:(set_solver)) as Hc12.
    assert (c ≠ d) as Hcd by (clear -Hc12; set_solver).
    assert (d ∉ ys.*1) as Hdy.
    { intros Hin. apply (Hnd12 d); set_solver. }
    assert (b ∉ xs2.*1) as Hbx by set_solver.
    assert (c ∉ xs2.*1) as Hcx by (clear -Hc12; set_solver).
    wp_run. relinked_intro.
    + eexists. split; [lookup_tac|]. split; [|done].
      split; simpl; norm_fmap; try done.
      * apply dlseg_app. simpl. rewrite last_or_snoc.
        split; [|split; [lookup_tac|frame_tac]].
        apply dlseg_app. simpl. split; [frame_tac|]. split; [lookup_tac|done].
      * rewrite Hh. by rewrite first_or_snoc with (q' := Some b).
      * rewrite Ht, last_or_mid. by rewrite !last_or_cons.
      * rewrite !length_app. simpl. rewrite wrap_ulong_small; lia.
    + intros l' Hl'. lookup_tac.
    + intros e He1 He2. norm_fmap. lookup_tac.
    + intros e He1 He2. norm_fmap. set_solver.
    + intros e He1 He2. norm_fmap.
      assert (e = b) as -> by set_solver. lookup_tac.
Qed.

Lemma listRotate_small_spec s l L xs :
  lists s !! l = Some L → dll (nodes s) L xs → (length xs ≤ 1)%nat →
  wp (listRotate l) s (λ _ s', s' = s).
Proof.
  intros HL Hd Hle. unfold listRotate. wp_run.
  rewrite (dll_len _ _ _ Hd).
  assert ((Z.of_nat (length xs) <=? 1) = true) as -> by lia.
  by wp_run.
Qed.

Lemma listRotate_spec s l L h x ys t w :
  lists s !! l = Some L →
  dll (nodes s) L ((h, x) :: ys ++ [(t, w)]) →
  wp (listRotate l) s (λ _ s',
    True ∧ released s' = released s ∧
    relinked s l L ((h, x) :: ys ++ [(t, w)]) ((t, w) :: (h, x) :: ys) s').
Proof.
  intros HL Hd.
  destruct Hd as [Hnd Hv Hseg Hh Ht Hlen].
  rewrite last_or_cons, last_or_snoc in Ht.
  simpl in Hh. simpl in Hseg. destruct Hseg as [Hhd Hseg].
  apply dlseg_app in Hseg as [Hseg Htl]. simpl in Htl, Hseg.
  destruct Htl as [Htl _].
  simpl in Hlen. rewrite length_app in Hlen. simpl in Hlen.
  norm_fmap.
  apply NoDup_cons in Hnd as [Hh1 Hnd].
  apply NoDup_app in Hnd as (Hnd1 & Hnd1t & _).
  rewrite Forall_cons, Forall_app, Forall_cons in Hv.
  destruct Hv as (Hvh & Hvy & Hvt & _).
  assert (h ≠ t) as Hht by (clear -Hh1; set_solver).
  assert (h ∉ ys.*1) as Hhy by (clear -Hh1; set_solver).
  assert (t ∉ ys.*1) as Hty by (clear -Hnd1t; set_solver).
  assert (NoDup (t :: h :: ys.*1)) as Hnd'.
  { apply NoDup_cons. split; [set_solver|]. by apply NoDup_cons. }
  assert (Forall valid_ptr (t :: h :: ys.*1)) as Hv'.
  { rewrite !Forall_cons. done. }
  destruct L as [Lh Lt Ln Ld Lf Lm]; simpl in *; subst Lh Lt Ln.
  unfold listRotate. wp_run.
  rewrite (proj2 (Z.leb_gt _ _)) by lia.
  wp_run.
  destruct (snoc_cases ys) as [->|(zs & [m y] & ->)]; simpl in *.
  - unfold last_or in Htl; simpl in Htl. unfold last_or; simpl.
    wp_run. relinked_intro.
    + eexists. split; [lookup_tac|]. split; [|done].
      split; simpl; try done.
      split; [lookup_tac|]. split; [lookup_tac|done].
    + intros l' Hl'. lookup_tac.
    + intros e He1 He2. lookup_tac.
    + intros e He1 He2. set_solver.
    + intros e He1 He2. set_solver.
  - rewrite last_or_snoc in *.
    apply dlseg_app in Hseg as [Hseg [Hm _]]. simpl in Hseg.
    rewrite length_app in *. norm_fmap.
    apply NoDup_app in Hnd1 as (Hnd1 & Hnd1m & _).
    assert (m ∉ zs.*1) as Hmz by (clear -Hnd1m; set_solver).
    assert (h ≠ m) as Hhm by (clear -Hhy; set_solver).
    assert (t ≠ m) as Htm by (clear -Hty; set_solver).
    assert (h ∉ zs.*1) as Hhz by (clear -Hhy; set_solver).
    assert (t ∉ zs.*1) as Htz by (clear -Hty; set_solver).
    wp_run. relinked_intro.
    + eexists. split; [lookup_tac|]. split; [|done].
      split; simpl; norm_fmap; try done.
      * split; [lookup_tac|]. split.
        { lookup_rw. simpl. by rewrite first_or_snoc with (q' := None). }
        apply dlseg_app. simpl. split; [frame_tac|]. split; [lookup_tac|done].
      * by rewrite last_or_cons, last_or_cons, last_or_snoc.
      * rewrite length_app. simpl. lia.
    + intros l' Hl'. lookup_tac.
    + intros e He1 He2. norm_fmap. lookup_tac.
    + intros e He1 He2. norm_fmap. set_solver.
    + intros e He1 He2. norm_fmap. set_solver.
Qed.

Lemma last_or_nil p : last_or p [] = p.
Proof. reflexivity. Qed.

Lemma last_or_indep p p' xs y ys :
  last_or p (xs ++ y :: ys) = last_or p' (xs ++ y :: ys).
Proof.
  destruct y as [b w]. by rewrite !last_or_mid.
Qed.

Lemma app_length_bound h L O xs ys :
  dll h L xs → dll h O ys → (∀ a, a ∈ xs.*1 → a ∉ ys.*1) →
  NoDup (xs ++ ys).*1 ∧ Forall valid_ptr (xs ++ ys).*1 ∧
  Z.of_nat (length xs) + Z.of_nat (length ys) < 2 ^ 64.
Proof.
  intros Hx Hy Hdisj.
  assert (NoDup (xs ++ ys).*1) as Hnd.
  { rewrite fmap_app. apply NoDup_app. split; [apply Hx|]. split; [done|apply Hy]. }
  assert (Forall valid_ptr (xs ++ ys).*1) as Hv.
  { rewrite fmap_app, Forall_app. split; [apply Hx|apply Hy]. }
  split; [done|]. split; [done|].
  pose proof (valid_ptrs_length _ Hnd Hv) as H.
  rewrite length_fmap, length_app in H. lia.
Qed.

Ltac joined_intro :=
  unfold joined; simpl; rewrite ?app_nil_r;
  split; [|split; [|split; [|split; [|split; [|done]]]]].

Lemma dll_nil h L :
  head L = None → tail L = None → len L = 0 → dll h L [].
Proof.
  intros Hh Ht Hl. split; simpl; try done.
  - apply NoDup_nil_2.
Qed.

Lemma is_Some_insert_present {A} (m : gmap Z A) a x b :
  is_Some (m !! a) → is_Some (<[a := x]> m !! b) ↔ is_Some (m !! b).
Proof.
  intros Ha. destruct (decide (a = b)) as [->|Hne].
  - rewrite lookup_insert_eq. split; eauto.
  - by rewrite lookup_insert_ne.
Qed.

Lemma listJoin_spec s l o L O xs ys :
  l ≠ o → lists s !! l = Some L → lists s !! o = Some O →
  dll (nodes s) L xs → dll (nodes s) O ys →
  (∀ a, a ∈ xs.*1 → a ∉ ys.*1) →
  wp (listJoin l o) s (λ _ s', joined s l o L O xs ys s').
Proof.
  intros Hlo HL HO Hx Hy Hdisj.
  destruct (app_length_bound _ _ _ _ _ Hx Hy Hdisj) as (Hnd' & Hv' & Hbound).
  destruct Hx as [Hndx Hvx Hsegx Hhx Htx Hlx].
  destruct Hy as [Hndy Hvy Hsegy Hhy Hty Hly].
  destruct L as [Lh Lt Ln Ld Lf Lm]; simpl in *; subst Lh Lt Ln.
  destruct O as [Oh Ot On Od Of Om]; simpl in *; subst Oh Ot On.
  assert (o ≠ l) as Hol by congruence.
  unfold listJoin.
  destruct (snoc_cases xs) as [->|(zs & [t w] & ->)];
    destruct ys as [|[h x] ys]; simpl in *;
    rewrite ?last_or_snoc in *; rewrite ?app_nil_r in *;
    rewrite ?last_or_nil in *.
  - wp_run. joined_intro.
    + eexists. split; [lookup_tac|]. split; [|done]. by apply dll_nil.
    + eexists. split; [lookup_tac|]. split; [|done]. by apply dll_nil.
    + intros l' H1 H2. lookup_tac.
    + done.
    + done.
  - destruct (last_or_elem None ((h, x) :: ys)) as (c & Hc & _); [done|].
    rewrite Hc in *. destruct Hsegy as [Hh Hsegy].
    apply NoDup_cons in Hndy as [Hhy Hndy].
    wp_run. joined_intro.
    + eexists. split; [lookup_tac|]. split; [|done].
      split; simpl; try done.
      * split; [lookup_tac|]. frame_tac.
      * rewrite wrap_ulong_small; lia.
    + eexists. split; [lookup_tac|]. split; [|done]. by apply dll_nil.
    + intros l' H1 H2. lookup_tac.
    + intros b _ Hb. lookup_tac.
    + intros b. apply is_Some_insert_present. eauto.
  - apply dlseg_app in Hsegx as [Hsegx [Ht _]]. simpl in Hsegx.
    rewrite length_app in *. norm_fmap.
    apply NoDup_app in Hndx as (Hndz & Hzt & _).
    wp_run. joined_intro.
    + eexists. split; [lookup_tac|]. split; [|done].
      split; simpl; norm_fmap; try done.
      * apply dlseg_app. simpl. split; [|split; [lookup_tac|done]].
        apply dlseg_insert_notin; [|done]. clear -Hzt. set_solver.
      * by rewrite last_or_snoc.
      * rewrite length_app. simpl. rewrite wrap_ulong_small; lia.
    + eexists. split; [lookup_tac|]. split; [|done]. by apply dll_nil.
    + intros l' H1 H2. lookup_tac.
    + intros b Hb _. norm_fmap. lookup_tac.
    + intros b. apply is_Some_insert_present. eauto.
  - destruct (last_or_elem None ((h, x) :: ys)) as (c & Hc & _); [done|].
    rewrite Hc in *. destruct Hsegy as [Hh Hsegy].
    apply dlseg_app in Hsegx as [Hsegx [Ht _]]. simpl in Hsegx.
    rewrite !length_app in *. norm_fmap.
    apply NoDup_cons in Hndy as [Hhy Hndy].
    apply NoDup_app in Hndx as (Hndz & Hzt & _).
    assert (t ∉ zs.*1) as Htz by (clear -Hzt; set_solver).
    assert (h ∉ zs.*1) as Hhz.
    { intros Hin. apply (Hdisj h); set_solver. }
    assert (t ≠ h) as Hth.
    { intros ->. apply (Hdisj h); set_solver. }
    assert (t ∉ ys.*1) as Hty'.
    { intros Hin. apply (Hdisj t); set_solver. }
    wp_run. joined_intro.
    + eexists. split; [lookup_tac|]. split; [|done].
      split; simpl; norm_fmap; try done.
      * apply dlseg_app. simpl. rewrite last_or_snoc.
        split; [|split; [lookup_tac|frame_tac]].
        apply dlseg_app. simpl. split; [frame_tac|]. split; [lookup_tac|done].
      * symmetry. apply first_or_snoc.
      * rewrite last_or_app. rewrite <- Hc.
        apply (last_or_indep _ _ []).
      * rewrite !length_app. simpl. rewrite wrap_ulong_small; lia.
    + eexists. split; [lookup_tac|]. split; [|done]. by apply dll_nil.
    + intros l' H1 H2. lookup_tac.
    + intros b Hb1 Hb2. norm_fmap. lookup_tac.
    + intros b. rewrite !is_Some_insert_present; [done|lookup_rw; eauto..].
Qed.

Lemma listEmpty_loop_spec l L xs : ∀ s p,
  lists s !! l = Some L → NoDup xs.*1 → dlseg (nodes s) p xs None →
  wp (listEmpty_loop l (length xs) (first_or None xs)) s (λ _ s',
    lists s' = lists s ∧
    released s' = released s ++ freed_values L xs.*2 ∧
    ∀ b, nodes s' !! b = if decide (b ∈ xs.*1) then None else nodes s !! b).
Proof.
  induction xs as [|[a v] xs IH]; intros s p HL Hnd Hseg.
  - apply wp_ret. split; [done|]. split; [|done].
    unfold freed_values. destruct (free L); by rewrite app_nil_r.
  - destruct Hseg as [Ha Hseg]. rewrite !fmap_cons in *.
    apply NoDup_cons in Hnd as [Hax Hnd].
    cbn [length first_or listEmpty_loop fst snd]. wp_run.
    eapply wp_mono.
    { apply (IH _ (Some a)); simpl; [done|done|].
      by apply dlseg_delete_notin. }
    simpl. intros _ s' (Hl & Hr & Hn). split; [done|]. split.
    + rewrite Hr. unfold freed_values. destruct (free L); simpl.
      * by rewrite <- app_assoc.
      * by rewrite app_nil_r.
    + intros b. rewrite Hn. simpl in *.
      destruct (decide (b ∈ xs.*1)) as [Hin|Hnin];
        destruct (decide (b ∈ a :: xs.*1)) as [Hin'|Hnin']; try done.
      * exfalso. apply Hnin'. apply elem_of_cons. by right.
      * apply elem_of_cons in Hin' as [->|?]; [|done].
        apply lookup_delete_eq.
      * apply lookup_delete_ne. intros ->. apply Hnin'. apply elem_of_cons. by left.
Qed.

Lemma listEmpty_spec s l L xs :
  lists s !! l = Some L → dll (nodes s) L xs →
  wp (listEmpty l) s (λ _ s',
    True ∧ released s' = released s ++ freed_values L xs.*2 ∧
    relinked s l L xs [] s').
Proof.
  intros HL Hd. destruct Hd as [Hnd Hv Hseg Hh Ht Hlen].
  unfold listEmpty. wp_run. rewrite Hlen, Nat2Z.id, Hh.
  eapply wp_mono.
  { by apply (listEmpty_loop_spec l L xs s None). }
  simpl. intros _ s1 (Hl & Hr & Hn).
  assert (lists s1 !! l = Some L) as HL1 by (by rewrite Hl).
  wp_run. split; [done|]. split; [done|]. unfold relinked; simpl.
  split; [|split; [|split; [|split]]].
  - eexists. split; [lookup_tac|]. split; [|done]. by apply dll_nil.
  - intros l' Hl'. lookup_rw. by rewrite Hl.
  - intros b Hb _. rewrite Hn. by rewrite decide_False.
  - intros b Hb. by apply elem_of_nil in Hb.
  - intros b Hb _. rewrite Hn. by rewrite decide_True.
Qed.

Lemma listRelease_spec s l L xs :
  lists s !! l = Some L → dll (nodes s) L xs →
  wp (listRelease l) s (λ _ s',
    released s' = released s ++ freed_values L xs.*2 ∧
    lists s' = delete l (lists s) ∧
    ∀ b, nodes s' !! b = if decide (b ∈ xs.*1) then None else nodes s !! b).
Proof.
  intros HL Hd. unfold listRelease. apply wp_bind.
  eapply wp_mono; [by apply listEmpty_spec|].
  simpl. intros _ s1 (_ & Hr & (L' & HL' & _) & Hothers & Hframe & _ & Hgone).
  wp_run. split; [done|]. split.
  - apply map_eq. intros l'. destruct (decide (l' = l)) as [->|Hne].
    + by rewrite !lookup_delete_eq.
    + rewrite !lookup_delete_ne by done. by apply Hothers.
  - intros b. destruct (decide (b ∈ xs.*1)) as [Hin|Hnin].
    + apply Hgone; [done|]. apply not_elem_of_nil.
    + apply Hframe; [done|]. apply not_elem_of_nil.
Qed.

Lemma listJoin_self_spec s l L xs :
  lists s !! l = Some L → dll (nodes s) L xs →
  wp (listJoin l l) s (λ _ s',
    (∃ L', lists s' !! l = Some L' ∧ dll (nodes s') L' [] ∧
           dup L' = dup L ∧ free L' = free L ∧ match_ L' = match_ L) ∧
    (∀ l', l' ≠ l → lists s' !! l' = lists s !! l') ∧
    (∀ b, b ∉ xs.*1 → nodes s' !! b = nodes s !! b) ∧
    (∀ b, is_Some (nodes s' !! b) ↔ is_Some (nodes s !! b)) ∧
    released s' = released s).
Proof.
  intros HL Hd. destruct Hd as [Hnd Hv Hseg Hh Ht Hlen].
  destruct L as [Lh Lt Ln Ld Lf Lm]; simpl in *; subst Lh Lt Ln.
  unfold listJoin.
  destruct xs as [|[h x] xs]; simpl in *; rewrite ?last_or_nil in *.
  - wp_run. split; [|split; [|split; [|split]]]; try done.
    + eexists. split; [lookup_tac|]. split; [|done]. by apply dll_nil.
    + intros l' Hl'. lookup_tac.
  - destruct (last_or_elem None ((h, x) :: xs)) as (t & Hc & Hin); [done|].
    rewrite Hc in *. destruct Hseg as [Hhd Hseg].
    destruct (dlseg_allocated (nodes s) None ((h, x) :: xs) None t)
      as [nt Hnt]; [by split|done|].
    wp_run.
    destruct (decide (h = t)) as [->|Hne].
    + wp_run. split; [|split; [|split; [|split]]]; try done.
      * eexists. split; [lookup_tac|]. split; [|done]. by apply dll_nil.
      * intros l' Hl'. lookup_tac.
      * intros b Hb. lookup_tac.
      * intros b. rewrite !is_Some_insert_present; [done|lookup_rw; eauto..].
    + wp_run. split; [|split; [|split; [|split]]]; try done.
      * eexists. split; [lookup_tac|]. split; [|done]. by apply dll_nil.
      * intros l' Hl'. lookup_tac.
      * intros b Hb. lookup_tac.
      * intros b. rewrite !is_Some_insert_present; [done|lookup_rw; eauto..].
Qed.

Lemma listCreate_spec zm s a :
  fresh_allocator zm → zm s = Some a →
  wp (listCreate zm) s (λ r s',
    r = Some a ∧ nodes s' = nodes s ∧ released s' = released s ∧
    lists s' = <[a := AdList None None 0 None None None]> (lists s)).
Proof.
  intros Hf Hzm. unfold listCreate.
  apply wp_bind. eexists _, _. split.
  { unfold zmalloc_list. rewrite Hzm. reflexivity. }
  unfold with_lists; simpl. wp_run.
  split; [done|]. split; [done|]. split; [done|].
  by rewrite !insert_insert_eq.
Qed.

(** ** Traversals of a well-formed list *)

Lemma walk_None link h fuel : walk link h fuel None = Some [].
Proof. by destruct fuel. Qed.

Lemma walk_next_dlseg h xs : ∀ p fuel,
  dlseg h p xs None → (length xs ≤ fuel)%nat →
  walk next h fuel (first_or None xs) = Some xs.*1.
Proof.
  induction xs as [|[a v] xs IH]; intros p fuel Hseg Hfuel;
    [apply walk_None|].
  destruct Hseg as [Ha Hseg]. simpl in Hfuel.
  destruct fuel as [|fuel]; [lia|].
  cbn [first_or walk]. rewrite Ha. cbn [next].
  rewrite (IH (Some a)); [done|done|lia].
Qed.

Lemma walk_prev_dlseg h xs : ∀ q fuel,
  dlseg h None xs q → (length xs ≤ fuel)%nat →
  walk prev h fuel (last_or None xs) = Some (reverse xs.*1).
Proof.
  induction xs as [|[a v] xs IH] using rev_ind; intros q fuel Hseg Hfuel;
    [apply walk_None|].
  apply dlseg_app in Hseg as [Hseg [Ha _]]. simpl in Hseg.
  rewrite length_app in Hfuel. simpl in Hfuel.
  destruct fuel as [|fuel]; [lia|].
  rewrite last_or_snoc. cbn [walk]. rewrite Ha. cbn [prev].
  rewrite (IH (Some a)); [|done|lia].
  by rewrite fmap_app, reverse_app.
Qed.

Lemma allocated_size (h : gmap Z listNode) (ns : list Z) :
  NoDup ns → (∀ a, a ∈ ns → is_Some (h !! a)) → (length ns ≤ size h)%nat.
Proof.
  intros Hnd Hall.
  rewrite <- size_dom, <- (size_list_to_set (C := gset Z) ns) by done.
  apply subseteq_size. intros a Ha. apply elem_of_list_to_set in Ha.
  apply elem_of_dom. by apply Hall.
Qed.

Lemma dll_size h L xs : dll h L xs → (length xs ≤ size h)%nat.
Proof.
  intros Hd. rewrite <- (length_fmap fst).
  apply allocated_size; [apply Hd|].
  intros a Ha. eapply dlseg_allocated; [apply Hd|done].
Qed.

Lemma dll_forward h L xs : dll h L xs → forward h (head L) = Some xs.*1.
Proof.
  intros Hd. unfold forward. rewrite (dll_head _ _ _ Hd).
  eapply walk_next_dlseg; [apply Hd|by eapply dll_size].
Qed.

Lemma dll_backward h L xs :
  dll h L xs → backward h (tail L) = Some (reverse xs.*1).
Proof.
  intros Hd. unfold backward. rewrite (dll_tail _ _ _ Hd).
  eapply walk_prev_dlseg; [apply Hd|by eapply dll_size].
Qed.

Lemma dlseg_next_link h xs : ∀ p q n nd m,
  dlseg h p xs q → n ∈ xs.*1 → h !! n = Some nd → next nd = Some m →
  (Some m = q ∧ last_or None xs = Some n) ∨
  ∃ md, h !! m = Some md ∧ prev md = Some n.
Proof.
  induction xs as [|[a v] xs IH]; intros p q n nd m Hseg Hin Hn Hnext.
  - by apply elem_of_nil in Hin.
  - destruct Hseg as [Ha Hseg]. rewrite fmap_cons in Hin.
    apply elem_of_cons in Hin as [->|Hin].
    + simpl in Hn. rewrite Ha in Hn. inversion Hn; subst nd. simpl in Hnext.
      destruct xs as [|[b u] xs]; simpl in *.
      * left. split; [done|]. by unfold last_or.
      * right. inversion Hnext; subst m. destruct Hseg as [Hb _]. eauto.
    + destruct (IH (Some a) q n nd m Hseg Hin Hn Hnext) as [[Hq Hl]|Hr];
        [|by right].
      left. split; [done|]. rewrite last_or_cons.
      destruct xs as [|y xs]; [by apply elem_of_nil in Hin|].
      rewrite <- Hl. apply (last_or_indep _ _ []).
Qed.

Lemma dlseg_prev_link h xs : ∀ p q n nd m,
  dlseg h p xs q → n ∈ xs.*1 → h !! n = Some nd → prev nd = Some m →
  (Some m = p ∧ first_or None xs = Some n) ∨
  ∃ md, h !! m = Some md ∧ next md = Some n.
Proof.
  induction xs as [|[a v] xs IH]; intros p q n nd m Hseg Hin Hn Hprev.
  - by apply elem_of_nil in Hin.
  - destruct Hseg as [Ha Hseg]. rewrite fmap_cons in Hin.
    apply elem_of_cons in Hin as [->|Hin].
    + simpl in Hn. rewrite Ha in Hn. inversion Hn; subst nd. simpl in Hprev.
      left. by split.
    + destruct (IH (Some a) q n nd m Hseg Hin Hn Hprev) as [[Hq Hl]|Hr];
        [|by right].
      right. inversion Hq; subst m. eexists. split; [done|]. simpl.
      destruct xs as [|[b u] xs]; [by apply elem_of_nil in Hin|]. done.
Qed.

Lemma first_or_None_nil xs : first_or None xs = None ↔ xs = [].
Proof. by destruct xs as [|[] ?]. Qed.

Lemma last_or_None_nil xs : last_or None xs = None ↔ xs = [].
Proof.
  destruct (snoc_cases xs) as [->|(ys & [a v] & ->)]; [done|].
  rewrite last_or_snoc. split; [done|]. by destruct ys.
Qed.

(** A well-formed list satisfies the structural invariants. *)
Lemma dll_structural h L xs : dll h L xs → structural_invariants h L.
Proof.
  intros Hd. exists xs.*1.
  pose proof Hd as [Hnd Hv Hseg Hh Ht Hlen].
  split; [by eapply dll_forward|]. split; [by eapply dll_backward|].
  split; [by rewrite length_fmap|].
  split; [by rewrite Hh, Ht, first_or_None_nil, last_or_None_nil|].
  split.
  { rewrite Ht, Hlen, last_or_None_nil. destruct xs; simpl; [done|].
    split; [done|lia]. }
  split.
  { intros n nd m Hin Hn Hnext.
    destruct (dlseg_next_link _ _ _ _ _ _ _ Hseg Hin Hn Hnext) as [[? _]|?];
      done. }
  split.
  { intros n nd m Hin Hn Hprev.
    destruct (dlseg_prev_link _ _ _ _ _ _ _ Hseg Hin Hn Hprev) as [[? _]|?];
      done. }
  split.
  - intros a Ha. rewrite Hh in Ha. destruct xs as [|[b v] xs]; [done|].
    simpl in Ha. inversion Ha; subst b. destruct Hseg as [Hb _]. eauto.
  - intros a Ha. rewrite Ht in Ha.
    destruct (snoc_cases xs) as [->|(ys & [b v] & ->)]; [done|].
    rewrite last_or_snoc in Ha. inversion Ha; subst b.
    apply dlseg_app in Hseg as [_ [Hb _]]. eauto.
Qed.

(** ** Preservation of the memory invariant *)

Lemma wp_elim {A} (m : M A) s Q r s' :
  wp m s Q → m s = Some (r, s') → Q r s'.
Proof. intros (x & s1 & Hm & HQ) Hr. congruence. Qed.

Lemma ignore_elim {A} (m : M A) s s' :
  ignore m s = Some (tt, s') → ∃ r, m s = Some (r, s').
Proof.
  unfold ignore, bind, ret. destruct (m s) as [[r s1]|]; [|done].
  intros H. inversion H; subst. eauto.
Qed.

Lemma dll_frame h h' L xs :
  (∀ a, a ∈ xs.*1 → h' !! a = h !! a) → dll h L xs → dll h' L xs.
Proof.
  intros Hag [Hnd Hv Hseg Hh Ht Hlen]. split; try done.
  by eapply dlseg_frame.
Qed.

Lemma dll_header h L L' xs :
  head L' = head L → tail L' = tail L → len L' = len L →
  dll h L xs → dll h L' xs.
Proof.
  intros H1 H2 H3 [Hnd Hv Hseg Hh Ht Hlen]. split; try done; congruence.
Qed.

Lemma dll_allocated h L xs a : dll h L xs → a ∈ xs.*1 → is_Some (h !! a).
Proof. intros Hd. eapply dlseg_allocated, Hd. Qed.

Lemma heap_inv_empty : heap_inv empty_state ∅.
Proof.
  split; [|split].
  - intros l. simpl. rewrite !lookup_empty. done.
  - intros l L xs H. simpl in H. by rewrite lookup_empty in H.
  - intros l1 l2 xs1 xs2 a _ H. by rewrite lookup_empty in H.
Qed.

Lemma heap_inv_relinked s s' R l L xs xs' :
  heap_inv s R → lists s !! l = Some L → R !! l = Some xs →
  relinked s l L xs xs' s' → heap_inv s' (<[l := xs']> R).
Proof.
  intros (Hdom & Hwf & Hdisj) HL HR
    ((L' & HL' & Hd' & _) & Hothers & Hframe & Hnew & Hgone).
  assert (∀ l2 xs2 b, l2 ≠ l → R !! l2 = Some xs2 → b ∈ xs2.*1 →
            (b ∉ xs.*1) ∧ (b ∉ xs'.*1) ∧ is_Some (nodes s !! b)) as Hfar.
  { intros l2 xs2 b Hne H2 Hb.
    assert (b ∉ xs.*1) as Hbx.
    { intros Hin. exact (Hdisj l l2 xs xs2 b (not_eq_sym Hne) HR H2 Hin Hb). }
    destruct (proj1 (Hdom l2)) as [L2 HL2]; [eauto|].
    pose proof (dll_allocated _ _ _ _ (Hwf _ _ _ HL2 H2) Hb) as Hal.
    split; [done|]. split; [|done].
    intros Hin. rewrite (Hnew b Hin Hbx) in Hal. by destruct Hal. }
  split; [|split].
  - intros l2. destruct (decide (l2 = l)) as [->|Hne].
    + rewrite lookup_insert_eq, HL'. split; eauto.
    + rewrite lookup_insert_ne by done. rewrite Hothers by done. apply Hdom.
  - intros l2 L2 xs2 HL2 HR2. destruct (decide (l2 = l)) as [->|Hne].
    + rewrite lookup_insert_eq in HR2. congruence.
    + rewrite lookup_insert_ne in HR2 by done. rewrite Hothers in HL2 by done.
      eapply dll_frame; [|by eapply Hwf].
      intros b Hb. destruct (Hfar l2 xs2 b Hne HR2 Hb) as (? & ? & _).
      by apply Hframe.
  - intros l1 l2 xs1 xs2 a Hne H1 H2 Ha.
    destruct (decide (l1 = l)) as [->|Hne1];
      destruct (decide (l2 = l)) as [->|Hne2]; try done.
    + rewrite lookup_insert_eq in H1. rewrite lookup_insert_ne in H2 by done.
      inversion H1; subst xs1. intros Hin.
      by destruct (Hfar l2 xs2 a Hne2 H2 Hin) as (_ & ? & _).
    + rewrite lookup_insert_eq in H2. rewrite lookup_insert_ne in H1 by done.
      inversion H2; subst xs2.
      by destruct (Hfar l1 xs1 a Hne1 H1 Ha) as (_ & ? & _).
    + rewrite lookup_insert_ne in H1, H2 by done.
      exact (Hdisj l1 l2 xs1 xs2 a Hne H1 H2 Ha).
Qed.

Lemma heap_inv_same s R : ∀ s',
  heap_inv s R → nodes s' = nodes s → lists s' = lists s → heap_inv s' R.
Proof. intros s' (H1 & H2 & H3) Hn Hl. unfold heap_inv. by rewrite Hn, Hl. Qed.

Lemma heap_inv_header s s' R l L L' :
  heap_inv s R → lists s !! l = Some L →
  nodes s' = nodes s → lists s' = <[l := L']> (lists s) →
  head L' = head L → tail L' = tail L → len L' = len L →
  heap_inv s' R.
Proof.
  intros (Hdom & Hwf & Hdisj) HL Hn Hl Hh Ht Hlen.
  split; [|split; [|done]].
  - intros l2. rewrite Hl. destruct (decide (l2 = l)) as [->|Hne].
    + rewrite lookup_insert_eq. rewrite Hdom, HL. split; eauto.
    + rewrite lookup_insert_ne by done. apply Hdom.
  - intros l2 L2 xs2. rewrite Hl, Hn.
    destruct (decide (l2 = l)) as [->|Hne].
    + rewrite lookup_insert_eq. intros HL2 HR. inversion HL2; subst L2.
      eapply dll_header; [done..|]. by eapply Hwf.
    + rewrite lookup_insert_ne by done. apply Hwf.
Qed.

Lemma heap_inv_create s s' R a :
  heap_inv s R → lists s !! a = None →
  nodes s' = nodes s →
  lists s' = <[a := AdList None None 0 None None None]> (lists s) →
  heap_inv s' (<[a := []]> R).
Proof.
  intros (Hdom & Hwf & Hdisj) Ha Hn Hl.
  split; [|split].
  - intros l2. rewrite Hl. destruct (decide (l2 = a)) as [->|Hne].
    + rewrite !lookup_insert_eq. split; eauto.
    + rewrite !lookup_insert_ne by done. apply Hdom.
  - intros l2 L2 xs2. rewrite Hl, Hn.
    destruct (decide (l2 = a)) as [->|Hne].
    + rewrite !lookup_insert_eq. intros H1 H2.
      inversion H1; inversion H2; subst. by apply dll_nil.
    + rewrite !lookup_insert_ne by done. apply Hwf.
  - intros l1 l2 xs1 xs2 b Hne H1 H2 Hb.
    destruct (decide (l1 = a)) as [->|Hne1];
      destruct (decide (l2 = a)) as [->|Hne2]; try done.
    + rewrite lookup_insert_eq in H1. inversion H1; subst xs1.
      by apply elem_of_nil in Hb.
    + rewrite lookup_insert_eq in H2. inversion H2; subst xs2.
      apply not_elem_of_nil.
    + rewrite lookup_insert_ne in H1, H2 by done.
      exact (Hdisj l1 l2 xs1 xs2 b Hne H1 H2 Hb).
Qed.

Lemma heap_inv_joined s s' R l o L O xs ys :
  heap_inv s R → l ≠ o → lists s !! l = Some L → lists s !! o = Some O →
  R !! l = Some xs → R !! o = Some ys →
  joined s l o L O xs ys s' →
  heap_inv s' (<[o := []]> (<[l := xs ++ ys]> R)).
Proof.
  intros (Hdom & Hwf & Hdisj) Hlo HL HO HRl HRo
    ((L' & HL' & Hd' & _) & (O' & HO' & HdO' & _) & Hothers & Hframe & _ & _).
  split; [|split].
  - intros l2. destruct (decide (l2 = o)) as [->|Hno].
    { rewrite lookup_insert_eq, HO'. split; eauto. }
    rewrite lookup_insert_ne by done.
    destruct (decide (l2 = l)) as [->|Hnl].
    { rewrite lookup_insert_eq, HL'. split; eauto. }
    rewrite lookup_insert_ne by done. rewrite Hothers by done. apply Hdom.
  - intros l2 L2 xs2 HL2 HR2. destruct (decide (l2 = o)) as [->|Hno].
    { rewrite lookup_insert_eq in HR2. congruence. }
    rewrite lookup_insert_ne in HR2 by done.
    destruct (decide (l2 = l)) as [->|Hnl].
    { rewrite lookup_insert_eq in HR2. congruence. }
    rewrite lookup_insert_ne in HR2 by done.
    rewrite Hothers in HL2 by done.
    eapply dll_frame; [|by eapply Hwf].
    intros b Hb. apply Hframe.
    + intros Hin. exact (Hdisj l l2 xs xs2 b (not_eq_sym Hnl) HRl HR2 Hin Hb).
    + intros Hin. exact (Hdisj o l2 ys xs2 b (not_eq_sym Hno) HRo HR2 Hin Hb).
  - intros l1 l2 xs1 xs2 a Hne H1 H2 Ha.
    destruct (decide (l1 = o)) as [->|Hno1].
    { rewrite lookup_insert_eq in H1. inversion H1; subst xs1.
      by apply elem_of_nil in Ha. }
    destruct (decide (l2 = o)) as [->|Hno2].
    { rewrite lookup_insert_eq in H2. inversion H2; subst xs2.
      apply not_elem_of_nil. }
    rewrite lookup_insert_ne in H1, H2 by done.
    destruct (decide (l1 = l)) as [->|Hne1];
      destruct (decide (l2 = l)) as [->|Hne2]; try done.
    + rewrite lookup_insert_eq in H1. rewrite lookup_insert_ne in H2 by done.
      inversion H1; subst xs1. rewrite fmap_app in Ha.
      apply elem_of_app in Ha as [Ha|Ha].
      * exact (Hdisj l l2 xs xs2 a Hne HRl H2 Ha).
      * exact (Hdisj o l2 ys xs2 a (not_eq_sym Hno2) HRo H2 Ha).
    + rewrite lookup_insert_eq in H2. rewrite lookup_insert_ne in H1 by done.
      inversion H2; subst xs2. rewrite fmap_app.
      apply not_elem_of_app. split.
      * exact (Hdisj l1 l xs1 xs a Hne H1 HRl Ha).
      * exact (Hdisj l1 o xs1 ys a Hno1 H1 HRo Ha).
    + rewrite lookup_insert_ne in H1, H2 by done.
      exact (Hdisj l1 l2 xs1 xs2 a Hne H1 H2 Ha).
Qed.

Lemma heap_inv_self_joined s s' R l L xs :
  heap_inv s R → lists s !! l = Some L → R !! l = Some xs →
  (∃ L', lists s' !! l = Some L' ∧ dll (nodes s') L' []) →
  (∀ l', l' ≠ l → lists s' !! l' = lists s !! l') →
  (∀ b, b ∉ xs.*1 → nodes s' !! b = nodes s !! b) →
  heap_inv s' (<[l := []]> R).
Proof.
  intros (Hdom & Hwf & Hdisj) HL HR (L' & HL' & Hd') Hothers Hframe.
  split; [|split].
  - intros l2. destruct (decide (l2 = l)) as [->|Hne].
    + rewrite lookup_insert_eq, HL'. split; eauto.
    + rewrite lookup_insert_ne by done. rewrite Hothers by done. apply Hdom.
  - intros l2 L2 xs2 HL2 HR2. destruct (decide (l2 = l)) as [->|Hne].
    + rewrite lookup_insert_eq in HR2. congruence.
    + rewrite lookup_insert_ne in HR2 by done. rewrite Hothers in HL2 by done.
      eapply dll_frame; [|by eapply Hwf].
      intros b Hb. apply Hframe. intros Hin.
      exact (Hdisj l l2 xs xs2 b (not_eq_sym Hne) HR HR2 Hin Hb).
  - intros l1 l2 xs1 xs2 a Hne H1 H2 Ha.
    destruct (decide (l1 = l)) as [->|Hne1];
      destruct (decide (l2 = l)) as [->|Hne2]; try done.
    + rewrite lookup_insert_eq in H1. inversion H1; subst xs1.
      by apply elem_of_nil in Ha.
    + rewrite lookup_insert_eq in H2. inversion H2; subst xs2.
      apply not_elem_of_nil.
    + rewrite lookup_insert_ne in H1, H2 by done.
      exact (Hdisj l1 l2 xs1 xs2 a Hne H1 H2 Ha).
Qed.

Lemma member_split s l a L xs :
  lists s !! l = Some L → dll (nodes s) L xs → member s l a →
  ∃ xs1 w xs2, xs = xs1 ++ (a, w) :: xs2.
Proof.
  intros HL Hd (L' & ns & HL' & Hfw & Hin).
  assert (L' = L) as -> by congruence.
  rewrite (dll_forward _ _ _ Hd) in Hfw. inversion Hfw; subst ns.
  apply list_elem_of_fmap in Hin as ([b w] & -> & Hin).
  apply list_elem_of_split in Hin as (xs1 & xs2 & ->). eauto.
Qed.

(** An allocation that fails leaves the memory as it is. *)
Lemma listCreate_fail zm s : zm s = None → listCreate zm s = Some (None, s).
Proof. intros H. unfold listCreate, bind, zmalloc_list. by rewrite H. Qed.

Lemma listAddNodeHead_fail zm l v s :
  zm s = None → listAddNodeHead zm l v s = Some (None, s).
Proof. intros H. unfold listAddNodeHead, bind, zmalloc_node. by rewrite H. Qed.

Lemma listAddNodeTail_fail zm l v s :
  zm s = None → listAddNodeTail zm l v s = Some (None, s).
Proof. intros H. unfold listAddNodeTail, bind, zmalloc_node. by rewrite H. Qed.

Lemma listInsertNode_fail zm l old v after s :
  zm s = None → listInsertNode zm l old v after s = Some (None, s).
Proof. intros H. unfold listInsertNode, bind, zmalloc_node. by rewrite H. Qed.

(** The operations dereference the list they are given. *)
Lemma listAddNodeHead_defined zm l v s a r s' :
  zm s = Some a → listAddNodeHead zm l v s = Some (r, s') →
  is_Some (lists s !! l).
Proof.
  intros Hzm. unfold listAddNodeHead, bind, zmalloc_node, update_node, load_list.
  rewrite Hzm. simpl. rewrite lookup_insert_eq. simpl.
  destruct (lists s !! l); [eauto|done].
Qed.

Lemma listAddNodeTail_defined zm l v s a r s' :
  zm s = Some a → listAddNodeTail zm l v s = Some (r, s') →
  is_Some (lists s !! l).
Proof.
  intros Hzm. unfold listAddNodeTail, bind, zmalloc_node, update_node, load_list.
  rewrite Hzm. simpl. rewrite lookup_insert_eq. simpl.
  destruct (lists s !! l); [eauto|done].
Qed.

Lemma load_list_defined {A} l (k : adlist → M A) s r s' :
  bind (load_list l) k s = Some (r, s') → is_Some (lists s !! l).
Proof.
  unfold bind, load_list. destruct (lists s !! l); [eauto|done].
Qed.

Lemma update_list_inv l f s s' :
  update_list l f s = Some (tt, s') →
  ∃ L, lists s !! l = Some L ∧ nodes s' = nodes s ∧
       lists s' = <[l := f L]> (lists s).
Proof.
  unfold update_list. destruct (lists s !! l) as [L|]; [|done].
  intros H. inversion H; subst. eauto.
Qed.

Lemma bind_inv {A B} (m : M A) (k : A → M B) s r s' :
  bind m k s = Some (r, s') →
  ∃ x s1, m s = Some (x, s1) ∧ k x s1 = Some (r, s').
Proof. unfold bind. destruct (m s) as [[x s1]|]; [eauto|done]. Qed.

Lemma load_list_inv l s L s1 :
  load_list l s = Some (L, s1) → lists s !! l = Some L ∧ s1 = s.
Proof.
  unfold load_list. destruct (lists s !! l); [|done].
  intros H. by inversion H.
Qed.

Lemma listJoin_defined l o s s' :
  listJoin l o s = Some (tt, s') →
  is_Some (lists s !! l) ∧ is_Some (lists s !! o).
Proof.
  intros H. unfold listJoin in H.
  apply bind_inv in H as (x & s1 & H1 & H2).
  apply bind_inv in H1 as (O & s2 & HO & H1).
  apply load_list_inv in HO as [HO ->].
  split; [|eauto].
  destruct (head O) as [oh|].
  - apply bind_inv in H1 as (L & s3 & HL & _).
    apply load_list_inv in HL as [HL _]. eauto.
  - inversion H1; subst s1.
    apply bind_inv in H2 as (y & s3 & H2 & _).
    apply bind_inv in H2 as (L & s4 & HL & _).
    apply load_list_inv in HL as [HL _]. eauto.
Qed.

Lemma step_inv s c s' R :
  heap_inv s R → legal s c → run_call c s = Some (tt, s') →
  ∃ R', heap_inv s' R'.
Proof.
  intros Hinv Hlegal Hrun.
  pose proof Hinv as (Hdom & Hwf & Hdisj).
  assert (∀ l L, lists s !! l = Some L →
            ∃ xs, R !! l = Some xs ∧ dll (nodes s) L xs) as Hget.
  { intros l L HL. destruct (proj2 (Hdom l)) as [xs HR]; [eauto|].
    exists xs. split; [done|]. by eapply Hwf. }
  destruct c as [zm|zm l v|zm l v|zm l old v after|l node|l|l o|l|l m|l m|l m];
    simpl in Hlegal, Hrun.
  - (* Create *)
    apply ignore_elim in Hrun as [r Hrun].
    destruct (zm s) as [a|] eqn:Hzm.
    + pose proof (listCreate_spec zm s a Hlegal Hzm) as Hwp.
      destruct (wp_elim _ _ _ _ _ Hwp Hrun) as (_ & Hn & _ & Hl).
      exists (<[a := []]> R). eapply heap_inv_create; try done.
      by destruct (Hlegal _ _ Hzm) as (_ & _ & ? & _).
    + rewrite listCreate_fail in Hrun by done. inversion Hrun; subst. eauto.
  - (* AddHead *)
    apply ignore_elim in Hrun as [r Hrun].
    destruct (zm s) as [a|] eqn:Hzm.
    + destruct (listAddNodeHead_defined _ _ _ _ _ _ _ Hzm Hrun) as [L HL].
      destruct (Hget _ _ HL) as (xs & HR & Hd).
      pose proof (listAddNodeHead_spec zm s l L xs a v Hlegal Hzm HL Hd) as Hwp.
      destruct (wp_elim _ _ _ _ _ Hwp Hrun) as (_ & _ & Hrel).
      eexists. by eapply heap_inv_relinked.
    + rewrite listAddNodeHead_fail in Hrun by done. inversion Hrun; subst. eauto.
  - (* AddTail *)
    apply ignore_elim in Hrun as [r Hrun].
    destruct (zm s) as [a|] eqn:Hzm.
    + destruct (listAddNodeTail_defined _ _ _ _ _ _ _ Hzm Hrun) as [L HL].
      destruct (Hget _ _ HL) as (xs & HR & Hd).
      pose proof (listAddNodeTail_spec zm s l L xs a v Hlegal Hzm HL Hd) as Hwp.
      destruct (wp_elim _ _ _ _ _ Hwp Hrun) as (_ & _ & Hrel).
      eexists. by eapply heap_inv_relinked.
    + rewrite listAddNodeTail_fail in Hrun by done. inversion Hrun; subst. eauto.
  - (* Insert *)
    apply ignore_elim in Hrun as [r Hrun]. destruct Hlegal as [Hfresh Hmem].
    destruct (zm s) as [a|] eqn:Hzm.
    + pose proof Hmem as (L & ns & HL & _).
      destruct (Hget _ _ HL) as (xs & HR & Hd).
      destruct (member_split _ _ _ _ _ HL Hd Hmem) as (xs1 & w & xs2 & ->).
      destruct (decide (after = 0)) as [->|Hafter].
      * pose proof (listInsertNode_before_spec zm s l L xs1 old w xs2 a v
                      Hfresh Hzm HL Hd) as Hwp.
        destruct (wp_elim _ _ _ _ _ Hwp Hrun) as (_ & _ & Hrel).
        eexists. by eapply heap_inv_relinked.
      * pose proof (listInsertNode_after_spec zm s l L xs1 old w xs2 a v after
                      Hfresh Hzm HL Hd Hafter) as Hwp.
        destruct (wp_elim _ _ _ _ _ Hwp Hrun) as (_ & _ & Hrel).
        eexists. by eapply heap_inv_relinked.
    + rewrite listInsertNode_fail in Hrun by done. inversion Hrun; subst. eauto.
  - (* Delete *)
    pose proof Hlegal as (L & ns & HL & _).
    destruct (Hget _ _ HL) as (xs & HR & Hd).
    destruct (member_split _ _ _ _ _ HL Hd Hlegal) as (xs1 & w & xs2 & ->).
    pose proof (listDelNode_spec s l L xs1 node w xs2 HL Hd) as Hwp.
    destruct (wp_elim _ _ _ _ _ Hwp Hrun) as (_ & _ & Hrel).
    eexists. by eapply heap_inv_relinked.
  - (* Rotate *)
    destruct (load_list_defined _ _ _ _ _ Hrun) as [L HL].
    destruct (Hget _ _ HL) as (xs & HR & Hd).
    destruct (decide (length xs ≤ 1)%nat) as [Hle|Hgt].
    + pose proof (listRotate_small_spec s l L xs HL Hd Hle) as Hwp.
      pose proof (wp_elim _ _ _ _ _ Hwp Hrun) as ->. eauto.
    + destruct xs as [|[h x] xs]; [simpl in Hgt; lia|].
      destruct (snoc_cases xs) as [->|(ys & [t w] & ->)]; [simpl in Hgt; lia|].
      pose proof (listRotate_spec s l L h x ys t w HL Hd) as Hwp.
      destruct (wp_elim _ _ _ _ _ Hwp Hrun) as (_ & _ & Hrel).
      eexists. by eapply heap_inv_relinked.
  - (* Join *)
    destruct (listJoin_defined _ _ _ _ Hrun) as [[L HL] [O HO]].
    destruct (Hget _ _ HL) as (xs & HRl & Hdl).
    destruct (decide (l = o)) as [->|Hne].
    + pose proof (listJoin_self_spec s o L xs HL Hdl) as Hwp.
      destruct (wp_elim _ _ _ _ _ Hwp Hrun)
        as ((L' & HL' & Hd' & _) & Hothers & Hframe & _).
      eexists. eapply heap_inv_self_joined; eauto.
    + destruct (Hget _ _ HO) as (ys & HRo & Hdo).
      pose proof (listJoin_spec s l o L O xs ys Hne HL HO Hdl Hdo
                    (λ a, Hdisj l o xs ys a Hne HRl HRo)) as Hwp.
      pose proof (wp_elim _ _ _ _ _ Hwp Hrun) as Hj.
      eexists. by eapply heap_inv_joined.
  - (* Empty *)
    destruct (load_list_defined _ _ _ _ _ Hrun) as [L HL].
    destruct (Hget _ _ HL) as (xs & HR & Hd).
    pose proof (listEmpty_spec s l L xs HL Hd) as Hwp.
    destruct (wp_elim _ _ _ _ _ Hwp Hrun) as (_ & _ & Hrel).
    eexists. by eapply heap_inv_relinked.
  - (* SetDup *)
    apply update_list_inv in Hrun as (L & HL & Hn & Hl).
    exists R. by eapply heap_inv_header.
  - (* SetFree *)
    apply update_list_inv in Hrun as (L & HL & Hn & Hl).
    exists R. by eapply heap_inv_header.
  - (* SetMatch *)
    apply update_list_inv in Hrun as (L & HL & Hn & Hl).
    exists R. by eapply heap_inv_header.
Qed.

Lemma reachable_inv s : reachable s → ∃ R, heap_inv s R.
Proof.
  induction 1 as [|s c s' _ [R HR] Hlegal Hrun].
  - exists ∅. apply heap_inv_empty.
  - by eapply step_inv.
Qed.

(** ** From the structural invariants back to the abstract view *)

Lemma walk_cons_inv link h fuel p a ns :
  walk link h fuel p = Some (a :: ns) →
  ∃ fuel' n, fuel = S fuel' ∧ p = Some a ∧ h !! a = Some n ∧
             walk link h fuel' (link n) = Some ns.
Proof.
  destruct p as [b|]; [|by rewrite walk_None].
  destruct fuel as [|fuel]; [done|]. simpl.
  destruct (h !! b) as [n|] eqn:Hb; [|done].
  destruct (walk link h fuel (link n)) as [ms|] eqn:Hw; [|done].
  intros H. inversion H; subst. eauto 10.
Qed.

Lemma walk_nil_inv link h fuel p : walk link h fuel p = Some [] → p = None.
Proof.
  destruct p as [b|]; [|done]. destruct fuel as [|fuel]; [done|]. simpl.
  destruct (h !! b) as [n|]; [|done].
  by destruct (walk link h fuel (link n)).
Qed.

Lemma walk_det link h : ∀ ns fuel1 fuel2 p ms,
  walk link h fuel1 p = Some ns → walk link h fuel2 p = Some ms → ns = ms.
Proof.
  induction ns as [|a ns IH]; intros fuel1 fuel2 p ms H1 H2.
  - apply walk_nil_inv in H1 as ->. rewrite walk_None in H2. congruence.
  - apply walk_cons_inv in H1 as (f1 & n & -> & -> & Hn & H1).
    destruct fuel2 as [|f2]; [done|]. simpl in H2. rewrite Hn in H2.
    destruct (walk link h f2 (link n)) as [ms'|] eqn:Hw; [|done].
    inversion H2; subst ms. f_equal. by eapply IH.
Qed.

Lemma walk_suffix link h : ∀ l1 fuel p a l2,
  walk link h fuel p = Some (l1 ++ a :: l2) →
  ∃ fuel', walk link h fuel' (Some a) = Some (a :: l2).
Proof.
  induction l1 as [|b l1 IH]; intros fuel p a l2 H.
  - simpl in H. pose proof H as H'.
    apply walk_cons_inv in H' as (f & n & -> & -> & _). eauto.
  - simpl in H. apply walk_cons_inv in H as (f & n & -> & -> & _ & H).
    by eapply IH.
Qed.

Lemma walk_NoDup link h : ∀ ns fuel p,
  walk link h fuel p = Some ns → NoDup ns.
Proof.
  induction ns as [|a ns IH]; intros fuel p H; [apply NoDup_nil_2|].
  pose proof H as H'.
  apply walk_cons_inv in H' as (f & n & -> & -> & Hn & Hw).
  apply NoDup_cons. split; [|by eapply IH].
  intros Hin. apply list_elem_of_split in Hin as (l1 & l2 & ->).
  destruct (walk_suffix _ _ _ _ _ _ _ Hw) as [f' Hs].
  pose proof (walk_det _ _ _ _ _ _ _ H Hs) as Heq.
  apply (f_equal length) in Heq. simpl in Heq.
  rewrite length_app in Heq. simpl in Heq. lia.
Qed.

Lemma walk_allocated link h : ∀ ns fuel p a,
  walk link h fuel p = Some ns → a ∈ ns → is_Some (h !! a).
Proof.
  induction ns as [|b ns IH]; intros fuel p a H Hin.
  - by apply elem_of_nil in Hin.
  - apply walk_cons_inv in H as (f & n & -> & -> & Hn & Hw).
    apply elem_of_cons in Hin as [->|Hin]; [eauto|]. by eapply IH.
Qed.

Lemma walk_next_chain h : ∀ ns fuel p pp,
  walk next h fuel p = Some ns →
  (∀ n nd m, n ∈ ns → h !! n = Some nd → next nd = Some m →
     ∃ md, h !! m = Some md ∧ prev md = Some n) →
  (∀ a nd, p = Some a → h !! a = Some nd → prev nd = pp) →
  ∃ xs, xs.*1 = ns ∧ dlseg h pp xs None.
Proof.
  induction ns as [|a ns IH]; intros fuel p pp Hw Hlink Hfirst.
  - by exists [].
  - apply walk_cons_inv in Hw as (f & n & -> & -> & Hn & Hw).
    destruct (IH f (next n) (Some a) Hw) as (xs & Hxs & Hseg).
    + intros n' nd m Hin. apply Hlink. apply elem_of_cons. by right.
    + intros b nd Hb Hnb.
      destruct (Hlink a n b) as (md & Hmd & Hp);
        [apply elem_of_cons; by left|done|done|].
      congruence.
    + exists ((a, value n) :: xs). split; [by rewrite fmap_cons, Hxs|].
      split; [|done]. rewrite Hn.
      pose proof (Hfirst a _ eq_refl Hn) as Hpp.
      destruct n as [pn nn vn]; simpl in *. subst pn. f_equal. f_equal.
      destruct xs as [|[b u] xs]; simpl in *.
      * subst ns. by apply walk_nil_inv in Hw.
      * subst ns. by apply walk_cons_inv in Hw as (? & ? & _ & ? & _).
Qed.

(** A list that satisfies the structural invariants, in a memory whose
    node addresses are pointers, is well formed in the sense of [dll]. *)
Lemma structural_dll h L :
  structural_invariants h L →
  (∀ a, is_Some (h !! a) → valid_ptr a) →
  ∃ xs, dll h L xs.
Proof.
  intros (ns & Hfw & Hbw & Hlen & Hempty & _ & Hnext & _ & Hhead & _) Hptr.
  unfold forward in Hfw. unfold backward in Hbw.
  destruct (walk_next_chain h ns (size h) (head L) None Hfw Hnext)
    as (xs & Hxs & Hseg).
  { intros a nd Ha Hnd. destruct (Hhead a Ha) as (nd' & ? & ?). congruence. }
  exists xs. split.
  - rewrite Hxs. by eapply walk_NoDup.
  - rewrite Hxs. apply Forall_forall. intros a Ha. apply Hptr.
    by eapply (walk_allocated next h ns (size h) (head L)).
  - done.
  - destruct xs as [|[a v] xs]; simpl in *.
    + subst ns. by apply walk_nil_inv in Hfw.
    + subst ns. by apply walk_cons_inv in Hfw as (? & ? & _ & ? & _).
  - destruct (snoc_cases xs) as [->|(ys & [a v] & ->)].
    + simpl in Hxs. subst ns. by apply walk_nil_inv in Hbw.
    + rewrite last_or_snoc. subst ns.
      rewrite fmap_app, reverse_app in Hbw. simpl in Hbw.
      by apply walk_cons_inv in Hbw as (? & ? & _ & ? & _).
  - by rewrite Hlen, <- Hxs, length_fmap.
Qed.

(** ** Iterators *)

Lemma listNext_exhausted it s :
  iter_next it = None → listNext it s = Some ((None, it), s).
Proof. intros H. unfold listNext. by rewrite H. Qed.

Lemma listNext_node it s c n :
  iter_next it = Some c → nodes s !! c = Some n →
  listNext it s =
    Some ((Some c,
           ListIter (if direction it =? AL_START_HEAD then next n else prev n)
             (direction it)), s).
Proof.
  intros Hc Hn. unfold listNext, bind, load_node. rewrite Hc, Hn.
  by destruct (direction it =? AL_START_HEAD).
Qed.

Lemma iterate_forward xs : ∀ s p fuel,
  dlseg (nodes s) p xs None → (length xs < fuel)%nat →
  iterate fuel (ListIter (first_or None xs) AL_START_HEAD) s
    = Some (xs.*1, s).
Proof.
  induction xs as [|[a v] xs IH]; intros s p fuel Hseg Hfuel;
    (destruct fuel as [|fuel]; [simpl in Hfuel; lia|]).
  - reflexivity.
  - destruct Hseg as [Ha Hseg]. simpl in Hfuel.
    cbn [iterate first_or]. unfold bind at 1.
    erewrite listNext_node; [|reflexivity|exact Ha]. simpl.
    unfold bind. rewrite (IH s (Some a)); [done|done|lia].
Qed.

Lemma iterate_backward xs dir : ∀ s q fuel,
  dir ≠ AL_START_HEAD →
  dlseg (nodes s) None xs q → (length xs < fuel)%nat →
  iterate fuel (ListIter (last_or None xs) dir) s
    = Some (reverse xs.*1, s).
Proof.
  induction xs as [|[a v] xs IH] using rev_ind; intros s q fuel Hdir Hseg Hfuel;
    (destruct fuel as [|fuel]; [simpl in Hfuel; lia|]).
  - reflexivity.
  - apply dlseg_app in Hseg as [Hseg [Ha _]]. simpl in Hseg.
    rewrite length_app in Hfuel. simpl in Hfuel.
    cbn [iterate]. rewrite last_or_snoc. unfold bind at 1.
    erewrite listNext_node; [|reflexivity|exact Ha]. simpl.
    assert ((dir =? AL_START_HEAD) = false) as -> by lia.
    unfold bind. rewrite (IH s (Some a)); [|done|done|lia].
    by rewrite fmap_app, reverse_app.
Qed.

Lemma wp_listNext it c n s Q :
  iter_next it = Some c → nodes s !! c = Some n →
  Q (Some c,
     ListIter (if direction it =? AL_START_HEAD then next n else prev n)
       (direction it)) s →
  wp (listNext it) s Q.
Proof.
  intros Hc Hn HQ. eexists _, _. split; [|exact HQ].
  by apply listNext_node.
Qed.

Lemma freed_values_same L L' vs :
  free L' = free L → freed_values L' vs = freed_values L vs.
Proof. unfold freed_values. by intros ->. Qed.

Lemma freed_values_app L vs ws :
  freed_values L (vs ++ ws) = freed_values L vs ++ freed_values L ws.
Proof. unfold freed_values. by destruct (free L). Qed.

Lemma remaining_app del xs ys :
  remaining del (xs ++ ys) = remaining del xs ++ remaining del ys.
Proof.
  induction xs as [|[a v] xs IH]; [done|]. simpl.
  destruct (del a); [done|]. by rewrite IH.
Qed.

Lemma iterate_deleting_forward l del rest : ∀ kept s L fuel,
  lists s !! l = Some L → dll (nodes s) L (kept ++ rest) →
  (length rest < fuel)%nat →
  wp (iterate_deleting fuel l del
        (ListIter (first_or None rest) AL_START_HEAD)) s
    (λ r s', r = rest.*1 ∧
             ∃ L', lists s' !! l = Some L' ∧
                   dll (nodes s') L' (kept ++ remaining del rest)).
Proof.
  induction rest as [|[a v] rest IH]; intros kept s L fuel HL Hd Hfuel;
    (destruct fuel as [|fuel]; [simpl in Hfuel; lia|]).
  - cbn [iterate_deleting first_or]. apply wp_bind.
    eexists _, _. split; [by apply listNext_exhausted|].
    apply wp_ret. split; [done|]. eauto.
  - pose proof (dll_seg _ _ _ Hd) as Hseg.
    apply dlseg_app in Hseg as [_ [Ha _]]. simpl in Hfuel.
    cbn [iterate_deleting first_or remaining]. apply wp_bind.
    eapply wp_listNext; [done|exact Ha|]. simpl.
    apply wp_bind. destruct (del a).
    + eapply wp_mono; [by apply (listDelNode_spec s l L kept a v rest)|].
      simpl. intros _ s1 (_ & _ & (L1 & HL1 & Hd1 & _) & _).
      apply wp_bind.
      eapply wp_mono; [apply (IH kept s1 L1 fuel HL1 Hd1); lia|].
      simpl. intros r s2 (-> & Hpost). by apply wp_ret.
    + apply wp_ret. apply wp_bind.
      eapply wp_mono.
      { apply (IH (kept ++ [(a, v)]) s L fuel HL); [|lia].
        by rewrite <- app_assoc. }
      simpl. intros r s2 (-> & Hpost). apply wp_ret.
      split; [done|]. by rewrite <- app_assoc in Hpost.
Qed.

Lemma iterate_deleting_backward l del dir rest : ∀ kept s L fuel,
  dir ≠ AL_START_HEAD →
  lists s !! l = Some L → dll (nodes s) L (rest ++ kept) →
  (length rest < fuel)%nat →
  wp (iterate_deleting fuel l del (ListIter (last_or None rest) dir)) s
    (λ r s', r = reverse rest.*1 ∧
             ∃ L', lists s' !! l = Some L' ∧
                   dll (nodes s') L' (remaining del rest ++ kept)).
Proof.
  induction rest as [|[a v] rest IH] using rev_ind;
    intros kept s L fuel Hdir HL Hd Hfuel;
    (destruct fuel as [|fuel]; [simpl in Hfuel; lia|]).
  - cbn [iterate_deleting]. rewrite last_or_nil. apply wp_bind.
    eexists _, _. split; [by apply listNext_exhausted|].
    apply wp_ret. split; [done|]. eauto.
  - rewrite <- app_assoc in Hd. simpl in Hd.
    pose proof (dll_seg _ _ _ Hd) as Hseg.
    apply dlseg_app in Hseg as [_ [Ha _]].
    rewrite length_app in Hfuel. simpl in Hfuel.
    cbn [iterate_deleting]. rewrite last_or_snoc. apply wp_bind.
    eapply wp_listNext; [done|exact Ha|]. simpl.
    assert ((dir =? AL_START_HEAD) = false) as -> by lia.
    rewrite remaining_app, fmap_app, reverse_app. simpl.
    apply wp_bind. destruct (del a).
    + eapply wp_mono; [by apply (listDelNode_spec s l L rest a v kept)|].
      simpl. intros _ s1 (_ & _ & (L1 & HL1 & Hd1 & _) & _).
      apply wp_bind.
      eapply wp_mono; [apply (IH kept s1 L1 fuel Hdir HL1 Hd1); lia|].
      simpl. intros r s2 (-> & Hpost). apply wp_ret.
      split; [done|]. by rewrite app_nil_r.
    + apply wp_ret. apply wp_bind.
      eapply wp_mono; [apply (IH ((a, v) :: kept) s L fuel Hdir HL Hd); lia|].
      simpl. intros r s2 (-> & Hpost). apply wp_ret.
      split; [done|]. by rewrite <- app_assoc.
Qed.

(** ** Positional access and search *)

Lemma listIndex_loop_next xs : ∀ s p k,
  dlseg (nodes s) p xs None →
  listIndex_loop next k (first_or None xs) s = Some (xs.*1 !! k, s).
Proof.
  induction xs as [|[a v] xs IH]; intros s p k Hseg.
  - by destruct k.
  - destruct Hseg as [Ha Hseg]. destruct k as [|k]; [done|].
    cbn [listIndex_loop first_or]. unfold bind, load_node. rewrite Ha.
    cbn [next]. by rewrite (IH s (Some a) k).
Qed.

Lemma listIndex_loop_prev xs : ∀ s q k,
  dlseg (nodes s) None xs q →
  listIndex_loop prev k (last_or None xs) s = Some (reverse xs.*1 !! k, s).
Proof.
  induction xs as [|[a v] xs IH] using rev_ind; intros s q k Hseg.
  - by destruct k.
  - apply dlseg_app in Hseg as [Hseg [Ha _]]. simpl in Hseg.
    rewrite last_or_snoc, fmap_app, reverse_app. simpl.
    destruct k as [|k]; [done|].
    cbn [listIndex_loop]. unfold bind, load_node. rewrite Ha.
    cbn [prev]. by rewrite (IH s (Some a) k).
Qed.

Lemma wrap_long_neg i :
  is_long i → i < 0 → wrap_long (wrap_long (- i) - 1) = - i - 1.
Proof.
  unfold is_long, wrap_long. intros Hi Hneg.
  destruct (decide (i = - 2 ^ 63)) as [->|Hne]; [reflexivity|].
  rewrite (Z.mod_small (- i + 2 ^ 63)) by lia.
  rewrite Z.mod_small by lia. lia.
Qed.

Lemma listIndex_spec s l L xs i :
  lists s !! l = Some L → dll (nodes s) L xs → is_long i →
  listIndex l i s = Some (index_model xs.*1 i, s).
Proof.
  intros HL Hd Hi. unfold listIndex, index_model.
  destruct (i <? 0) eqn:Hneg.
  - rewrite wrap_long_neg by (done || lia).
    unfold bind, load_list. rewrite HL, (dll_tail _ _ _ Hd).
    eapply listIndex_loop_prev, Hd.
  - unfold bind, load_list. rewrite HL, (dll_head _ _ _ Hd).
    eapply listIndex_loop_next, Hd.
Qed.

Lemma listSearchKey_loop_spec l L key xs : ∀ s p fuel,
  lists s !! l = Some L →
  dlseg (nodes s) p xs None → (length xs < fuel)%nat →
  listSearchKey_loop fuel l key (ListIter (first_or None xs) AL_START_HEAD) s
    = Some (first_match (match_ L) key xs, s).
Proof.
  induction xs as [|[a v] xs IH]; intros s p fuel HL Hseg Hfuel;
    (destruct fuel as [|fuel]; [simpl in Hfuel; lia|]).
  - reflexivity.
  - destruct Hseg as [Ha Hseg]. simpl in Hfuel.
    cbn [listSearchKey_loop first_or first_match]. unfold bind at 1.
    erewrite listNext_node; [|reflexivity|exact Ha]. simpl.
    unfold bind at 1, load_list at 1. rewrite HL.
    unfold bind at 1, load_node at 1. rewrite Ha. simpl.
    unfold value_matches.
    destruct (match_ L) as [m|].
    + destruct (negb (m v key =? 0)); [done|].
      apply (IH s (Some a)); [done|done|lia].
    + destruct (key =? v); [done|].
      apply (IH s (Some a)); [done|done|lia].
Qed.

Lemma listSearchKey_spec s l L xs key fuel :
  lists s !! l = Some L → dll (nodes s) L xs → (length xs < fuel)%nat →
  listSearchKey fuel l key s = Some (first_match (match_ L) key xs, s).
Proof.
  intros HL Hd Hfuel. unfold listSearchKey, listRewind.
  unfold bind at 1 2, load_list. rewrite HL. simpl.
  rewrite (dll_head _ _ _ Hd).
  eapply listSearchKey_loop_spec; [done|apply Hd|done].
Qed.

(** ** Memories that a contract determines *)

Lemma adlist_eq L1 L2 :
  head L1 = head L2 → tail L1 = tail L2 → len L1 = len L2 →
  dup L1 = dup L2 → free L1 = free L2 → match_ L1 = match_ L2 → L1 = L2.
Proof. destruct L1, L2; simpl; congruence. Qed.

Lemma state_eq s1 s2 :
  nodes s1 = nodes s2 → lists s1 = lists s2 → iters s1 = iters s2 →
  released s1 = released s2 → s1 = s2.
Proof. destruct s1, s2; simpl; congruence. Qed.

Lemma dll_header_eq h1 h2 L1 L2 xs :
  dll h1 L1 xs → dll h2 L2 xs →
  dup L1 = dup L2 → free L1 = free L2 → match_ L1 = match_ L2 → L1 = L2.
Proof.
  intros [_ _ _ Hh1 Ht1 Hl1] [_ _ _ Hh2 Ht2 Hl2] ? ? ?.
  apply adlist_eq; congruence.
Qed.

Lemma dlseg_determined h h' xs : ∀ p q a,
  dlseg h p xs q → dlseg h' p xs q → a ∈ xs.*1 → h !! a = h' !! a.
Proof.
  induction xs as [|[b v] xs IH]; intros p q a H1 H2 Ha.
  - by apply elem_of_nil in Ha.
  - destruct H1 as [Hb1 H1], H2 as [Hb2 H2]. rewrite fmap_cons in Ha.
    apply elem_of_cons in Ha as [->|Ha]; [simpl; congruence|].
    by eapply IH.
Qed.

(** Two memories that the same operation on the same list can lead to
    hold the same nodes and the same lists. *)
Lemma relinked_functional s l L xs xs' s1 s2 :
  relinked s l L xs xs' s1 → relinked s l L xs xs' s2 →
  nodes s1 = nodes s2 ∧ lists s1 = lists s2.
Proof.
  intros ((L1 & HL1 & Hd1 & Hc1) & Ho1 & Hf1 & _ & Hg1)
         ((L2 & HL2 & Hd2 & Hc2) & Ho2 & Hf2 & _ & Hg2).
  split; apply map_eq; intros b.
  - destruct (decide (b ∈ xs'.*1)) as [Hin'|Hout'].
    + eapply dlseg_determined; [apply Hd1|apply Hd2|done].
    + destruct (decide (b ∈ xs.*1)) as [Hin|Hout].
      * by rewrite Hg1, Hg2.
      * by rewrite Hf1, Hf2.
  - destruct (decide (b = l)) as [->|Hne].
    + rewrite HL1, HL2. f_equal.
      destruct Hc1 as (? & ? & ?), Hc2 as (? & ? & ?).
      eapply dll_header_eq; eauto; congruence.
    + by rewrite Ho1, Ho2.
Qed.

Lemma relinked_refl s l L xs :
  lists s !! l = Some L → dll (nodes s) L xs → relinked s l L xs xs s.
Proof.
  intros HL Hd. split; [by exists L|]. split; [done|]. split; [done|].
  split; intros b ? ?; done.
Qed.

Lemma relinked_trans s l L xs xs1 xs2 s1 s2 L1 :
  lists s1 !! l = Some L1 →
  relinked s l L xs xs1 s1 → relinked s1 l L1 xs1 xs2 s2 →
  relinked s l L xs xs2 s2.
Proof.
  intros HL1 ((L1' & HL1' & Hd1 & Hc1) & Ho1 & Hf1 & Hn1 & Hg1)
             ((L2 & HL2 & Hd2 & Hc2) & Ho2 & Hf2 & Hn2 & Hg2).
  assert (L1' = L1) as -> by congruence.
  destruct Hc1 as (? & ? & ?), Hc2 as (? & ? & ?).
  split.
  { exists L2. split; [done|]. split; [done|]. split; [|split]; congruence. }
  split; [intros l' Hne; by rewrite Ho2, Ho1|].
  split; [|split].
  - intros b Hb Hb2. destruct (decide (b ∈ xs1.*1)) as [Hin|Hout].
    + by rewrite Hg2, Hn1.
    + by rewrite Hf2, Hf1.
  - intros b Hb2 Hb. destruct (decide (b ∈ xs1.*1)) as [Hin|Hout].
    + by apply Hn1.
    + rewrite <- Hf1 by done. by apply Hn2.
  - intros b Hb Hb2. destruct (decide (b ∈ xs1.*1)) as [Hin|Hout].
    + by apply Hg2.
    + rewrite Hf2 by done. by apply Hg1.
Qed.

(** A list that an operation leaves with the nodes it had is in the memory
    it was in, but for the log of the released values. *)
Lemma relinked_same s l L xs s' :
  lists s !! l = Some L → dll (nodes s) L xs →
  relinked s l L xs xs s' → nodes s' = nodes s ∧ lists s' = lists s.
Proof.
  intros HL Hd Hrel.
  exact (relinked_functional s l L xs xs s' s Hrel (relinked_refl s l L xs HL Hd)).
Qed.

(** ** Computations that leave the iterators alone

    No function of the module but [listGetIterator] and
    [listReleaseIterator] touches an iterator of the heap. *)

Lemma keeps_ret {A} (x : A) : keeps_iters (ret x).
Proof. intros s r s' H. by inversion H. Qed.

Lemma keeps_undefined {A} : keeps_iters (@undefined A).
Proof. intros s r s' H. done. Qed.

Lemma keeps_bind {A B} (m : M A) (k : A → M B) :
  keeps_iters m → (∀ x, keeps_iters (k x)) → keeps_iters (bind m k).
Proof.
  intros Hm Hk s r s' H. apply bind_inv in H as (x & s1 & H1 & H2).
  rewrite (Hk x _ _ _ H2). by eapply Hm.
Qed.

Lemma keeps_load_node a : keeps_iters (load_node a).
Proof.
  intros s r s'. unfold load_node. destruct (nodes s !! a); [|done].
  intros H. by inversion H.
Qed.

Lemma keeps_update_node a f : keeps_iters (update_node a f).
Proof.
  intros s r s'. unfold update_node. destruct (nodes s !! a); [|done].
  intros H. by inversion H.
Qed.

Lemma keeps_load_list l : keeps_iters (load_list l).
Proof.
  intros s r s'. unfold load_list. destruct (lists s !! l); [|done].
  intros H. by inversion H.
Qed.

Lemma keeps_update_list l f : keeps_iters (update_list l f).
Proof.
  intros s r s'. unfold update_list. destruct (lists s !! l); [|done].
  intros H. by inversion H.
Qed.

Lemma keeps_deref p : keeps_iters (deref p).
Proof. destruct p; [apply keeps_ret|apply keeps_undefined]. Qed.

Lemma keeps_zmalloc_node zm : keeps_iters (zmalloc_node zm).
Proof.
  intros s r s'. unfold zmalloc_node. destruct (zm s); intros H; by inversion H.
Qed.

Lemma keeps_zmalloc_list zm : keeps_iters (zmalloc_list zm).
Proof.
  intros s r s'. unfold zmalloc_list. destruct (zm s); intros H; by inversion H.
Qed.

Lemma keeps_zfree_node a : keeps_iters (zfree_node a).
Proof.
  intros s r s'. unfold zfree_node. destruct (nodes s !! a); [|done].
  intros H. by inversion H.
Qed.

Lemma keeps_zfree_list l : keeps_iters (zfree_list l).
Proof.
  intros s r s'. unfold zfree_list. destruct (lists s !! l); [|done].
  intros H. by inversion H.
Qed.

Lemma keeps_call_free v : keeps_iters (call_free v).
Proof. intros s r s' H. by inversion H. Qed.

Ltac keeps_step :=
  first
    [ apply keeps_ret | apply keeps_undefined
    | apply keeps_load_node | apply keeps_update_node
    | apply keeps_load_list | apply keeps_update_list
    | apply keeps_deref | apply keeps_zmalloc_node | apply keeps_zmalloc_list
    | apply keeps_zfree_node | apply keeps_zfree_list | apply keeps_call_free
    | apply keeps_bind; [|intros ?]
    | match goal with
      | |- keeps_iters (match ?x with _ => _ end) => destruct x
      | |- keeps_iters (if ?b then _ else _) => destruct b
      end ].

Ltac keeps_tac := repeat keeps_step.

Lemma keeps_free_value l v : keeps_iters (free_value l v).
Proof. unfold free_value. keeps_tac. Qed.

Lemma keeps_listCreate zm : keeps_iters (listCreate zm).
Proof. unfold listCreate. keeps_tac. Qed.

Lemma keeps_listEmpty_loop l n : ∀ current,
  keeps_iters (listEmpty_loop l n current).
Proof.
  induction n as [|n IH]; intros current; simpl; [apply keeps_ret|].
  keeps_tac; first [apply keeps_free_value | apply IH].
Qed.

Lemma keeps_listEmpty l : keeps_iters (listEmpty l).
Proof. unfold listEmpty. keeps_tac. apply keeps_listEmpty_loop. Qed.

Lemma keeps_listRelease l : keeps_iters (listRelease l).
Proof. unfold listRelease. keeps_tac. apply keeps_listEmpty_loop. Qed.

Lemma keeps_listAddNodeHead zm l v : keeps_iters (listAddNodeHead zm l v).
Proof. unfold listAddNodeHead, incr_len. keeps_tac. Qed.

Lemma keeps_listAddNodeTail zm l v : keeps_iters (listAddNodeTail zm l v).
Proof. unfold listAddNodeTail, incr_len. keeps_tac. Qed.

Lemma keeps_listInsertNode zm l old v after :
  keeps_iters (listInsertNode zm l old v after).
Proof. unfold listInsertNode, incr_len. keeps_tac. Qed.

Lemma keeps_listDelNode l node : keeps_iters (listDelNode l node).
Proof. unfold listDelNode, decr_len. keeps_tac. Qed.

Lemma keeps_listRotate l : keeps_iters (listRotate l).
Proof. unfold listRotate. keeps_tac. Qed.

Lemma keeps_listJoin l o : keeps_iters (listJoin l o).
Proof. unfold listJoin. keeps_tac. Qed.

Lemma keeps_append_values zm copy vs : keeps_iters (append_values zm copy vs).
Proof.
  induction vs as [|v vs IH]; simpl; [apply keeps_ret|].
  apply keeps_bind; [apply keeps_listAddNodeTail|].
  intros [r|]; [apply IH|apply keeps_ret].
Qed.

(** ** Iterators of the heap *)

Lemma listGetIterator_seated zm l dir s L a :
  lists s !! l = Some L → zm s = Some a →
  listGetIterator zm l dir s =
    Some (Some a,
          with_iters
            (<[a := ListIter (if dir =? AL_START_HEAD then head L else tail L)
                      dir]> (iters s)) s).
Proof.
  intros HL Hzm. unfold listGetIterator, bind, zmalloc_iter. rewrite Hzm.
  destruct (dir =? AL_START_HEAD); unfold bind, load_list, update_iter;
    simpl; rewrite HL; simpl; rewrite !lookup_insert_eq; simpl;
    rewrite lookup_insert_eq; unfold with_iters, ret; simpl;
    by rewrite !insert_insert_eq.
Qed.

Lemma listGetIterator_fail zm l dir s :
  zm s = None → listGetIterator zm l dir s = Some (None, s).
Proof.
  intros Hzm. unfold listGetIterator, bind, zmalloc_iter. by rewrite Hzm.
Qed.

Lemma listReleaseIterator_freed p it s :
  iters s !! p = Some it →
  listReleaseIterator p s = Some (tt, with_iters (delete p (iters s)) s).
Proof.
  intros Hp. unfold listReleaseIterator, zfree_iter. by rewrite Hp.
Qed.

(** ** Duplication *)

Lemma not_elem_of_snoc_fst (ys : list (Z * Z)) a w b :
  b ∉ ys.*1 → b ≠ a → b ∉ (ys ++ [(a, w)]).*1.
Proof.
  intros H1 H2. rewrite fmap_app. apply not_elem_of_app. split; [done|].
  simpl. apply not_elem_of_cons. split; [done|]. apply not_elem_of_nil.
Qed.

Lemma freed_values_nil L : freed_values L [] = [].
Proof. unfold freed_values. by destruct (free L). Qed.

(** What adding values at the tail of a list does, when every allocation
    succeeds. *)
Lemma append_values_spec zm copy : ∀ vs s C ys sk,
  fresh_allocator zm → lists s !! copy = Some C → dll (nodes s) C ys →
  append_values zm copy vs s = Some (true, sk) →
  ∃ zs, zs.*2 = vs ∧ relinked s copy C ys (ys ++ zs) sk ∧
        released sk = released s.
Proof.
  induction vs as [|v vs IH]; intros s C ys sk Hfresh HC Hd Hrun.
  - inversion Hrun; subst sk. exists []. split; [done|]. split; [|done].
    rewrite app_nil_r. by apply relinked_refl.
  - simpl in Hrun. apply bind_inv in Hrun as (r & s1 & H1 & H2).
    destruct (zm s) as [a|] eqn:Hzm.
    + destruct (listAddNodeTail_spec zm s copy C ys a v Hfresh Hzm HC Hd)
        as (r' & s1' & Hrun1 & -> & Hr1 & Hrel1).
      rewrite Hrun1 in H1. inversion H1; subst r s1'.
      pose proof Hrel1 as ((C1 & HC1 & Hd1 & _) & _).
      destruct (IH s1 C1 (ys ++ [(a, v)]) sk Hfresh HC1 Hd1 H2)
        as (zs & Hzs & Hrel2 & Hr2).
      exists ((a, v) :: zs). split; [by rewrite fmap_cons, Hzs|].
      split; [|congruence].
      rewrite <- app_assoc in Hrel2. simpl in Hrel2.
      by eapply relinked_trans.
    + rewrite listAddNodeTail_fail in H1 by done.
      inversion H1; subst r s1. by inversion H2.
Qed.

(** One turn of the loop of [listDup]. *)
Lemma listDup_loop_end fuel zm copy it s it' :
  listNext it s = Some ((None, it'), s) →
  listDup_loop (S fuel) zm copy it s = Some (Some copy, s).
Proof. intros H. simpl. unfold bind. by rewrite H. Qed.

Lemma listDup_loop_step fuel zm copy it s a it' C n :
  listNext it s = Some ((Some a, it'), s) →
  lists s !! copy = Some C → nodes s !! a = Some n →
  listDup_loop (S fuel) zm copy it s =
    if dup_fails (dup C) (value n)
    then (listRelease copy ;;; ret None) s
    else match listAddNodeTail zm copy (dup_value (dup C) (value n)) s with
         | Some (Some _, s1) => listDup_loop fuel zm copy it' s1
         | Some (None, s1) => (listRelease copy ;;; ret None) s1
         | None => None
         end.
Proof.
  intros Hnext HC Hn. cbn [listDup_loop]. unfold bind at 1. rewrite Hnext.
  unfold bind at 1, load_list. rewrite HC.
  unfold bind at 1, load_node. rewrite Hn.
  unfold dup_fails, dup_value. destruct (dup C) as [d|].
  - destruct (d (value n) =? 0); [done|]. unfold bind at 1.
    by destruct (listAddNodeTail zm copy (d (value n)) s) as [[[?|] ?]|].
  - unfold bind at 1.
    by destruct (listAddNodeTail zm copy (value n) s) as [[[?|] ?]|].
Qed.

(** The loop of [listDup] copies the values up to the first one on which
    the callback fails or for which the allocation fails; it returns the
    copy when there is no such value, and tears the copy down when there
    is one. *)
Lemma listDup_loop_run zm orig copy O : ∀ todo fuel s C ys p,
  fresh_allocator zm → copy ≠ orig →
  lists s !! orig = Some O → lists s !! copy = Some C →
  dlseg (nodes s) p todo None → dll (nodes s) C ys →
  (∀ a, a ∈ todo.*1 → a ∉ ys.*1) →
  (length todo < fuel)%nat →
  ∃ k sk, copied zm copy (dup C) todo.*2 k s sk ∧
    match todo.*2 !! k with
    | None =>
        listDup_loop fuel zm copy (ListIter (first_or None todo) AL_START_HEAD) s
          = Some (Some copy, sk)
    | Some v =>
        (dup_fails (dup C) v = true ∨ zm sk = None) ∧
        listDup_loop fuel zm copy (ListIter (first_or None todo) AL_START_HEAD) s
          = (listRelease copy ;;; ret None) sk
    end.
Proof.
  induction todo as [|[a v] todo IH];
    intros fuel s C ys p Hfresh Hne HO HC Hseg Hd Hdisj Hfuel;
    (destruct fuel as [|fuel]; [simpl in Hfuel; lia|]).
  - exists 0%nat, s. split; [by split; [|split; [apply Forall_nil_2|]]|].
    simpl. by apply listDup_loop_end with (it' := ListIter None AL_START_HEAD).
  - destruct Hseg as [Ha Hseg]. simpl in Hfuel.
    pose proof (listNext_node (ListIter (Some a) AL_START_HEAD) s a _
                  eq_refl Ha) as Hnext.
    simpl in Hnext.
    pose proof (listDup_loop_step fuel zm copy _ s a _ C _ Hnext HC Ha) as Hstep.
    cbn [value] in Hstep. cbn [first_or]. rewrite fmap_cons. cbn [snd].
    destruct (dup_fails (dup C) v) eqn:Hf.
    { (* the callback fails on [v] *)
      exists 0%nat, s. split.
      - split; [simpl; lia|]. split; [apply Forall_nil_2|done].
      - change ((v :: todo.*2) !! 0%nat) with (Some v).
        split; [by left|by rewrite Hstep]. }
    destruct (zm s) as [a'|] eqn:Hzm.
    2: { (* no memory for the node *)
      exists 0%nat, s. split.
      - split; [simpl; lia|]. split; [apply Forall_nil_2|done].
      - change ((v :: todo.*2) !! 0%nat) with (Some v).
        split; [by right|].
        by rewrite Hstep, listAddNodeTail_fail. }
    (* the value is added to the copy *)
    set (w := dup_value (dup C) v) in *.
    destruct (listAddNodeTail_spec zm s copy C ys a' w Hfresh Hzm HC Hd)
      as (r & s1 & Hrun1 & -> & Hr1 & Hrel).
    rewrite Hrun1 in Hstep.
    destruct (Hfresh _ _ Hzm) as (Hva' & Hna' & _).
    destruct Hrel as ((C1 & HC1 & Hd1 & Hcd & Hcf & Hcm) & Hothers & Hframe
                      & Hnew & _).
    assert (a' ∉ ys.*1) as Ha'ys.
    { intros Hin. destruct (dll_allocated _ _ _ _ Hd Hin). congruence. }
    assert (∀ b, b ∉ ys.*1 → b ≠ a' → nodes s1 !! b = nodes s !! b) as Hframe'.
    { intros b Hb1 Hb2. apply Hframe; [done|]. by apply not_elem_of_snoc_fst. }
    assert (∀ b, b ∈ todo.*1 → (b ∉ ys.*1) ∧ b ≠ a') as Htodo.
    { intros b Hb. split.
      - apply Hdisj. rewrite fmap_cons. apply elem_of_cons. by right.
      - intros ->. destruct (dlseg_allocated _ _ _ _ _ Hseg Hb). congruence. }
    destruct (IH fuel s1 C1 (ys ++ [(a', w)]) (Some a)) as (k & sk & Hcop & Hres);
      try done.
    { rewrite Hothers by done. done. }
    { eapply dlseg_frame; [|exact Hseg].
      intros b Hb. destruct (Htodo b Hb). by apply Hframe'. }
    { intros b Hb. destruct (Htodo b Hb). by apply not_elem_of_snoc_fst. }
    { lia. }
    rewrite Hcd in Hcop, Hres.
    destruct Hcop as (Hk & Hall & Happ).
    exists (S k), sk. split.
    + split; [simpl; lia|]. split.
      * simpl. by apply Forall_cons.
      * simpl. unfold bind. fold w. by rewrite Hrun1.
    + change ((v :: todo.*2) !! S k) with (todo.*2 !! k).
      by rewrite Hstep.
Qed.

(** The contract of [listDup]. *)
Lemma listDup_spec zm s orig O xs fuel :
  fresh_allocator zm → lists s !! orig = Some O → dll (nodes s) O xs →
  (length xs < fuel)%nat →
  wp (listDup fuel zm orig) s (dup_post zm O orig xs s).
Proof.
  intros Hfresh HO Hd Hfuel. unfold listDup. apply wp_bind.
  destruct (zm s) as [c|] eqn:Hzm.
  - (* the header of the copy is allocated *)
    destruct (Hfresh _ _ Hzm) as (_ & _ & Hc & _).
    assert (c ≠ orig) as Hne by congruence.
    unfold listCreate. apply wp_bind. eexists _, _. split.
    { unfold zmalloc_list. rewrite Hzm. reflexivity. }
    unfold with_lists; simpl. wp_run. unfold listRewind. wp_run.
    rewrite !insert_insert_eq.
    set (C0 := AdList None None 0 (dup O) (free O) (match_ O)).
    match goal with
    | |- wp ?m _ ?Q => change (wp m (dup_start O c s) Q)
    end.
    set (s0 := dup_start O c s).
    assert (lists s0 !! orig = Some O) as HO0
      by (unfold s0, dup_start; simpl; by rewrite lookup_insert_ne).
    assert (lists s0 !! c = Some C0) as HC0
      by (unfold s0, dup_start; simpl; by rewrite lookup_insert_eq).
    pose proof Hd as [_ _ Hseg Hh _ _]. rewrite Hh.
    destruct (listDup_loop_run zm orig c O xs fuel s0 C0 [] None)
      as (k & sk & Hcop & Hres); try done.
    { by apply dll_nil. }
    { intros a _. apply not_elem_of_nil. }
    change (dup C0) with (dup O) in Hcop, Hres.
    pose proof Hcop as (Hk & Hall & Happ).
    destruct (append_values_spec zm c _ s0 C0 [] sk Hfresh HC0
                ltac:(by apply dll_nil) Happ)
      as (zs & Hzs & ((C' & HC' & Hd' & Hcd & Hcf & Hcm) & Hothers & Hframe
                      & Hnew & _) & Hrsk).
    simpl in Hd', Hframe, Hnew.
    pose proof (keeps_append_values zm c _ _ _ _ Happ) as Hisk.
    assert (∀ b, b ∈ zs.*1 → nodes s !! b = None) as Hnew'.
    { intros b Hb. apply (Hnew b Hb). apply not_elem_of_nil. }
    assert (∀ b, b ∉ zs.*1 → nodes sk !! b = nodes s !! b) as Hframe'.
    { intros b Hb. apply (Hframe b); [apply not_elem_of_nil|done]. }
    assert (∀ b, is_Some (nodes s !! b) → nodes sk !! b = nodes s !! b)
      as Hkeep.
    { intros b Hb. apply Hframe'. intros Hin.
      rewrite (Hnew' b Hin) in Hb. by destruct Hb. }
    assert (∀ l', l' ≠ c → lists sk !! l' = lists s !! l') as Hothers'.
    { intros l' Hl'. rewrite Hothers by done.
      unfold s0, dup_start. simpl. by rewrite lookup_insert_ne. }
    destruct (xs.*2 !! k) as [v|] eqn:Hlook.
    + (* the copy stops at [v] and is torn down *)
      destruct Hres as [Hcause Hloop].
      destruct (listRelease_spec sk c C' zs HC' Hd')
        as ([] & s2 & Hrun2 & Hr2 & Hl2 & Hn2).
      assert ((listRelease c ;;; ret None) sk = Some (@None Z, s2)) as Htear
        by (unfold bind; by rewrite Hrun2).
      exists None, s2. split; [by rewrite Hloop|].
      assert (nodes s2 = nodes s) as Hnodes.
      { apply map_eq. intros b. rewrite Hn2.
        destruct (decide (b ∈ zs.*1)) as [Hin|Hout];
          [by rewrite Hnew'|by apply Hframe']. }
      assert (lists s2 = lists s) as Hlists.
      { apply map_eq. intros l'. rewrite Hl2.
        destruct (decide (l' = c)) as [->|Hl'].
        - by rewrite lookup_delete_eq.
        - rewrite lookup_delete_ne by done. by apply Hothers'. }
      unfold dup_post. rewrite Hzm. split.
      { rewrite Hnodes, Hlists. split; [done|]. by split. }
      exists k, sk. split; [done|]. rewrite Hlook.
      split; [done|]. split; [done|]. split; [done|]. split; [done|].
      split.
      { rewrite (keeps_listRelease c _ _ _ Hrun2). done. }
      rewrite Hr2, Hrsk, Hzs. unfold freed_values. by rewrite Hcf.
    + (* every value is copied *)
      exists (Some c), sk. split; [done|].
      assert (k = length xs) as ->.
      { apply lookup_ge_None in Hlook. rewrite length_fmap in *. lia. }
      rewrite take_ge in Hzs by (rewrite length_fmap; lia).
      unfold dup_post. rewrite Hzm. split.
      { split; [by rewrite Hothers'|]. split; [|done].
        eapply dll_frame; [|exact Hd]. intros b Hb. apply Hkeep.
        by eapply dll_allocated. }
      exists (length xs), sk. split; [done|]. rewrite Hlook.
      split; [done|]. split; [done|]. split; [done|]. split; [done|].
      split; [done|]. split; [done|].
      exists C', zs. split; [done|]. split; [done|].
      split; [done|]. split; [done|]. split; [done|]. split.
      { rewrite (dll_len _ _ _ Hd'), (dll_len _ _ _ Hd).
        rewrite <- (length_fmap snd zs), Hzs, !length_fmap. done. }
      split; [done|]. split; [done|].
      intros b Hb Hout. rewrite Hframe' by done. done.
  - (* no memory for the header *)
    eexists _, _. split; [by apply listCreate_fail|]. apply wp_ret.
    unfold dup_post. rewrite Hzm. split; [by split|done].
Qed.

Lemma append_values_app zm copy vs1 vs2 : ∀ s,
  append_values zm copy (vs1 ++ vs2) s =
    match append_values zm copy vs1 s with
    | Some (true, s1) => append_values zm copy vs2 s1
    | other => other
    end.
Proof.
  induction vs1 as [|v vs1 IH]; intros s; [done|].
  simpl. unfold bind.
  destruct (listAddNodeTail zm copy v s) as [[[?|] s1]|]; [apply IH|done|done].
Qed.

(** When every value can be copied, the copy does not stop before the
    end. *)
Lemma copied_all_no_stop zm c d vs k s0 sk sk' v :
  copied zm c d vs (length vs) s0 sk' → copied zm c d vs k s0 sk →
  vs !! k = Some v → ¬ (dup_fails d v = true ∨ zm sk = None).
Proof.
  intros (_ & Hall & Hfull) (_ & _ & Hk) Hv.
  rewrite take_ge in Hall, Hfull by lia.
  intros [Hf|Hzm].
  - rewrite Forall_forall in Hall.
    rewrite (Hall v) in Hf; [done|]. by eapply list_elem_of_lookup_2.
  - rewrite <- (take_drop_middle vs k v Hv) in Hfull.
    rewrite fmap_app, fmap_cons, append_values_app, Hk in Hfull.
    simpl in Hfull. unfold bind in Hfull.
    rewrite listAddNodeTail_fail in Hfull by done. by inversion Hfull.
Qed.

(** ** Facts on the contracts *)

Lemma relinked_allocated s l L xs xs' s' :
  dll (nodes s) L xs → relinked s l L xs xs' s' →
  ∀ b, is_Some (nodes s' !! b) ↔
       b ∈ xs'.*1 ∨ ((b ∉ xs.*1) ∧ is_Some (nodes s !! b)).
Proof.
  intros Hd ((L' & HL' & Hd' & _) & _ & Hframe & Hnew & Hgone) b.
  destruct (decide (b ∈ xs'.*1)) as [Hin'|Hnin'].
  { split; [by left|]. intros _. by eapply dll_allocated. }
  destruct (decide (b ∈ xs.*1)) as [Hin|Hnin].
  { rewrite (Hgone b Hin Hnin'). split; [by intros []|].
    intros [?|[? _]]; done. }
  rewrite (Hframe b Hnin Hnin'). split; [by right|].
  intros [?|[_ ?]]; done.
Qed.

Lemma relinked_len s l L xs xs' s' L' :
  dll (nodes s) L xs → relinked s l L xs xs' s' → lists s' !! l = Some L' →
  len L' = len L + (Z.of_nat (length xs') - Z.of_nat (length xs)).
Proof.
  intros Hd ((L1 & HL1 & Hd' & _) & _) HL'.
  assert (L1 = L') as -> by congruence.
  rewrite (dll_len _ _ _ Hd), (dll_len _ _ _ Hd'). lia.
Qed.

Lemma inserted_intro s l L xs xs' a s' :
  dll (nodes s) L xs → relinked s l L xs xs' s' →
  released s' = released s →
  (∀ b, b ∈ xs'.*1 ↔ b = a ∨ b ∈ xs.*1) →
  length xs' = S (length xs) →
  inserted s l L xs xs' a s'.
Proof.
  intros Hd Hrel Hr Hmem Hlen. split; [done|]. split; [done|]. split.
  - pose proof Hrel as ((L' & HL' & _) & _). exists L'. split; [done|].
    rewrite (relinked_len _ _ _ _ _ _ _ Hd Hrel HL'), Hlen. lia.
  - intros b. rewrite (relinked_allocated _ _ _ _ _ _ Hd Hrel), Hmem.
    split.
    + intros [[->|Hin]|[_ ?]]; [by left| |by right].
      right. by eapply dll_allocated.
    + intros [->|Hal]; [left; by left|].
      destruct (decide (b ∈ xs.*1)); [left; by right|by right].
Qed.

Lemma removed_intro s l L xs xs' b w s' :
  dll (nodes s) L xs → relinked s l L xs xs' s' →
  released s' = released s ++ freed_values L [w] →
  (∀ c, c ∈ xs.*1 ↔ c = b ∨ c ∈ xs'.*1) → b ∉ xs'.*1 →
  length xs = S (length xs') →
  removed s l L xs xs' b w s'.
Proof.
  intros Hd Hrel Hr Hmem Hb Hlen.
  pose proof (relinked_allocated _ _ _ _ _ _ Hd Hrel) as Hal.
  split; [done|]. split; [done|]. split; [|split].
  - pose proof Hrel as ((L' & HL' & _) & _). exists L'. split; [done|].
    rewrite (relinked_len _ _ _ _ _ _ _ Hd Hrel HL'), Hlen. lia.
  - destruct (nodes s' !! b) eqn:Hnb; [|done]. exfalso.
    destruct (proj1 (Hal b)) as [?|[Hnin _]]; [eauto|done|].
    apply Hnin, Hmem. by left.
  - intros c Hc. rewrite Hal. split.
    + intros [Hin|[_ ?]]; [|done]. eapply dll_allocated; [done|].
      apply Hmem. by right.
    + intros Hs. destruct (decide (c ∈ xs'.*1)); [by left|]. right.
      split; [|done]. intros [->|?]%Hmem; done.
Qed.

Lemma rotated_intro s l L xs xs' s' :
  dll (nodes s) L xs → relinked s l L xs xs' s' →
  released s' = released s →
  (∀ c, c ∈ xs'.*1 ↔ c ∈ xs.*1) → length xs' = length xs →
  rotated s l L xs xs' s'.
Proof.
  intros Hd Hrel Hr Hmem Hlen.
  split; [done|]. split; [done|]. split.
  - pose proof Hrel as ((L' & HL' & _) & _). exists L'. split; [done|].
    rewrite (relinked_len _ _ _ _ _ _ _ Hd Hrel HL'), Hlen. lia.
  - intros b. rewrite (relinked_allocated _ _ _ _ _ _ Hd Hrel), Hmem.
    split.
    + intros [Hin|[_ ?]]; [|done]. by eapply dll_allocated.
    + intros Hal. destruct (decide (b ∈ xs.*1)); [by left|by right].
Qed.

Lemma dll_singleton h L a v :
  dll h L [(a, v)] →
  head L = Some a ∧ tail L = Some a ∧ h !! a = Some (ListNode None None v).
Proof. intros [_ _ [Ha _] Hh Ht _]. done. Qed.

(** ** The allocators of the examples *)

Lemma foldr_max_ge (ks : list Z) k : k ∈ ks → k <= foldr Z.max 0 ks.
Proof.
  induction ks as [|k' ks IH]; intros Hin.
  - by apply elem_of_nil in Hin.
  - simpl. apply elem_of_cons in Hin as [->|Hin]; [lia|].
    specialize (IH Hin). lia.
Qed.

Lemma top_addr_ge {A} (m : gmap Z A) k x : m !! k = Some x → k <= top_addr m.
Proof.
  intros H. apply foldr_max_ge. apply list_elem_of_fmap.
  exists (k, x). split; [done|]. by apply elem_of_map_to_list.
Qed.

Lemma top_addr_nonneg {A} (m : gmap Z A) : 0 <= top_addr m.
Proof.
  unfold top_addr. induction ((map_to_list m).*1) as [|k ks IH]; simpl; lia.
Qed.

Lemma bump_fresh limit : fresh_allocator (bump limit).
Proof.
  intros s a. unfold bump. case_decide as Hc; [|done].
  intros Ha. inversion Ha; subst a. destruct Hc as [_ Hlt].
  pose proof (top_addr_nonneg (nodes s)). pose proof (top_addr_nonneg (lists s)).
  pose proof (top_addr_nonneg (iters s)).
  split; [unfold valid_ptr; lia|]. split; [|split].
  - destruct (nodes s !! _) eqn:Hn; [|done].
    apply top_addr_ge in Hn. lia.
  - destruct (lists s !! _) eqn:Hn; [|done].
    apply top_addr_ge in Hn. lia.
  - destruct (iters s !! _) eqn:Hn; [|done].
    apply top_addr_ge in Hn. lia.
Qed.

Lemma no_memory_fresh : fresh_allocator no_memory.
Proof. intros s a H. discriminate. Qed.

(** ** The memories of the examples *)

Lemma run_calls_reachable cs : ∀ s s',
  reachable s → all_legal cs s → run_calls cs s = Some (tt, s') →
  reachable s'.
Proof.
  induction cs as [|c cs IH]; intros s s' Hreach Hlegal Hrun.
  - unfold run_calls, ret in Hrun. simpl in Hrun. by inversion Hrun; subst.
  - destruct Hlegal as [Hc Hrest]. simpl in Hrun.
    apply bind_inv in Hrun as ([] & s1 & H1 & H2).
    eapply (IH s1); [|by apply Hrest|done].
    by eapply reachable_step.
Qed.

Lemma final_state_reachable cs :
  all_legal cs empty_state → is_Some (run_calls cs empty_state) →
  reachable (final_state cs).
Proof.
  intros Hlegal [[[] s] Hrun]. unfold final_state. rewrite Hrun.
  eapply run_calls_reachable; [apply reachable_init|done|done].
Qed.

Lemma demo_reachable : reachable demo_state.
Proof.
  apply final_state_reachable.
  - repeat (split; [apply bump_fresh|intros ? _]). done.
  - eexists. vm_compute. reflexivity.
Qed.

Lemma pair_reachable : reachable pair_state.
Proof.
  apply final_state_reachable.
  - repeat (split; [apply bump_fresh|intros ? _]). done.
  - eexists. vm_compute. reflexivity.
Qed.

Ltac concrete_dll :=
  split;
    [ by apply (bool_decide_unpack _); vm_compute
    | repeat (constructor; [unfold valid_ptr; simpl; lia|]); constructor
    | simpl; repeat split; by vm_compute
    | reflexivity | reflexivity | reflexivity ].

Lemma demo_lookup : lists demo_state !! 1 = Some demo_list.
Proof. by vm_compute. Qed.

Lemma demo_dll : dll (nodes demo_state) demo_list demo_nodes.
Proof. concrete_dll. Qed.

Lemma pair_lookup_first : lists pair_state !! 1 = Some pair_first.
Proof. by vm_compute. Qed.

Lemma pair_lookup_second : lists pair_state !! 4 = Some pair_second.
Proof. by vm_compute. Qed.

Lemma pair_dll_first : dll (nodes pair_state) pair_first [(2, 1); (3, 2)].
Proof. concrete_dll. Qed.

Lemma pair_dll_second : dll (nodes pair_state) pair_second [(5, 3); (6, 4)].
Proof. concrete_dll. Qed.

(** ** Lists of reachable memories

    The properties below are stated for a well-formed list, and for join
    for two lists without a common node.  Every list of a reachable
    memory is such a list. *)

Lemma reachable_dll s l L :
  reachable s → lists s !! l = Some L → ∃ xs, dll (nodes s) L xs.
Proof.
  intros Hreach HL.
  destruct (reachable_inv s Hreach) as (R & Hdom & Hwf & _).
  destruct (proj2 (Hdom l)) as [xs HR]; [eauto|].
  exists xs. by eapply Hwf.
Qed.

Lemma dll_unique h L xs ys : dll h L xs → dll h L ys → xs.*1 = ys.*1.
Proof.
  intros Hx Hy. apply dll_forward in Hx, Hy. congruence.
Qed.

Lemma reachable_disjoint s l o L O xs ys :
  reachable s → l ≠ o →
  lists s !! l = Some L → lists s !! o = Some O →
  dll (nodes s) L xs → dll (nodes s) O ys →
  ∀ a, a ∈ xs.*1 → a ∉ ys.*1.
Proof.
  intros Hreach Hne HL HO Hx Hy.
  destruct (reachable_inv s Hreach) as (R & Hdom & Hwf & Hdisj).
  destruct (proj2 (Hdom l)) as [xs' HRl]; [eauto|].
  destruct (proj2 (Hdom o)) as [ys' HRo]; [eauto|].
  rewrite (dll_unique _ _ _ _ Hx (Hwf _ _ _ HL HRl)).
  rewrite (dll_unique _ _ _ _ Hy (Hwf _ _ _ HO HRo)).
  intros a. by eapply Hdisj.
Qed.

(** ** The scenarios of the specification *)

(** Start empty; addTail 1, 2, 3 gives [1; 2; 3]; deleting the node that
    holds 2 gives [1; 3]; rotate gives [3; 1]; addHead 0 gives [0; 3; 1];
    index -1 is the node that holds 1 (the node at address 2). *)
Example spec_scenario_1 :
  fst <$> scenario_1 empty_state
    = Some ([1; 2; 3], [1; 3], [3; 1], [0; 3; 1], Some 2).
Proof. by vm_compute. Qed.

(** A = [1; 2] and B = [3; 4]; after join(A, B), A is [1; 2; 3; 4] with
    length 4, and B has length 0 and a null head. *)
Example spec_scenario_2 :
  fst <$> scenario_2 empty_state = Some ([1; 2; 3; 4], 4, 0, None).
Proof. by vm_compute. Qed.

(** Duplicating the list 10, 20, 30 without a dup callback: the copy, at
    address 5, holds the same values. *)
Example dup_shares_values :
  fst <$> (listDup 4 (bump 8) 1 ;;; list_values 5) demo_state
    = Some [10; 20; 30].
Proof. by vm_compute. Qed.

(** The dup callback fails on the third value: the two values already
    placed in the copy are released, NULL is returned, and the memory
    holds the nodes and the lists that it held before. *)
Example dup_callback_failure :
  dup_outcome (listDup 4 (bump 8) 1 guarded_state)
    = Some (None, [110; 120], map_to_list (nodes guarded_state), [1]).
Proof. by vm_compute. Qed.

(** The allocator fails on the second node of the copy: same teardown, and
    nothing is released since no free callback is installed. *)
Example dup_allocation_failure :
  dup_outcome (listDup 4 (bump 6) 1 demo_state)
    = Some (None, [], map_to_list (nodes demo_state), [1]).
Proof. by vm_compute. Qed.

(** ** The properties of the specification *)

(** C1.  In every memory reached from the empty one by a sequence of calls
    of create, addHead, addTail, insert, delete, rotate, join and empty
    (and of the three callback setters), every list satisfies the
    structural invariants: the walk along next from the head and the walk
    along prev from the tail end, they meet the same nodes in reverse
    order of each other, their common length is the stored length; head,
    tail and length are null together; the links of neighbours agree;
    the head has no predecessor and the tail no successor. *)
Theorem reachable_structural_invariants s l L :
  reachable s → lists s !! l = Some L →
  structural_invariants (nodes s) L.
Proof.
  intros Hreach HL.
  destruct (reachable_inv s Hreach) as (R & Hdom & Hwf & _).
  destruct (proj2 (Hdom l)) as [xs HR]; [eauto|].
  eapply dll_structural. by eapply Hwf.
Qed.

Lemma reachable_structural_invariants_witness :
  reachable demo_state ∧ lists demo_state !! 1 = Some demo_list ∧
  structural_invariants (nodes demo_state) demo_list.
Proof.
  split; [exact demo_reachable|]. split; [exact demo_lookup|].
  exact (reachable_structural_invariants demo_state 1 demo_list
           demo_reachable demo_lookup).
Defined.

(** C2.  On a well-formed list, when the allocator provides the block [a]:
    addHead returns the list it was given and links [a], holding the
    value, in front of the nodes; addTail links it behind them; insert
    links it right after the anchor when the flag is set and right before
    it otherwise.  In each case exactly one node is allocated, the length
    goes up by one, and, the new sequence being well formed, the new node
    is the head when it comes first and the tail when it comes last, with
    null links on a list that was empty.  When the allocator fails, each
    of the three operations returns NULL and the memory is unchanged. *)
Theorem insertion_contract zm s l L xs v :
  fresh_allocator zm → lists s !! l = Some L → dll (nodes s) L xs →
  match zm s with
  | Some a =>
      wp (listAddNodeHead zm l v) s (λ r s',
        r = Some l ∧ inserted s l L xs ((a, v) :: xs) a s' ∧
        (xs = [] → ∃ L', lists s' !! l = Some L' ∧
           head L' = Some a ∧ tail L' = Some a ∧
           nodes s' !! a = Some (ListNode None None v))) ∧
      wp (listAddNodeTail zm l v) s (λ r s',
        r = Some l ∧ inserted s l L xs (xs ++ [(a, v)]) a s' ∧
        (xs = [] → ∃ L', lists s' !! l = Some L' ∧
           head L' = Some a ∧ tail L' = Some a ∧
           nodes s' !! a = Some (ListNode None None v))) ∧
      ∀ xs1 anchor w xs2 after, xs = xs1 ++ (anchor, w) :: xs2 →
        wp (listInsertNode zm l anchor v after) s (λ r s',
          r = Some l ∧
          inserted s l L xs
            (if after =? 0
             then xs1 ++ (a, v) :: (anchor, w) :: xs2
             else xs1 ++ (anchor, w) :: (a, v) :: xs2) a s')
  | None =>
      listAddNodeHead zm l v s = Some (None, s) ∧
      listAddNodeTail zm l v s = Some (None, s) ∧
      ∀ anchor after, listInsertNode zm l anchor v after s = Some (None, s)
  end.
Proof.
  intros Hfresh HL Hd. destruct (zm s) as [a|] eqn:Hzm.
  - split; [|split].
    + eapply wp_mono; [by apply listAddNodeHead_spec|].
      simpl. intros r s' (-> & Hr & Hrel). split; [done|]. split.
      * apply inserted_intro; try done.
        intros b. rewrite fmap_cons. apply elem_of_cons.
      * intros ->. destruct Hrel as ((L' & HL' & Hd' & _) & _).
        exists L'. split; [done|]. by apply dll_singleton.
    + eapply wp_mono; [by apply listAddNodeTail_spec|].
      simpl. intros r s' (-> & Hr & Hrel). split; [done|]. split.
      * apply inserted_intro; try done.
        -- intros b. rewrite fmap_app, elem_of_app. simpl.
           rewrite list_elem_of_singleton. tauto.
        -- rewrite length_app. simpl. lia.
      * intros ->. destruct Hrel as ((L' & HL' & Hd' & _) & _).
        exists L'. split; [done|]. by apply dll_singleton.
    + intros xs1 anchor w xs2 after ->.
      destruct (after =? 0) eqn:Hafter.
      * assert (after = 0) as -> by lia.
        eapply wp_mono; [by apply listInsertNode_before_spec|].
        simpl. intros r s' (-> & Hr & Hrel). split; [done|].
        apply inserted_intro; try done.
        -- intros b. rewrite !fmap_app, !elem_of_app, !fmap_cons.
           rewrite !elem_of_cons. tauto.
        -- rewrite !length_app. simpl. lia.
      * eapply wp_mono; [apply listInsertNode_after_spec; try done; lia|].
        simpl. intros r s' (-> & Hr & Hrel). split; [done|].
        apply inserted_intro; try done.
        -- intros b. rewrite !fmap_app, !elem_of_app, !fmap_cons.
           rewrite !elem_of_cons. tauto.
        -- rewrite !length_app. simpl. lia.
  - split; [by apply listAddNodeHead_fail|].
    split; [by apply listAddNodeTail_fail|].
    intros anchor after. by apply listInsertNode_fail.
Qed.

Lemma insertion_contract_witness :
  fresh_allocator (bump 8) ∧ lists demo_state !! 1 = Some demo_list ∧
  dll (nodes demo_state) demo_list demo_nodes ∧
  wp (listInsertNode (bump 8) 1 3 25 1) demo_state (λ r s',
    r = Some 1 ∧
    inserted demo_state 1 demo_list demo_nodes
      [(2, 10); (3, 20); (5, 25); (4, 30)] 5 s').
Proof.
  split; [apply bump_fresh|]. split; [exact demo_lookup|].
  split; [exact demo_dll|].
  pose proof (insertion_contract (bump 8) demo_state 1 demo_list demo_nodes 25
                (bump_fresh 8) demo_lookup demo_dll) as H.
  assert (bump 8 demo_state = Some 5) as Hb by (vm_compute; reflexivity).
  rewrite Hb in H. destruct H as (_ & _ & H).
  exact (H [(2, 10)] 3 20 [(4, 30)] 1 eq_refl).
Defined.

(** C4.  On a well-formed list, deleting a node of the list removes that
    node and no other: the remaining nodes keep their order (so the
    neighbours are reconnected, the head moves when the first node goes
    and the tail when the last one goes), the node is freed, the length
    goes down by one, and the value of the node goes through the free
    callback once when a callback is installed and never otherwise. *)
Theorem delete_contract s l L xs1 b w xs2 :
  lists s !! l = Some L → dll (nodes s) L (xs1 ++ (b, w) :: xs2) →
  wp (listDelNode l b) s (λ _ s',
    removed s l L (xs1 ++ (b, w) :: xs2) (xs1 ++ xs2) b w s' ∧
    (free L = None → released s' = released s) ∧
    (∀ f, free L = Some f → released s' = released s ++ [w])).
Proof.
  intros HL Hd. eapply wp_mono; [by apply listDelNode_spec|].
  simpl. intros _ s' (_ & Hr & Hrel).
  pose proof (dll_nodup _ _ _ Hd) as Hnd.
  rewrite fmap_app, fmap_cons in Hnd. simpl in Hnd.
  apply NoDup_app in Hnd as (_ & Hb1 & [Hb2 _]%NoDup_cons).
  split; [|split].
  - apply removed_intro; try done.
    + intros c. rewrite !fmap_app, !elem_of_app, fmap_cons, elem_of_cons.
      simpl. tauto.
    + rewrite fmap_app, elem_of_app. intros [Hin|Hin]; [|done].
      apply (Hb1 b Hin). apply elem_of_cons. by left.
    + rewrite !length_app. simpl. lia.
  - intros Hf. rewrite Hr. unfold freed_values. rewrite Hf. apply app_nil_r.
  - intros f Hf. rewrite Hr. unfold freed_values. by rewrite Hf.
Qed.

Lemma delete_contract_witness :
  lists demo_state !! 1 = Some demo_list ∧
  dll (nodes demo_state) demo_list ([(2, 10)] ++ (3, 20) :: [(4, 30)]) ∧
  wp (listDelNode 1 3) demo_state (λ _ s',
    removed demo_state 1 demo_list demo_nodes [(2, 10); (4, 30)] 3 20 s' ∧
    (free demo_list = None → released s' = released demo_state) ∧
    (∀ f, free demo_list = Some f →
          released s' = released demo_state ++ [20])).
Proof.
  split; [exact demo_lookup|]. split; [exact demo_dll|].
  exact (delete_contract demo_state 1 demo_list [(2, 10)] 3 20 [(4, 30)]
           demo_lookup demo_dll).
Defined.

(** C5.  For two distinct well-formed lists (which share no node), join
    makes the forward traversal of the destination its old traversal
    followed by the old traversal of the source, the very same nodes with
    their values; the length of the destination becomes the sum of the
    two lengths; the source is left as a well-formed empty list, with a
    null head, a null tail and length 0, and an insertion at either end
    of it succeeds. *)
Theorem join_contract s l o L O xs ys :
  l ≠ o → lists s !! l = Some L → lists s !! o = Some O →
  dll (nodes s) L xs → dll (nodes s) O ys →
  (∀ a, a ∈ xs.*1 → a ∉ ys.*1) →
  wp (listJoin l o) s (λ _ s',
    joined s l o L O xs ys s' ∧
    ∃ L' O',
      lists s' !! l = Some L' ∧ lists s' !! o = Some O' ∧
      forward (nodes s') (head L') = Some (xs.*1 ++ ys.*1) ∧
      len L' = len L + len O ∧
      head O' = None ∧ tail O' = None ∧ len O' = 0 ∧
      ∀ zm a v, fresh_allocator zm → zm s' = Some a →
        wp (listAddNodeTail zm o v) s' (λ r s'',
          r = Some o ∧
          ∃ O'', lists s'' !! o = Some O'' ∧ dll (nodes s'') O'' [(a, v)]) ∧
        wp (listAddNodeHead zm o v) s' (λ r s'',
          r = Some o ∧
          ∃ O'', lists s'' !! o = Some O'' ∧ dll (nodes s'') O'' [(a, v)])).
Proof.
  intros Hne HL HO Hdl Hdo Hdisj.
  eapply wp_mono; [by apply listJoin_spec|].
  simpl. intros _ s' Hj. split; [done|].
  destruct Hj as ((L' & HL' & Hd' & _) & (O' & HO' & HdO' & _) & _).
  exists L', O'. split; [done|]. split; [done|].
  split; [by rewrite (dll_forward _ _ _ Hd'), fmap_app|].
  split.
  { rewrite (dll_len _ _ _ Hd'), (dll_len _ _ _ Hdl), (dll_len _ _ _ Hdo).
    rewrite length_app. lia. }
  pose proof HdO' as [_ _ _ Hh Ht Hlen].
  split; [done|]. split; [done|]. split; [done|].
  intros zm a v Hfresh Hzm. split.
  - eapply wp_mono; [by apply (listAddNodeTail_spec zm s' o O' [] a v)|].
    simpl. intros r s'' (-> & _ & (O'' & ? & ? & _) & _). eauto.
  - eapply wp_mono; [by apply (listAddNodeHead_spec zm s' o O' [] a v)|].
    simpl. intros r s'' (-> & _ & (O'' & ? & ? & _) & _). eauto.
Qed.

Lemma join_contract_witness :
  1 ≠ 4 ∧ lists pair_state !! 1 = Some pair_first ∧
  lists pair_state !! 4 = Some pair_second ∧
  dll (nodes pair_state) pair_first [(2, 1); (3, 2)] ∧
  dll (nodes pair_state) pair_second [(5, 3); (6, 4)] ∧
  (∀ a : Z, a ∈ [(2, 1); (3, 2)].*1 → a ∉ [(5, 3); (6, 4)].*1) ∧
  wp (listJoin 1 4) pair_state (λ _ s',
    ∃ L' O',
      lists s' !! 1 = Some L' ∧ lists s' !! 4 = Some O' ∧
      forward (nodes s') (head L') = Some [2; 3; 5; 6] ∧
      len L' = 4 ∧ head O' = None ∧ len O' = 0).
Proof.
  assert (∀ a : Z, a ∈ [(2, 1); (3, 2)].*1 → a ∉ [(5, 3); (6, 4)].*1) as Hd.
  { intros a Ha Hb. simpl in Ha, Hb.
    rewrite !elem_of_cons in Ha. rewrite !elem_of_cons in Hb.
    rewrite elem_of_nil in Ha. rewrite elem_of_nil in Hb. lia. }
  split; [lia|]. split; [exact pair_lookup_first|].
  split; [exact pair_lookup_second|]. split; [exact pair_dll_first|].
  split; [exact pair_dll_second|]. split; [exact Hd|].
  eapply wp_mono.
  { exact (join_contract pair_state 1 4 pair_first pair_second
             [(2, 1); (3, 2)] [(5, 3); (6, 4)]
             ltac:(lia) pair_lookup_first pair_lookup_second
             pair_dll_first pair_dll_second Hd). }
  simpl. intros _ s' (_ & L' & O' & ? & ? & ? & ? & ? & _ & ? & _).
  exists L', O'. done.
Defined.

(** C8.  On a well-formed list, rotate leaves the memory as it is when the
    list has at most one node; otherwise it moves the tail node in front
    of the others, which keep their order, and it neither allocates nor
    frees a node: the nodes and their values are the same, and so is the
    length. *)
Theorem rotate_contract s l L xs :
  lists s !! l = Some L → dll (nodes s) L xs →
  ((length xs ≤ 1)%nat → listRotate l s = Some (tt, s)) ∧
  (∀ ys t w, ys ≠ [] → xs = ys ++ [(t, w)] →
     wp (listRotate l) s (λ _ s', rotated s l L xs ((t, w) :: ys) s')).
Proof.
  intros HL Hd. split.
  - intros Hle.
    destruct (listRotate_small_spec s l L xs HL Hd Hle)
      as ([] & s' & Hrun & ->). done.
  - intros ys t w Hys ->. destruct ys as [|[h x] ys]; [done|].
    eapply wp_mono; [by apply listRotate_spec|].
    simpl. intros _ s' (_ & Hr & Hrel).
    apply rotated_intro; try done.
    + intros c. rewrite !fmap_cons, !fmap_app. simpl. clear. set_solver.
    + simpl. rewrite length_app. simpl. lia.
Qed.

Lemma rotate_contract_witness :
  lists demo_state !! 1 = Some demo_list ∧
  dll (nodes demo_state) demo_list demo_nodes ∧
  wp (listRotate 1) demo_state (λ _ s',
    rotated demo_state 1 demo_list demo_nodes [(4, 30); (2, 10); (3, 20)] s').
Proof.
  split; [exact demo_lookup|]. split; [exact demo_dll|].
  exact (proj2 (rotate_contract demo_state 1 demo_list demo_nodes
                  demo_lookup demo_dll)
           [(2, 10); (3, 20)] 4 30 ltac:(discriminate) eq_refl).
Defined.

(** C10.  Joining an empty list distinct from a well-formed list to it
    leaves the whole memory as it was: the head, the tail, the length and
    the links of all the nodes of the destination are unchanged, and the
    source is still the empty list. *)
Theorem join_empty_unchanged s l o L O xs :
  l ≠ o → lists s !! l = Some L → dll (nodes s) L xs →
  lists s !! o = Some O →
  head O = None → tail O = None → len O = 0 →
  listJoin l o s = Some (tt, s).
Proof.
  intros Hne HL Hd HO Hh Ht Hlen.
  assert (wp (listJoin l o) s (λ _ s', s' = s)) as ([] & s' & Hrun & ->);
    [|done].
  pose proof (dll_length_bound _ _ _ Hd) as Hbound.
  destruct Hd as [_ _ Hseg Hhx Htx Hlx].
  destruct L as [Lh Lt Ln Ld Lf Lm]; simpl in *; subst Lh Lt Ln.
  destruct O as [Oh Ot On Od Of Om]; simpl in *; subst Oh Ot On.
  assert (o ≠ l) as Hol by congruence.
  unfold listJoin.
  destruct (snoc_cases xs) as [->|(zs & [t w] & ->)];
    rewrite ?last_or_snoc, ?last_or_nil in *.
  - wp_run. destruct s as [ns ls rel]; simpl in *. f_equal.
    rewrite Z.add_0_r, wrap_ulong_small by (simpl; lia).
    rewrite !insert_insert_eq.
    rewrite (insert_id ls l) by done. by rewrite insert_id.
  - apply dlseg_app in Hseg as [_ [Hnt _]].
    wp_run. destruct s as [ns ls rel]; simpl in *. f_equal.
    + by apply insert_id.
    + rewrite Z.add_0_r, wrap_ulong_small by lia.
      rewrite !insert_insert_eq.
      rewrite (insert_id ls l) by done. by rewrite insert_id.
Qed.

Lemma join_empty_unchanged_witness :
  1 ≠ 5 ∧ lists (final_state (demo_calls ++ [Create (bump 8)])) !! 1
           = Some demo_list ∧
  dll (nodes (final_state (demo_calls ++ [Create (bump 8)]))) demo_list
    demo_nodes ∧
  lists (final_state (demo_calls ++ [Create (bump 8)])) !! 5
    = Some (AdList None None 0 None None None) ∧
  listJoin 1 5 (final_state (demo_calls ++ [Create (bump 8)]))
    = Some (tt, final_state (demo_calls ++ [Create (bump 8)])).
Proof.
  assert (dll (nodes (final_state (demo_calls ++ [Create (bump 8)])))
            demo_list demo_nodes) as Hd by concrete_dll.
  split; [lia|]. split; [by vm_compute|]. split; [exact Hd|].
  split; [by vm_compute|].
  exact (join_empty_unchanged (final_state (demo_calls ++ [Create (bump 8)]))
           1 5 demo_list (AdList None None 0 None None None) demo_nodes
           ltac:(lia) eq_refl Hd eq_refl eq_refl eq_refl eq_refl).
Defined.

(** C9.  On a well-formed list and for an index that is a [long]:
    index 0 is the head and index -1 is the tail; an index [i] with
    [0 <= i < length] is the [i]-th node from the head, counting from 0,
    and an index [i] with [-length <= i < 0] is the [(-i)]-th node from the
    tail, counting from 1; every other index, and so [length] and
    [-length-1], gives NULL.  The memory is not modified. *)
Theorem index_contract s l L xs i :
  lists s !! l = Some L → dll (nodes s) L xs → is_long i →
  listIndex l 0 s = Some (head L, s) ∧
  listIndex l (-1) s = Some (tail L, s) ∧
  (0 <= i < len L →
     ∃ a, xs.*1 !! Z.to_nat i = Some a ∧ listIndex l i s = Some (Some a, s)) ∧
  (- len L <= i < 0 →
     ∃ a, reverse xs.*1 !! Z.to_nat (- i - 1) = Some a ∧
          listIndex l i s = Some (Some a, s)) ∧
  (len L <= i ∨ i < - len L → listIndex l i s = Some (None, s)).
Proof.
  intros HL Hd Hi.
  pose proof (dll_len _ _ _ Hd) as Hlen.
  assert (length xs.*1 = length xs) as Hl1 by apply length_fmap.
  assert (length (reverse xs.*1) = length xs) as Hl2
    by (by rewrite length_reverse).
  split; [|split; [|split; [|split]]].
  - rewrite (listIndex_spec s l L xs 0 HL Hd) by (unfold is_long; lia).
    unfold index_model. simpl. f_equal. f_equal.
    rewrite (dll_head _ _ _ Hd). by destruct xs as [|[] ?].
  - rewrite (listIndex_spec s l L xs (-1) HL Hd) by (unfold is_long; lia).
    unfold index_model. simpl. f_equal. f_equal.
    rewrite (dll_tail _ _ _ Hd).
    destruct (snoc_cases xs) as [->|(ys & [a v] & ->)]; [done|].
    by rewrite last_or_snoc, fmap_app, reverse_app.
  - intros Hr. rewrite (listIndex_spec s l L xs i HL Hd Hi).
    unfold index_model. rewrite (proj2 (Z.ltb_ge _ _)) by lia.
    destruct (lookup_lt_is_Some_2 xs.*1 (Z.to_nat i)) as [a Ha]; [lia|].
    exists a. by rewrite Ha.
  - intros Hr. rewrite (listIndex_spec s l L xs i HL Hd Hi).
    unfold index_model. rewrite (proj2 (Z.ltb_lt _ _)) by lia.
    destruct (lookup_lt_is_Some_2 (reverse xs.*1) (Z.to_nat (- i - 1)))
      as [a Ha]; [lia|].
    exists a. by rewrite Ha.
  - intros Hr. rewrite (listIndex_spec s l L xs i HL Hd Hi).
    unfold index_model. f_equal. f_equal. destruct (i <? 0) eqn:Hneg.
    + apply lookup_ge_None_2. lia.
    + apply lookup_ge_None_2. lia.
Qed.

Lemma index_contract_witness :
  lists demo_state !! 1 = Some demo_list ∧
  dll (nodes demo_state) demo_list demo_nodes ∧ is_long (-2) ∧
  listIndex 1 0 demo_state = Some (Some 2, demo_state) ∧
  listIndex 1 (-1) demo_state = Some (Some 4, demo_state) ∧
  listIndex 1 (-2) demo_state = Some (Some 3, demo_state).
Proof.
  assert (is_long (-2)) as Hi by (unfold is_long; lia).
  split; [exact demo_lookup|]. split; [exact demo_dll|]. split; [exact Hi|].
  destruct (index_contract demo_state 1 demo_list demo_nodes (-2)
              demo_lookup demo_dll Hi) as (H0 & H1 & _ & Hneg & _).
  split; [exact H0|]. split; [exact H1|].
  destruct Hneg as (a & Ha & Hrun); [simpl; lia|].
  vm_compute in Ha. inversion Ha; subst a. exact Hrun.
Defined.

(** C6.  On a well-formed list: the iterator that [listGetIterator]
    creates, in the block that the allocator provides, is seated at the
    head for the forward direction and at the tail otherwise, and nothing
    else of the memory changes; a call of next on an
    exhausted iterator returns NULL and leaves the iterator as it is; on
    a cursor it returns the node under the cursor and moves the cursor to
    the next link of that node (forward) or to its prev link (backward),
    as the node holds them when the call is made.  So the loop over a
    forward iterator meets the nodes of the list from head to tail, one
    per call, and then NULL, and the loop over a backward iterator meets
    them from tail to head; and when the body of the loop deletes some of
    the nodes, each one right after the call that returned it, the loop
    still meets all the nodes of the list in the same order, and leaves
    in the list the nodes that were not deleted. *)
Theorem iterator_contract s l L xs :
  lists s !! l = Some L → dll (nodes s) L xs →
  (∀ zm dir a, zm s = Some a →
     listGetIterator zm l dir s =
       Some (Some a,
             with_iters
               (<[a := ListIter (if dir =? AL_START_HEAD then head L
                                 else tail L) dir]> (iters s)) s)) ∧
  (∀ it, iter_next it = None → listNext it s = Some ((None, it), s)) ∧
  (∀ it c n, iter_next it = Some c → nodes s !! c = Some n →
     listNext it s =
       Some ((Some c,
              ListIter (if direction it =? AL_START_HEAD
                        then next n else prev n) (direction it)), s)) ∧
  (∀ fuel, (length xs < fuel)%nat →
     iterate fuel (ListIter (head L) AL_START_HEAD) s = Some (xs.*1, s) ∧
     iterate fuel (ListIter (tail L) AL_START_TAIL) s
       = Some (reverse xs.*1, s) ∧
     ∀ del,
       wp (iterate_deleting fuel l del (ListIter (head L) AL_START_HEAD)) s
         (λ r s', r = xs.*1 ∧
                  ∃ L', lists s' !! l = Some L' ∧
                        dll (nodes s') L' (remaining del xs)) ∧
       wp (iterate_deleting fuel l del (ListIter (tail L) AL_START_TAIL)) s
         (λ r s', r = reverse xs.*1 ∧
                  ∃ L', lists s' !! l = Some L' ∧
                        dll (nodes s') L' (remaining del xs))).
Proof.
  intros HL Hd. split; [|split; [|split]].
  - intros zm dir a Hzm. by apply listGetIterator_seated.
  - intros it. apply listNext_exhausted.
  - intros it c n. apply listNext_node.
  - intros fuel Hfuel. split; [|split].
    + rewrite (dll_head _ _ _ Hd). eapply iterate_forward; [apply Hd|done].
    + rewrite (dll_tail _ _ _ Hd).
      eapply iterate_backward; [done|apply Hd|done].
    + intros del. split.
      * rewrite (dll_head _ _ _ Hd).
        by apply (iterate_deleting_forward l del xs [] s L fuel).
      * rewrite (dll_tail _ _ _ Hd).
        eapply wp_mono.
        { apply (iterate_deleting_backward l del AL_START_TAIL xs [] s L fuel);
            [done|done|by rewrite app_nil_r|done]. }
        simpl. intros r s' (-> & L' & HL' & Hd'). split; [done|].
        exists L'. split; [done|]. by rewrite app_nil_r in Hd'.
Qed.

Lemma iterator_contract_witness :
  lists demo_state !! 1 = Some demo_list ∧
  dll (nodes demo_state) demo_list demo_nodes ∧
  iterate 4 (ListIter (Some 2) AL_START_HEAD) demo_state
    = Some ([2; 3; 4], demo_state) ∧
  wp (iterate_deleting 4 1 (λ a, a =? 3) (ListIter (Some 2) AL_START_HEAD))
    demo_state
    (λ r s', r = [2; 3; 4] ∧
             ∃ L', lists s' !! 1 = Some L' ∧
                   dll (nodes s') L' [(2, 10); (4, 30)]).
Proof.
  split; [exact demo_lookup|]. split; [exact demo_dll|].
  destruct (iterator_contract demo_state 1 demo_list demo_nodes
              demo_lookup demo_dll) as (_ & _ & _ & H).
  destruct (H 4%nat ltac:(simpl; lia)) as (Hf & _ & Hdel).
  split; [exact Hf|]. exact (proj1 (Hdel (λ a, a =? 3))).
Defined.

(** C7.  On a well-formed list and with fuel for the loop, [listDup]
    returns, and the original list, its header and its nodes, is as it was
    in every case.  When there is no memory for the header of the copy,
    NULL is returned and the memory is as it was.  Otherwise the loop
    copies the values from the head: it adds at the tail of the copy the
    image of each value by the dup callback when there is one, and the
    value itself otherwise, up to the first value on which the callback
    returns NULL or for whose node the allocation fails.  When there is
    no such value, the result is the copy: a new list with the three
    callbacks of the original, of the same length, whose nodes are new
    and hold the copied values in the order of the original; nothing is
    released, and the memory is the one that these additions produce.
    When the copy stops at a value, NULL is returned, the copy is torn
    down (the memory holds the nodes, the lists and the iterators it held
    before) and the values placed in the copy so far, the images of the
    values before that one, went through the free callback, in this
    order, when there is one.  So [listDup] fails as soon as the callback
    fails on a value of the list, and it succeeds exactly when the header
    is allocated and every value can be copied. *)
Theorem duplicate_contract zm s orig O xs fuel :
  fresh_allocator zm → lists s !! orig = Some O → dll (nodes s) O xs →
  (length xs < fuel)%nat →
  ∃ r s', listDup fuel zm orig s = Some (r, s') ∧
    dup_post zm O orig xs s r s' ∧
    (Exists (λ v, dup_fails (dup O) v = true) xs.*2 → r = None) ∧
    (r ≠ None ↔
     ∃ c sk, zm s = Some c ∧
       copied zm c (dup O) xs.*2 (length xs.*2) (dup_start O c s) sk).
Proof.
  intros Hfresh HO Hd Hfuel.
  destruct (listDup_spec zm s orig O xs fuel Hfresh HO Hd Hfuel)
    as (r & s' & Hrun & Hpost).
  exists r, s'. split; [done|]. split; [done|].
  destruct Hpost as [_ Hpost].
  destruct (zm s) as [c|] eqn:Hzm.
  - destruct Hpost as (k & sk & Hcop & Hres).
    destruct (xs.*2 !! k) as [v|] eqn:Hlook.
    + destruct Hres as (Hcause & -> & _). split; [done|]. split; [done|].
      intros (c' & sk' & [= <-] & Hfull). exfalso.
      by apply (copied_all_no_stop zm c (dup O) xs.*2 k _ sk sk' v Hfull Hcop).
    + destruct Hres as (-> & _).
      pose proof Hcop as (Hk & Hall & _).
      assert (k = length xs.*2) as ->.
      { apply lookup_ge_None in Hlook. lia. }
      rewrite take_ge in Hall by lia. split; [|split; [|done]].
      * intros Hex. exfalso. apply Exists_exists in Hex as (v & Hin & Hf).
        rewrite Forall_forall in Hall. by rewrite (Hall v Hin) in Hf.
      * intros _. by exists c, sk.
  - destruct Hpost as [-> _]. split; [done|]. split; [done|].
    by intros (c & sk & ? & _).
Qed.

Lemma duplicate_contract_witness :
  ∃ r s', listDup 4 (bump 8) 1 demo_state = Some (r, s') ∧
    dup_post (bump 8) demo_list 1 demo_nodes demo_state r s' ∧ r ≠ None.
Proof.
  destruct (duplicate_contract (bump 8) demo_state 1 demo_list demo_nodes 4
              (bump_fresh 8) demo_lookup demo_dll ltac:(simpl; lia))
    as (r & s' & Hrun & Hpost & _ & Hsucc).
  exists r, s'. split; [done|]. split; [done|].
  apply Hsucc. eexists 5, _. split; [by vm_compute|].
  split; [simpl; lia|]. split.
  - repeat constructor.
  - vm_compute. reflexivity.
Defined.

(** C3, as the code has it.  On valid inputs delete, rotate, join (of a
    list to another list or to itself), searchKey, index, rewind,
    rewindTail and next always complete with their result, and
    releaseIterator, on an iterator of the heap, completes and frees it.
    The creation of an iterator completes as well, but it does have a
    failure outcome: it allocates the iterator, and it returns NULL, the
    memory being left as it was, when the allocator fails; otherwise it
    returns the new block, seated. *)
Theorem never_fail_contract s l L xs :
  lists s !! l = Some L → dll (nodes s) L xs →
  (∀ b, b ∈ xs.*1 → ∃ s', listDelNode l b s = Some (tt, s')) ∧
  (∃ s', listRotate l s = Some (tt, s')) ∧
  (∀ o O ys, l ≠ o → lists s !! o = Some O → dll (nodes s) O ys →
     (∀ a, a ∈ xs.*1 → a ∉ ys.*1) →
     ∃ s', listJoin l o s = Some (tt, s')) ∧
  (∃ s', listJoin l l s = Some (tt, s')) ∧
  (∀ key fuel, (length xs < fuel)%nat →
     ∃ r, listSearchKey fuel l key s = Some (r, s)) ∧
  (∀ i, is_long i → ∃ r, listIndex l i s = Some (r, s)) ∧
  listRewind l s = Some (ListIter (head L) AL_START_HEAD, s) ∧
  listRewindTail l s = Some (ListIter (tail L) AL_START_TAIL, s) ∧
  (∀ it, (∀ c, iter_next it = Some c → is_Some (nodes s !! c)) →
     ∃ r it', listNext it s = Some ((r, it'), s)) ∧
  (∀ p, is_Some (iters s !! p) →
     listReleaseIterator p s = Some (tt, with_iters (delete p (iters s)) s)) ∧
  (∀ zm dir,
     listGetIterator zm l dir s =
       Some (match zm s with
             | Some a =>
                 (Some a,
                  with_iters
                    (<[a := ListIter (if dir =? AL_START_HEAD then head L
                                      else tail L) dir]> (iters s)) s)
             | None => (None, s)
             end)).
Proof.
  intros HL Hd.
  split; [|split; [|split; [|split; [|split; [|split; [|split;
    [|split; [|split; [|split]]]]]]]]].
  - intros b Hb. apply list_elem_of_fmap in Hb as ([b' w] & -> & Hin).
    apply list_elem_of_split in Hin as (xs1 & xs2 & ->).
    destruct (listDelNode_spec s l L xs1 b' w xs2 HL Hd) as ([] & s' & ? & _).
    eauto.
  - destruct (decide (length xs ≤ 1)%nat) as [Hle|Hgt].
    + destruct (listRotate_small_spec s l L xs HL Hd Hle) as ([] & s' & ? & _).
      eauto.
    + destruct xs as [|[h x] xs]; [simpl in Hgt; lia|].
      destruct (snoc_cases xs) as [->|(ys & [t w] & ->)]; [simpl in Hgt; lia|].
      destruct (listRotate_spec s l L h x ys t w HL Hd) as ([] & s' & ? & _).
      eauto.
  - intros o O ys Hne HO HdO Hdisj.
    destruct (listJoin_spec s l o L O xs ys Hne HL HO Hd HdO Hdisj)
      as ([] & s' & ? & _).
    eauto.
  - destruct (listJoin_self_spec s l L xs HL Hd) as ([] & s' & ? & _). eauto.
  - intros key fuel Hfuel. eexists. by eapply listSearchKey_spec.
  - intros i Hi. eexists. by eapply listIndex_spec.
  - unfold listRewind, bind, load_list. by rewrite HL.
  - unfold listRewindTail, bind, load_list. by rewrite HL.
  - intros it Hit. destruct (iter_next it) as [c|] eqn:Hc.
    + destruct (Hit c eq_refl) as [n Hn].
      eexists _, _. by eapply listNext_node.
    + eexists _, _. by apply listNext_exhausted.
  - intros p [it Hp]. by eapply listReleaseIterator_freed.
  - intros zm dir. destruct (zm s) as [a|] eqn:Hzm.
    + by apply listGetIterator_seated.
    + by apply listGetIterator_fail.
Qed.

Lemma never_fail_contract_witness :
  lists demo_state !! 1 = Some demo_list ∧
  dll (nodes demo_state) demo_list demo_nodes ∧
  (∃ s', listRotate 1 demo_state = Some (tt, s')) ∧
  listGetIterator (bump 8) 1 AL_START_TAIL demo_state
    = Some (Some 5,
            with_iters (<[5 := ListIter (Some 4) AL_START_TAIL]> ∅)
              demo_state).
Proof.
  split; [exact demo_lookup|]. split; [exact demo_dll|].
  destruct (never_fail_contract demo_state 1 demo_list demo_nodes
              demo_lookup demo_dll)
    as (_ & Hrot & _ & _ & _ & _ & _ & _ & _ & _ & Hit).
  split; [exact Hrot|]. exact (Hit (bump 8) AL_START_TAIL).
Defined.

(** C3, as it is stated, fails on the creation of an iterator: on a
    well-formed list, with an allocator that has no memory left,
    [listGetIterator] returns NULL. *)
Lemma iterator_creation_fails :
  fresh_allocator no_memory ∧
  lists demo_state !! 1 = Some demo_list ∧
  dll (nodes demo_state) demo_list demo_nodes ∧
  listGetIterator no_memory 1 AL_START_HEAD demo_state
    = Some (None, demo_state).
Proof.
  split; [exact no_memory_fresh|]. split; [exact demo_lookup|].
  split; [exact demo_dll|]. reflexivity.
Qed.

Lemma first_match_Some m key xs a :
  first_match m key xs = Some a →
  ∃ xs1 v xs2, xs = xs1 ++ (a, v) :: xs2 ∧ value_matches m key v = true ∧
    Forall (λ x, value_matches m key x.2 = false) xs1.
Proof.
  induction xs as [|[b w] xs IH]; [done|]. simpl.
  destruct (value_matches m key w) eqn:Hw.
  - intros [= ->]. by exists [], w, xs.
  - intros H. destruct (IH H) as (xs1 & v & xs2 & -> & Hv & Hall).
    exists ((b, w) :: xs1), v, xs2. split; [done|]. split; [done|].
    by apply Forall_cons.
Qed.

Lemma first_match_None m key xs :
  first_match m key xs = None →
  Forall (λ x, value_matches m key x.2 = false) xs.
Proof.
  induction xs as [|[b w] xs IH]; [by intros; apply Forall_nil|]. simpl.
  destruct (value_matches m key w) eqn:Hw; [done|].
  intros H. apply Forall_cons. split; [done|]. by apply IH.
Qed.

(** ** Further properties of the module *)

(** X1.  With an allocator that hands out unused blocks, [listCreate]
    always returns.  When the allocation fails it returns NULL and the
    memory is as it was.  Otherwise it returns the address of the new
    block, which was not a list before and now is the header of an empty
    well-formed list without callbacks; no node is touched, nothing is
    released, and the other lists are as they were. *)
Theorem create_contract zm s :
  fresh_allocator zm →
  ∃ r s', listCreate zm s = Some (r, s') ∧
    match r with
    | None => zm s = None ∧ s' = s
    | Some a =>
        zm s = Some a ∧ valid_ptr a ∧ lists s !! a = None ∧
        nodes s' = nodes s ∧ released s' = released s ∧
        lists s' = <[a := AdList None None 0 None None None]> (lists s) ∧
        dll (nodes s') (AdList None None 0 None None None) []
    end.
Proof.
  intros Hfresh. destruct (zm s) as [a|] eqn:Hzm.
  - destruct (listCreate_spec zm s a Hfresh Hzm)
      as (r & s' & Hrun & -> & Hn & Hr & Hl).
    exists (Some a), s'. split; [done|].
    destruct (Hfresh s a Hzm) as (Hptr & _ & Hnew & _).
    do 6 (split; [done|]). by apply dll_nil.
  - exists None, s. split; [by apply listCreate_fail|done].
Qed.

Lemma create_contract_witness :
  ∃ r s', listCreate (bump 8) demo_state = Some (r, s') ∧
    match r with
    | None => bump 8 demo_state = None ∧ s' = demo_state
    | Some a =>
        bump 8 demo_state = Some a ∧ valid_ptr a ∧
        lists demo_state !! a = None ∧
        nodes s' = nodes demo_state ∧ released s' = released demo_state ∧
        lists s' =
          <[a := AdList None None 0 None None None]> (lists demo_state) ∧
        dll (nodes s') (AdList None None 0 None None None) []
    end.
Proof.
  exact (create_contract (bump 8) demo_state (bump_fresh 8)).
Defined.

(** X2.  On a well-formed list [listEmpty] returns, and then: the header
    has no head, no tail, length 0 and the callbacks it had (so the list
    is a well-formed empty list, ready to be used again); every node of
    the list is freed and no other node is touched; the values of the
    nodes went through the [free] callback, from the head to the tail and
    once each, when a callback is installed, and nothing was released
    otherwise. *)
Theorem empty_contract s l L xs :
  lists s !! l = Some L → dll (nodes s) L xs →
  ∃ s', listEmpty l s = Some (tt, s') ∧
    lists s' =
      <[l := AdList None None 0 (dup L) (free L) (match_ L)]> (lists s) ∧
    dll (nodes s') (AdList None None 0 (dup L) (free L) (match_ L)) [] ∧
    (∀ b, nodes s' !! b = if decide (b ∈ xs.*1) then None else nodes s !! b) ∧
    released s' = released s ++ freed_values L xs.*2.
Proof.
  intros HL Hd.
  destruct (listEmpty_spec s l L xs HL Hd)
    as ([] & s' & Hrun & _ & Hrel & (L' & HL' & Hd' & Hdup & Hfree & Hmatch)
        & Hothers & Hframe & _ & Hfreed).
  exists s'. split; [done|].
  assert (L' = AdList None None 0 (dup L) (free L) (match_ L)) as HL'eq.
  { destruct Hd' as [_ _ _ Hh Ht Hlen]. apply adlist_eq; simpl; done. }
  split; [|split; [|split]].
  - apply map_eq. intros l'. destruct (decide (l' = l)) as [->|Hne].
    + rewrite lookup_insert_eq. congruence.
    + rewrite lookup_insert_ne by done. by apply Hothers.
  - by apply dll_nil.
  - intros b. destruct (decide (b ∈ xs.*1)) as [Hin|Hout].
    + apply Hfreed; [done|]. apply not_elem_of_nil.
    + apply Hframe; [done|]. apply not_elem_of_nil.
  - done.
Qed.

Lemma empty_contract_witness :
  ∃ s', listEmpty 1 guarded_state = Some (tt, s') ∧
    nodes s' !! 3 = None ∧ released s' = [10; 20; 30].
Proof.
  assert (lists guarded_state !! 1 =
            Some (AdList (Some 2) (Some 4) 3
                    (Some (λ v, if v =? 30 then 0 else v + 100))
                    (Some (λ _, tt)) None)) as HL by (vm_compute; reflexivity).
  assert (dll (nodes guarded_state)
            (AdList (Some 2) (Some 4) 3
               (Some (λ v, if v =? 30 then 0 else v + 100))
               (Some (λ _, tt)) None) demo_nodes) as Hd by concrete_dll.
  destruct (empty_contract guarded_state 1 _ demo_nodes HL Hd)
    as (s' & Hrun & _ & _ & Hn & Hr).
  exists s'. split; [done|]. split.
  - rewrite Hn. destruct (decide (3 ∈ demo_nodes.*1)) as [|Hout]; [done|].
    exfalso. apply Hout. by apply (bool_decide_unpack _); vm_compute.
  - rewrite Hr. vm_compute. reflexivity.
Defined.

(** X3.  On a well-formed list [listRelease] returns, and then: the
    header is freed, every node of the list is freed and no other node is
    touched, the other lists are as they were, and the values of the nodes
    went through the [free] callback, from the head to the tail and once
    each, when a callback is installed.  The pointer to the list dangles
    from then on: releasing the list a second time is undefined. *)
Theorem release_contract s l L xs :
  lists s !! l = Some L → dll (nodes s) L xs →
  ∃ s', listRelease l s = Some (tt, s') ∧
    lists s' = delete l (lists s) ∧
    (∀ b, nodes s' !! b = if decide (b ∈ xs.*1) then None else nodes s !! b) ∧
    released s' = released s ++ freed_values L xs.*2 ∧
    listRelease l s' = None.
Proof.
  intros HL Hd.
  destruct (listRelease_spec s l L xs HL Hd)
    as ([] & s' & Hrun & Hr & Hl & Hn).
  exists s'. do 4 (split; [done|]).
  unfold listRelease, listEmpty, bind, load_list.
  by rewrite Hl, lookup_delete_eq.
Qed.

Lemma release_contract_witness :
  ∃ s', listRelease 1 demo_state = Some (tt, s') ∧
    lists s' = delete 1 (lists demo_state) ∧
    nodes s' !! 2 = None ∧ listRelease 1 s' = None.
Proof.
  destruct (release_contract demo_state 1 demo_list demo_nodes
              demo_lookup demo_dll) as (s' & Hrun & Hl & Hn & _ & Hagain).
  exists s'. split; [done|]. split; [done|]. split; [|done].
  rewrite Hn. destruct (decide (2 ∈ demo_nodes.*1)) as [|Hout]; [done|].
  exfalso. apply Hout. by apply (bool_decide_unpack _); vm_compute.
Defined.

(** X4.  On a well-formed list, with fuel for the loop, [listSearchKey]
    returns and leaves the memory as it is.  The test on a value is the
    [match] callback when one is installed (a result other than 0 is a
    match) and the equality of the value and the key otherwise.  When the
    result is a node, this node is in the list, its value passes the test
    and no value before it does; when the result is NULL, no value of the
    list passes the test. *)
Theorem search_contract s l L xs key fuel :
  lists s !! l = Some L → dll (nodes s) L xs → (length xs < fuel)%nat →
  ∃ r, listSearchKey fuel l key s = Some (r, s) ∧
    match r with
    | Some a =>
        ∃ xs1 v xs2, xs = xs1 ++ (a, v) :: xs2 ∧
          value_matches (match_ L) key v = true ∧
          Forall (λ x, value_matches (match_ L) key x.2 = false) xs1
    | None => Forall (λ x, value_matches (match_ L) key x.2 = false) xs
    end.
Proof.
  intros HL Hd Hfuel. exists (first_match (match_ L) key xs).
  split; [by apply listSearchKey_spec|].
  destruct (first_match (match_ L) key xs) as [a|] eqn:Hm.
  - by apply first_match_Some.
  - by apply first_match_None.
Qed.

Lemma search_contract_witness :
  ∃ r, listSearchKey 4 1 20 demo_state = Some (r, demo_state) ∧
    match r with
    | Some a =>
        ∃ xs1 v xs2, demo_nodes = xs1 ++ (a, v) :: xs2 ∧
          value_matches (match_ demo_list) 20 v = true ∧
          Forall (λ x, value_matches (match_ demo_list) 20 x.2 = false) xs1
    | None =>
        Forall (λ x, value_matches (match_ demo_list) 20 x.2 = false)
          demo_nodes
    end.
Proof.
  exact (search_contract demo_state 1 demo_list demo_nodes 20 4
           demo_lookup demo_dll ltac:(simpl; lia)).
Defined.

(** X5.  Joining a well-formed list to itself returns, and empties the
    list without freeing anything: the header has no head, no tail and
    length 0, with the callbacks it had; the nodes the list held are still
    allocated but belong to the list no more; no node is allocated or
    freed, no value is released, and the nodes of the other lists and the
    other lists are as they were. *)
Theorem join_self_contract s l L xs :
  lists s !! l = Some L → dll (nodes s) L xs →
  ∃ s', listJoin l l s = Some (tt, s') ∧
    lists s' =
      <[l := AdList None None 0 (dup L) (free L) (match_ L)]> (lists s) ∧
    (∀ b, b ∈ xs.*1 → is_Some (nodes s' !! b) ∧ ¬ member s' l b) ∧
    (∀ b, is_Some (nodes s' !! b) ↔ is_Some (nodes s !! b)) ∧
    (∀ b, b ∉ xs.*1 → nodes s' !! b = nodes s !! b) ∧
    released s' = released s.
Proof.
  intros HL Hd.
  destruct (listJoin_self_spec s l L xs HL Hd)
    as ([] & s' & Hrun & (L' & HL' & Hd' & Hdup & Hfree & Hmatch)
        & Hothers & Hframe & Halloc & Hr).
  exists s'. split; [done|].
  assert (L' = AdList None None 0 (dup L) (free L) (match_ L)) as ->.
  { destruct Hd' as [_ _ _ Hh Ht Hlen]. apply adlist_eq; simpl; done. }
  split; [|split; [|done]].
  - apply map_eq. intros l'. destruct (decide (l' = l)) as [->|Hne].
    + by rewrite lookup_insert_eq.
    + rewrite lookup_insert_ne by done. by apply Hothers.
  - intros b Hb. split.
    + apply Halloc. by eapply dll_allocated.
    + intros (L0 & ns & HL0 & Hfw & Hin).
      rewrite HL' in HL0. inversion HL0; subst L0. simpl in Hfw.
      unfold forward in Hfw. rewrite walk_None in Hfw.
      inversion Hfw; subst ns. by apply elem_of_nil in Hin.
Qed.

Lemma join_self_contract_witness :
  ∃ s', listJoin 1 1 demo_state = Some (tt, s') ∧
    lists s' !! 1 = Some (AdList None None 0 None None None) ∧
    is_Some (nodes s' !! 3) ∧ ¬ member s' 1 3.
Proof.
  destruct (join_self_contract demo_state 1 demo_list demo_nodes
              demo_lookup demo_dll) as (s' & Hrun & Hl & Hleak & _).
  exists s'. split; [done|]. split.
  - rewrite Hl. by rewrite lookup_insert_eq.
  - apply Hleak. by apply (bool_decide_unpack _); vm_compute.
Defined.

Lemma keeps_rotations k l : keeps_iters (rotations k l).
Proof.
  induction k as [|k IH]; simpl; [apply keeps_ret|].
  apply keeps_bind; [apply keeps_listRotate|]. intros _. apply IH.
Qed.

(** Rotating as many times as the list [zs] is long moves the nodes [zs]
    from the end of the list to its beginning. *)
Lemma rotations_spec l zs : ∀ ys s L,
  lists s !! l = Some L → dll (nodes s) L (ys ++ zs) →
  wp (rotations (length zs) l) s (λ _ s',
    relinked s l L (ys ++ zs) (zs ++ ys) s' ∧ released s' = released s).
Proof.
  induction zs as [|z zs IH] using rev_ind; intros ys s L HL Hd.
  - simpl. apply wp_ret. split; [|done].
    rewrite app_nil_r in *. by apply relinked_refl.
  - rewrite length_app, Nat.add_1_r. simpl. apply wp_bind.
    destruct (decide (ys ++ zs = [])) as [Hnil|Hcons].
    + apply app_eq_nil in Hnil as [-> ->]. simpl in *.
      eapply wp_mono; [by apply (listRotate_small_spec s l L [z])|].
      intros [] s' ->. simpl. apply wp_ret. split; [|done].
      by apply relinked_refl.
    + destruct (ys ++ zs) as [|[h x] rest] eqn:Hsplit; [done|].
      destruct z as [t w]. rewrite app_assoc, Hsplit in Hd. simpl in Hd.
      eapply wp_mono; [by apply (listRotate_spec s l L h x rest t w)|].
      intros [] s1 (_ & Hr1 & Hrel1). simpl.
      pose proof Hrel1 as ((L1 & HL1 & Hd1 & _) & _).
      assert ((t, w) :: (h, x) :: rest = ((t, w) :: ys) ++ zs) as Heq
        by (simpl; by rewrite Hsplit).
      rewrite Heq in Hd1, Hrel1.
      eapply wp_mono; [by apply (IH ((t, w) :: ys) s1 L1)|].
      intros [] s2 [Hrel2 Hr2]. simpl. split; [|congruence].
      rewrite <- (app_assoc zs [(t, w)] ys). simpl.
      rewrite (app_assoc ys zs [(t, w)]), Hsplit. simpl.
      by eapply relinked_trans.
Qed.

(** X6.  On a well-formed list, calling [listRotate] [k] times in a row,
    for [k] at most the length of the list, returns and moves the last
    [k] nodes to the front of the list, in their order, before the other
    nodes, in their order.  Calling it as many times as the list has
    nodes leaves the memory exactly as it was. *)
Theorem rotations_contract s l L ys zs :
  lists s !! l = Some L → dll (nodes s) L (ys ++ zs) →
  ∃ s', rotations (length zs) l s = Some (tt, s') ∧
    (∃ L', lists s' !! l = Some L' ∧ dll (nodes s') L' (zs ++ ys)) ∧
    (ys = [] → s' = s).
Proof.
  intros HL Hd.
  destruct (rotations_spec l zs ys s L HL Hd) as ([] & s' & Hrun & Hrel & Hr).
  exists s'. split; [done|]. split.
  - destruct Hrel as ((L' & HL' & Hd' & _) & _). eauto.
  - intros ->. simpl in *. rewrite app_nil_r in Hrel.
    destruct (relinked_same s l L zs s' HL Hd Hrel) as [Hn Hl].
    apply state_eq; [done|done| |done].
    exact (keeps_rotations _ _ _ _ _ Hrun).
Qed.

Lemma rotations_contract_witness :
  rotations 3 1 demo_state = Some (tt, demo_state).
Proof.
  destruct (rotations_contract demo_state 1 demo_list [] demo_nodes
              demo_lookup demo_dll) as (s' & Hrun & _ & Hsame).
  rewrite (Hsame eq_refl) in Hrun. exact Hrun.
Defined.

Lemma index_model_elem ns i c : index_model ns i = Some c → c ∈ ns.
Proof.
  unfold index_model. destruct (i <? 0); intros H.
  - apply elem_of_reverse. by eapply list_elem_of_lookup_2.
  - by eapply list_elem_of_lookup_2.
Qed.

Lemma first_match_elem m key xs c : first_match m key xs = Some c → c ∈ xs.*1.
Proof.
  intros H. apply first_match_Some in H as (xs1 & v & xs2 & -> & _).
  rewrite fmap_app, fmap_cons. set_solver.
Qed.

(** X7.  On a well-formed list, adding a value at the tail (or at the
    head) and then deleting the node that was added returns, and gives
    back the memory as it was, nodes and lists: the list has the nodes
    it had, in their order, with the header it had.  The one trace is that
    the value went through the [free] callback when one is installed. *)
Theorem add_then_delete_restores zm s l L xs v a :
  fresh_allocator zm → zm s = Some a →
  lists s !! l = Some L → dll (nodes s) L xs →
  (∃ s', (listAddNodeTail zm l v ;;; listDelNode l a) s = Some (tt, s') ∧
     nodes s' = nodes s ∧ lists s' = lists s ∧ iters s' = iters s ∧
     released s' = released s ++ freed_values L [v]) ∧
  (∃ s', (listAddNodeHead zm l v ;;; listDelNode l a) s = Some (tt, s') ∧
     nodes s' = nodes s ∧ lists s' = lists s ∧ iters s' = iters s ∧
     released s' = released s ++ freed_values L [v]).
Proof.
  intros Hfresh Hzm HL Hd. split.
  - destruct (listAddNodeTail_spec zm s l L xs a v Hfresh Hzm HL Hd)
      as (r & s1 & Hrun1 & _ & Hr1 & Hrel1).
    pose proof Hrel1 as ((L1 & HL1 & Hd1 & _ & Hfree & _) & _).
    destruct (listDelNode_spec s1 l L1 xs a v [] HL1 Hd1)
      as ([] & s2 & Hrun2 & _ & Hr2 & Hrel2).
    rewrite app_nil_r in Hrel2.
    exists s2. split; [unfold bind; by rewrite Hrun1|].
    pose proof (relinked_trans _ _ _ _ _ _ _ _ _ HL1 Hrel1 Hrel2) as Hrel.
    destruct (relinked_same s l L xs s2 HL Hd Hrel) as [Hn Hl].
    split; [done|]. split; [done|]. split.
    { rewrite (keeps_listDelNode _ _ _ _ _ Hrun2).
      by rewrite (keeps_listAddNodeTail _ _ _ _ _ _ Hrun1). }
    rewrite Hr2, Hr1. unfold freed_values. by rewrite Hfree.
  - destruct (listAddNodeHead_spec zm s l L xs a v Hfresh Hzm HL Hd)
      as (r & s1 & Hrun1 & _ & Hr1 & Hrel1).
    pose proof Hrel1 as ((L1 & HL1 & Hd1 & _ & Hfree & _) & _).
    destruct (listDelNode_spec s1 l L1 [] a v xs HL1 Hd1)
      as ([] & s2 & Hrun2 & _ & Hr2 & Hrel2).
    simpl in Hrel2.
    exists s2. split; [unfold bind; by rewrite Hrun1|].
    pose proof (relinked_trans _ _ _ _ _ _ _ _ _ HL1 Hrel1 Hrel2) as Hrel.
    destruct (relinked_same s l L xs s2 HL Hd Hrel) as [Hn Hl].
    split; [done|]. split; [done|]. split.
    { rewrite (keeps_listDelNode _ _ _ _ _ Hrun2).
      by rewrite (keeps_listAddNodeHead _ _ _ _ _ _ Hrun1). }
    rewrite Hr2, Hr1. unfold freed_values. by rewrite Hfree.
Qed.

Lemma add_then_delete_restores_witness :
  (listAddNodeTail (bump 8) 1 40 ;;; listDelNode 1 5) demo_state
    = Some (tt, demo_state).
Proof.
  assert (bump 8 demo_state = Some 5) as Hzm by (vm_compute; reflexivity).
  destruct (add_then_delete_restores (bump 8) demo_state 1 demo_list
              demo_nodes 40 5 (bump_fresh 8) Hzm demo_lookup demo_dll)
    as [(s' & Hrun & Hn & Hl & Hi & Hr) _].
  rewrite Hrun. f_equal. f_equal. apply state_eq; [done|done|done|].
  rewrite Hr. unfold freed_values. simpl. by rewrite app_nil_r.
Defined.

(** X8.  On a well-formed list, after a value was added at the head,
    [listIndex] with the index 0 returns the new node, the node holds the
    value, and [listSearchKey] returns the new node for every key that its
    value matches.  After a value was added at the tail, [listIndex] with
    the index -1 returns the new node, and the node holds the value. *)
Theorem added_node_found zm s l L xs v a :
  fresh_allocator zm → zm s = Some a →
  lists s !! l = Some L → dll (nodes s) L xs →
  (∃ s', listAddNodeHead zm l v s = Some (Some l, s') ∧
     listIndex l 0 s' = Some (Some a, s') ∧
     (∃ n, nodes s' !! a = Some n ∧ value n = v) ∧
     (∀ key fuel, value_matches (match_ L) key v = true →
        (S (length xs) < fuel)%nat →
        listSearchKey fuel l key s' = Some (Some a, s'))) ∧
  (∃ s', listAddNodeTail zm l v s = Some (Some l, s') ∧
     listIndex l (-1) s' = Some (Some a, s') ∧
     (∃ n, nodes s' !! a = Some n ∧ value n = v)).
Proof.
  intros Hfresh Hzm HL Hd. split.
  - destruct (listAddNodeHead_spec zm s l L xs a v Hfresh Hzm HL Hd)
      as (r & s1 & Hrun1 & -> & _ & (L1 & HL1 & Hd1 & _ & _ & Hmatch) & _).
    exists s1. split; [done|]. split; [|split].
    + by rewrite (listIndex_spec s1 l L1 _ 0 HL1 Hd1).
    + eapply dlseg_lookup; [apply Hd1|]. apply elem_of_cons. by left.
    + intros key fuel Hkey Hfuel.
      rewrite (listSearchKey_spec s1 l L1 _ key fuel HL1 Hd1) by done.
      simpl. by rewrite Hmatch, Hkey.
  - destruct (listAddNodeTail_spec zm s l L xs a v Hfresh Hzm HL Hd)
      as (r & s1 & Hrun1 & -> & _ & (L1 & HL1 & Hd1 & _) & _).
    exists s1. split; [done|]. split.
    + rewrite (listIndex_spec s1 l L1 _ (-1) HL1 Hd1) by done.
      unfold index_model. simpl. by rewrite fmap_app, reverse_app.
    + eapply dlseg_lookup; [apply Hd1|]. apply elem_of_app. right.
      apply elem_of_cons. by left.
Qed.

Lemma added_node_found_witness :
  ∃ s', listAddNodeHead (bump 8) 1 5 demo_state = Some (Some 1, s') ∧
    listIndex 1 0 s' = Some (Some 5, s') ∧
    listSearchKey 5 1 5 s' = Some (Some 5, s').
Proof.
  assert (bump 8 demo_state = Some 5) as Hzm by (vm_compute; reflexivity).
  destruct (added_node_found (bump 8) demo_state 1 demo_list
              demo_nodes 5 5 (bump_fresh 8) Hzm demo_lookup demo_dll)
    as [(s' & Hrun & Hidx & _ & Hsearch) _].
  exists s'. split; [done|]. split; [done|].
  apply Hsearch; [reflexivity|simpl; lia].
Defined.

(** X9.  On a well-formed list, once a node was deleted it is out of the
    list: it does not belong to the list any more, [listIndex] returns it
    for no index, and [listSearchKey] returns it for no key. *)
Theorem deleted_node_not_found s l L xs1 b w xs2 :
  lists s !! l = Some L → dll (nodes s) L (xs1 ++ (b, w) :: xs2) →
  ∃ s', listDelNode l b s = Some (tt, s') ∧
    ¬ member s' l b ∧
    (∀ i, is_long i →
       ∃ r, listIndex l i s' = Some (r, s') ∧ r ≠ Some b) ∧
    (∀ key fuel, (length (xs1 ++ xs2) < fuel)%nat →
       ∃ r, listSearchKey fuel l key s' = Some (r, s') ∧ r ≠ Some b).
Proof.
  intros HL Hd.
  destruct (listDelNode_spec s l L xs1 b w xs2 HL Hd)
    as ([] & s' & Hrun & _ & _ & (L' & HL' & Hd' & _) & _).
  assert (b ∉ (xs1 ++ xs2).*1) as Hout.
  { pose proof (dll_nodup _ _ _ Hd) as Hnd.
    rewrite fmap_app, fmap_cons in Hnd. simpl in Hnd.
    apply NoDup_app in Hnd as (_ & Hdisj & Hnd2).
    apply NoDup_cons in Hnd2 as [Hb2 _].
    rewrite fmap_app. intros [Hin|Hin]%elem_of_app; [|done].
    apply (Hdisj b Hin). apply elem_of_cons. by left. }
  exists s'. split; [done|]. split; [|split].
  - intros (L0 & ns & HL0 & Hfw & Hin).
    rewrite HL' in HL0. inversion HL0; subst L0.
    rewrite (dll_forward _ _ _ Hd') in Hfw. inversion Hfw; subst ns. done.
  - intros i Hi. eexists. split; [by eapply listIndex_spec|].
    intros H. by apply index_model_elem in H.
  - intros key fuel Hfuel. eexists. split; [by eapply listSearchKey_spec|].
    intros H. by apply first_match_elem in H.
Qed.

Lemma deleted_node_not_found_witness :
  ∃ s', listDelNode 1 3 demo_state = Some (tt, s') ∧ ¬ member s' 1 3 ∧
    ∃ r, listSearchKey 4 1 20 s' = Some (r, s') ∧ r ≠ Some 3.
Proof.
  destruct (deleted_node_not_found demo_state 1 demo_list [(2, 10)] 3 20
              [(4, 30)] demo_lookup demo_dll)
    as (s' & Hrun & Hmem & _ & Hsearch).
  exists s'. split; [done|]. split; [done|].
  apply Hsearch. simpl. lia.
Defined.

(** ** Sequences of calls: disjointness, safety and absence of leaks *)

Lemma wp_eq {A} (m : M A) s x s' (Q : A → state → Prop) :
  m s = Some (x, s') → Q x s' → wp m s Q.
Proof. intros Hm HQ. by exists x, s'. Qed.

Lemma wp_ignore {A} (m : M A) s (Q : unit → state → Prop) :
  wp m s (λ _ s', Q tt s') → wp (ignore m) s Q.
Proof.
  intros H. unfold ignore. apply wp_bind. eapply wp_mono; [exact H|].
  intros x s' HQ. by apply wp_ret.
Qed.

Lemma heap_inv_get s R l L :
  heap_inv s R → lists s !! l = Some L →
  ∃ xs, R !! l = Some xs ∧ dll (nodes s) L xs.
Proof.
  intros (Hdom & Hwf & _) HL. destruct (proj2 (Hdom l)) as [xs HR]; [eauto|].
  exists xs. split; [done|]. by eapply Hwf.
Qed.

Lemma heap_inv_member s R l L xs a :
  heap_inv s R → lists s !! l = Some L → R !! l = Some xs →
  member s l a ↔ a ∈ xs.*1.
Proof.
  intros (Hdom & Hwf & _) HL HR. pose proof (Hwf _ _ _ HL HR) as Hd. split.
  - intros (L0 & ns & HL0 & Hfw & Hin).
    rewrite HL in HL0. inversion HL0; subst L0.
    rewrite (dll_forward _ _ _ Hd) in Hfw. by inversion Hfw; subst ns.
  - intros Hin. exists L, xs.*1. split; [done|]. split; [|done].
    by apply dll_forward.
Qed.

Lemma covered_relinked s s' R l L xs xs' :
  covered s R → R !! l = Some xs →
  relinked s l L xs xs' s' → covered s' (<[l := xs']> R).
Proof.
  intros Hcov HR (_ & _ & Hframe & _ & Hfreed) b Hb.
  destruct (decide (b ∈ xs'.*1)) as [Hin'|Hout'].
  { exists l, xs'. by rewrite lookup_insert_eq. }
  destruct (decide (b ∈ xs.*1)) as [Hin|Hout].
  { rewrite Hfreed in Hb by done. by destruct Hb. }
  rewrite Hframe in Hb by done.
  destruct (Hcov b Hb) as (l0 & xs0 & HR0 & Hin0).
  exists l0, xs0. split; [|done].
  rewrite lookup_insert_ne; [done|]. intros ->. congruence.
Qed.

Lemma covered_joined s s' R l o L O xs ys :
  covered s R → l ≠ o → R !! l = Some xs → R !! o = Some ys →
  joined s l o L O xs ys s' →
  covered s' (<[o := []]> (<[l := xs ++ ys]> R)).
Proof.
  intros Hcov Hne HRl HRo (_ & _ & _ & _ & Halloc & _) b Hb.
  apply Halloc in Hb. destruct (Hcov b Hb) as (l0 & xs0 & HR0 & Hin0).
  destruct (decide (l0 = l)) as [->|Hl]; [|destruct (decide (l0 = o)) as [->|Ho]].
  - exists l, (xs ++ ys).
    rewrite lookup_insert_ne, lookup_insert_eq by done. split; [done|].
    rewrite fmap_app. apply elem_of_app. left. congruence.
  - exists l, (xs ++ ys).
    rewrite lookup_insert_ne, lookup_insert_eq by done. split; [done|].
    rewrite fmap_app. apply elem_of_app. right. congruence.
  - exists l0, xs0. by rewrite !lookup_insert_ne.
Qed.

Lemma covered_create s s' R a :
  heap_inv s R → covered s R → lists s !! a = None → nodes s' = nodes s →
  covered s' (<[a := []]> R).
Proof.
  intros (Hdom & _) Hcov Hnew Hn b Hb. rewrite Hn in Hb.
  destruct (Hcov b Hb) as (l0 & xs0 & HR0 & Hin0).
  exists l0, xs0. split; [|done]. rewrite lookup_insert_ne; [done|].
  intros ->. destruct (proj1 (Hdom l0)) as [L HL]; [eauto|]. congruence.
Qed.

Lemma covered_same s s' R :
  covered s R → nodes s' = nodes s → covered s' R.
Proof. intros Hcov Hn b Hb. rewrite Hn in Hb. by apply Hcov. Qed.

(** One legal call on allocated lists, from a memory that satisfies the
    invariant: the call returns, the invariant holds again, and, unless
    the call joins a list to itself, every node is still in a list if
    it was so. *)
Lemma step_wp s c R :
  heap_inv s R → legal s c →
  Forall (λ l, is_Some (lists s !! l)) (operands c) →
  wp (run_call c) s (λ _ s',
    ∃ R', heap_inv s' R' ∧
          (¬ joins_itself c → covered s R → covered s' R')).
Proof.
  intros Hinv Hlegal Hops.
  destruct c as [zm|zm l v|zm l v|zm l old v after|l node|l|l o|l|l m|l m|l m];
    simpl in Hlegal, Hops; simpl run_call.
  - (* Create *)
    apply wp_ignore. destruct (zm s) as [a|] eqn:Hzm.
    + eapply wp_mono; [by apply (listCreate_spec zm s a)|].
      intros r s' (_ & Hn & _ & Hl). simpl.
      destruct (Hlegal _ _ Hzm) as (_ & _ & Hnew & _).
      exists (<[a := []]> R). split; [by eapply heap_inv_create|].
      intros _ Hcov. by eapply covered_create.
    + eapply wp_eq; [by apply listCreate_fail|]. eauto.
  - (* AddHead *)
    apply Forall_cons in Hops as [[L HL] _].
    destruct (heap_inv_get _ _ _ _ Hinv HL) as (xs & HR & Hd).
    apply wp_ignore. destruct (zm s) as [a|] eqn:Hzm.
    + eapply wp_mono; [by apply (listAddNodeHead_spec zm s l L xs a v)|].
      intros r s' (_ & _ & Hrel). simpl. eexists.
      split; [by eapply heap_inv_relinked|].
      intros _ Hcov. by eapply covered_relinked.
    + eapply wp_eq; [by apply listAddNodeHead_fail|]. eauto.
  - (* AddTail *)
    apply Forall_cons in Hops as [[L HL] _].
    destruct (heap_inv_get _ _ _ _ Hinv HL) as (xs & HR & Hd).
    apply wp_ignore. destruct (zm s) as [a|] eqn:Hzm.
    + eapply wp_mono; [by apply (listAddNodeTail_spec zm s l L xs a v)|].
      intros r s' (_ & _ & Hrel). simpl. eexists.
      split; [by eapply heap_inv_relinked|].
      intros _ Hcov. by eapply covered_relinked.
    + eapply wp_eq; [by apply listAddNodeTail_fail|]. eauto.
  - (* Insert *)
    destruct Hlegal as [Hfresh Hmem].
    apply Forall_cons in Hops as [[L HL] _].
    destruct (heap_inv_get _ _ _ _ Hinv HL) as (xs & HR & Hd).
    destruct (member_split _ _ _ _ _ HL Hd Hmem) as (xs1 & w & xs2 & ->).
    apply wp_ignore. destruct (zm s) as [a|] eqn:Hzm.
    + destruct (decide (after = 0)) as [->|Hafter].
      * eapply wp_mono;
          [by apply (listInsertNode_before_spec zm s l L xs1 old w xs2 a v)|].
        intros r s' (_ & _ & Hrel). simpl. eexists.
        split; [by eapply heap_inv_relinked|].
        intros _ Hcov. by eapply covered_relinked.
      * eapply wp_mono;
          [by apply (listInsertNode_after_spec zm s l L xs1 old w xs2 a v after)|].
        intros r s' (_ & _ & Hrel). simpl. eexists.
        split; [by eapply heap_inv_relinked|].
        intros _ Hcov. by eapply covered_relinked.
    + eapply wp_eq; [by apply listInsertNode_fail|]. eauto.
  - (* Delete *)
    apply Forall_cons in Hops as [[L HL] _].
    destruct (heap_inv_get _ _ _ _ Hinv HL) as (xs & HR & Hd).
    destruct (member_split _ _ _ _ _ HL Hd Hlegal) as (xs1 & w & xs2 & ->).
    eapply wp_mono; [by apply (listDelNode_spec s l L xs1 node w xs2)|].
    intros r s' (_ & _ & Hrel). simpl. eexists.
    split; [by eapply heap_inv_relinked|].
    intros _ Hcov. by eapply covered_relinked.
  - (* Rotate *)
    apply Forall_cons in Hops as [[L HL] _].
    destruct (heap_inv_get _ _ _ _ Hinv HL) as (xs & HR & Hd).
    destruct (decide (length xs ≤ 1)%nat) as [Hle|Hgt].
    + eapply wp_mono; [by apply (listRotate_small_spec s l L xs)|].
      intros r s' ->. eauto.
    + destruct xs as [|[h x] xs]; [simpl in Hgt; lia|].
      destruct (snoc_cases xs) as [->|(ys & [t w] & ->)]; [simpl in Hgt; lia|].
      eapply wp_mono; [by apply (listRotate_spec s l L h x ys t w)|].
      intros r s' (_ & _ & Hrel). simpl. eexists.
      split; [by eapply heap_inv_relinked|].
      intros _ Hcov. by eapply covered_relinked.
  - (* Join *)
    apply Forall_cons in Hops as [[L HL] Hops].
    apply Forall_cons in Hops as [[O HO] _].
    destruct (heap_inv_get _ _ _ _ Hinv HL) as (xs & HRl & Hdl).
    destruct (decide (l = o)) as [->|Hne].
    + eapply wp_mono; [by apply (listJoin_self_spec s o L xs)|].
      intros r s' ((L' & HL' & Hd' & _) & Hothers & Hframe & _). simpl.
      exists (<[o := []]> R). split; [eapply heap_inv_self_joined; eauto|].
      intros Hself. by destruct Hself.
    + destruct (heap_inv_get _ _ _ _ Hinv HO) as (ys & HRo & Hdo).
      pose proof Hinv as (_ & _ & Hdisj).
      eapply wp_mono;
        [by apply (listJoin_spec s l o L O xs ys Hne HL HO Hdl Hdo
                     (λ a, Hdisj l o xs ys a Hne HRl HRo))|].
      intros r s' Hj. simpl. eexists.
      split; [by eapply heap_inv_joined|].
      intros _ Hcov.
      exact (covered_joined s s' R l o L O xs ys Hcov Hne HRl HRo Hj).
  - (* Empty *)
    apply Forall_cons in Hops as [[L HL] _].
    destruct (heap_inv_get _ _ _ _ Hinv HL) as (xs & HR & Hd).
    eapply wp_mono; [by apply (listEmpty_spec s l L xs)|].
    intros r s' (_ & _ & Hrel). simpl. eexists.
    split; [by eapply heap_inv_relinked|].
    intros _ Hcov. by eapply covered_relinked.
  - (* SetDup *)
    apply Forall_cons in Hops as [[L HL] _].
    eapply wp_eq.
    { unfold listSetDupMethod, update_list. by rewrite HL. }
    exists R. split; [by eapply (heap_inv_header s _ R l L (set_dup m L))|].
    intros _ Hcov. by eapply covered_same.
  - (* SetFree *)
    apply Forall_cons in Hops as [[L HL] _].
    eapply wp_eq.
    { unfold listSetFreeMethod, update_list. by rewrite HL. }
    exists R. split; [by eapply (heap_inv_header s _ R l L (set_free m L))|].
    intros _ Hcov. by eapply covered_same.
  - (* SetMatch *)
    apply Forall_cons in Hops as [[L HL] _].
    eapply wp_eq.
    { unfold listSetMatchMethod, update_list. by rewrite HL. }
    exists R. split; [by eapply (heap_inv_header s _ R l L (set_match m L))|].
    intros _ Hcov. by eapply covered_same.
Qed.

Lemma legal_operands s c s' :
  legal s c → run_call c s = Some (tt, s') →
  Forall (λ l, is_Some (lists s !! l)) (operands c) ∨ s' = s.
Proof.
  intros Hlegal Hrun.
  destruct c as [zm|zm l v|zm l v|zm l old v after|l node|l|l o|l|l m|l m|l m];
    simpl in Hlegal, Hrun; simpl operands.
  - left. apply Forall_nil_2.
  - apply ignore_elim in Hrun as [r Hrun].
    destruct (zm s) as [a|] eqn:Hzm.
    + left. apply Forall_singleton.
      by eapply listAddNodeHead_defined.
    + right. rewrite listAddNodeHead_fail in Hrun by done. by inversion Hrun.
  - apply ignore_elim in Hrun as [r Hrun].
    destruct (zm s) as [a|] eqn:Hzm.
    + left. apply Forall_singleton.
      by eapply listAddNodeTail_defined.
    + right. rewrite listAddNodeTail_fail in Hrun by done. by inversion Hrun.
  - left. apply Forall_singleton.
    destruct Hlegal as [_ (L & ns & HL & _)]. eauto.
  - left. apply Forall_singleton. destruct Hlegal as (L & ns & HL & _). eauto.
  - left. apply Forall_singleton. by eapply load_list_defined.
  - left. destruct (listJoin_defined _ _ _ _ Hrun) as [Hl Ho].
    apply Forall_cons. split; [done|]. by apply Forall_singleton.
  - left. apply Forall_singleton. by eapply load_list_defined.
  - left. apply Forall_singleton.
    apply update_list_inv in Hrun as (L & HL & _). eauto.
  - left. apply Forall_singleton.
    apply update_list_inv in Hrun as (L & HL & _). eauto.
  - left. apply Forall_singleton.
    apply update_list_inv in Hrun as (L & HL & _). eauto.
Qed.

Lemma run_calls_covered cs : ∀ s s' R,
  heap_inv s R → covered s R → all_legal cs s →
  Forall (λ c, ¬ joins_itself c) cs →
  run_calls cs s = Some (tt, s') →
  ∃ R', heap_inv s' R' ∧ covered s' R'.
Proof.
  induction cs as [|c cs IH]; intros s s' R Hinv Hcov Hlegal Hjoin Hrun.
  - unfold run_calls, ret in Hrun. simpl in Hrun. inversion Hrun; subst. eauto.
  - destruct Hlegal as [Hc Hrest]. simpl in Hrun.
    apply Forall_cons in Hjoin as [Hj Hjoin].
    apply bind_inv in Hrun as ([] & s1 & H1 & H2).
    destruct (legal_operands s c s1 Hc H1) as [Hops| ->].
    + pose proof (step_wp s c R Hinv Hc Hops) as Hwp.
      destruct (wp_elim _ _ _ _ _ Hwp H1) as (R1 & Hinv1 & Hcov1).
      eapply (IH s1 s' R1); eauto.
    + eapply (IH s s' R); eauto.
Qed.

(** X10.  In every memory reached from the empty one by legal calls, two
    distinct lists have no node in common. *)
Theorem reachable_lists_disjoint s l o a :
  reachable s → l ≠ o → member s l a → ¬ member s o a.
Proof.
  intros Hreach Hne Hl Ho.
  destruct (reachable_inv s Hreach) as [R Hinv].
  pose proof Hl as (L & _ & HL & _). pose proof Ho as (O & _ & HO & _).
  destruct (heap_inv_get _ _ _ _ Hinv HL) as (xs & HRl & _).
  destruct (heap_inv_get _ _ _ _ Hinv HO) as (ys & HRo & _).
  apply (heap_inv_member s R l L xs a Hinv HL HRl) in Hl.
  apply (heap_inv_member s R o O ys a Hinv HO HRo) in Ho.
  destruct Hinv as (_ & _ & Hdisj).
  by apply (Hdisj l o xs ys a Hne HRl HRo Hl).
Qed.

Lemma reachable_lists_disjoint_witness :
  member pair_state 1 2 ∧ ¬ member pair_state 4 2.
Proof.
  assert (member pair_state 1 2) as Hmem.
  { exists pair_first, [2; 3]. split; [exact pair_lookup_first|].
    split; [by vm_compute|]. apply elem_of_cons. by left. }
  split; [exact Hmem|].
  exact (reachable_lists_disjoint pair_state 1 4 2 pair_reachable
           ltac:(lia) Hmem).
Defined.

(** X11.  From a memory reached from the empty one by legal calls, a
    legal call on allocated lists always returns: under the documented
    preconditions no call of the interface reads or writes through a
    NULL or dangling pointer, and the memory it leaves is reached by
    legal calls in turn. *)
Theorem legal_calls_defined s c :
  reachable s → legal s c →
  Forall (λ l, is_Some (lists s !! l)) (operands c) →
  ∃ s', run_call c s = Some (tt, s') ∧ reachable s'.
Proof.
  intros Hreach Hlegal Hops.
  destruct (reachable_inv s Hreach) as [R Hinv].
  destruct (step_wp s c R Hinv Hlegal Hops) as ([] & s' & Hrun & _).
  exists s'. split; [done|]. by eapply reachable_step.
Qed.

Lemma legal_calls_defined_witness :
  ∃ s', run_call (Join 1 4) pair_state = Some (tt, s') ∧ reachable s'.
Proof.
  apply (legal_calls_defined pair_state (Join 1 4) pair_reachable).
  - exact I.
  - apply Forall_cons. split; [rewrite pair_lookup_first; eauto|].
    apply Forall_singleton. rewrite pair_lookup_second. eauto.
Defined.

(** X12.  A sequence of legal calls that never joins a list to itself,
    run from the empty memory, leaks no node: in the memory it leaves,
    every allocated node belongs to a list. *)
Theorem no_leak_without_self_join cs s' :
  all_legal cs empty_state → Forall (λ c, ¬ joins_itself c) cs →
  run_calls cs empty_state = Some (tt, s') → no_leak s'.
Proof.
  intros Hlegal Hjoin Hrun.
  destruct (run_calls_covered cs empty_state s' ∅ heap_inv_empty)
    as (R & Hinv & Hcov); try done.
  { intros b [n Hb]. simpl in Hb. by rewrite lookup_empty in Hb. }
  intros b Hb. destruct (Hcov b Hb) as (l & xs & HR & Hin).
  exists l. pose proof Hinv as (Hdom & _).
  destruct (proj1 (Hdom l)) as [L HL]; [eauto|].
  by apply (heap_inv_member s' R l L xs b Hinv HL HR).
Qed.

Lemma no_leak_without_self_join_witness : no_leak pair_state.
Proof.
  apply (no_leak_without_self_join pair_calls).
  - repeat (split; [apply bump_fresh|intros ? _]). done.
  - repeat (apply Forall_cons; split; [by intros []|]). apply Forall_nil_2.
  - by vm_compute.
Defined.

(** ** Iterators, empty lists, and operations that agree *)

(** X13.  An iterator must not outlive the node under its cursor.  On a
    well-formed list, for an iterator whose cursor is at a node of the
    list, [listNext] returns this node; but once the node was deleted
    while the cursor was still at it, the iterator dangles, and calling
    [listNext] is undefined (it reads the freed node). *)
Theorem stale_iterator_undefined s l L xs1 b w xs2 it :
  lists s !! l = Some L → dll (nodes s) L (xs1 ++ (b, w) :: xs2) →
  iter_next it = Some b →
  (∃ it', listNext it s = Some ((Some b, it'), s)) ∧
  ∃ s', listDelNode l b s = Some (tt, s') ∧ listNext it s' = None.
Proof.
  intros HL Hd Hit. split.
  - destruct (dll_allocated _ _ _ b Hd) as [n Hn].
    { rewrite fmap_app, fmap_cons. set_solver. }
    eexists. by eapply listNext_node.
  - destruct (listDelNode_spec s l L xs1 b w xs2 HL Hd)
      as ([] & s' & Hrun & _ & _ & _ & _ & _ & _ & Hfreed).
    exists s'. split; [done|].
    assert (nodes s' !! b = None) as Hb.
    { apply Hfreed.
      - rewrite fmap_app, fmap_cons. set_solver.
      - pose proof (dll_nodup _ _ _ Hd) as Hnd.
        rewrite fmap_app, fmap_cons in Hnd. simpl in Hnd.
        apply NoDup_app in Hnd as (_ & Hdisj & Hnd2).
        apply NoDup_cons in Hnd2 as [Hb2 _].
        rewrite fmap_app. intros [Hin|Hin]%elem_of_app; [|done].
        apply (Hdisj b Hin). apply elem_of_cons. by left. }
    unfold listNext. rewrite Hit. unfold bind, load_node. by rewrite Hb.
Qed.

Lemma stale_iterator_undefined_witness :
  ∃ s', listDelNode 1 3 demo_state = Some (tt, s') ∧
    listNext (ListIter (Some 3) AL_START_HEAD) s' = None.
Proof.
  exact (proj2 (stale_iterator_undefined demo_state 1 demo_list [(2, 10)] 3 20
                  [(4, 30)] (ListIter (Some 3) AL_START_HEAD)
                  demo_lookup demo_dll eq_refl)).
Defined.

(** X14.  On a well-formed list without nodes: [listEmpty] leaves the
    memory exactly as it was, [listSearchKey] returns NULL for every key,
    [listIndex] returns NULL for every index, and the first call of
    [listNext] on an iterator rewound to the head or to the tail returns
    NULL. *)
Theorem empty_list_edge_cases s l L :
  lists s !! l = Some L → dll (nodes s) L [] →
  listEmpty l s = Some (tt, s) ∧
  (∀ key fuel, (0 < fuel)%nat → listSearchKey fuel l key s = Some (None, s)) ∧
  (∀ i, is_long i → listIndex l i s = Some (None, s)) ∧
  (∃ it, listRewind l s = Some (it, s) ∧ listNext it s = Some ((None, it), s)) ∧
  (∃ it, listRewindTail l s = Some (it, s) ∧
         listNext it s = Some ((None, it), s)).
Proof.
  intros HL Hd. split; [|split; [|split; [|split]]].
  - destruct (listEmpty_spec s l L [] HL Hd)
      as ([] & s' & Hrun & _ & Hr & Hrel).
    destruct (relinked_same s l L [] s' HL Hd Hrel) as [Hn Hl].
    rewrite Hrun. f_equal. f_equal.
    apply state_eq; [done|done|exact (keeps_listEmpty _ _ _ _ Hrun)|].
    rewrite Hr. unfold freed_values. simpl.
    destruct (free L); by rewrite app_nil_r.
  - intros key fuel Hfuel.
    by rewrite (listSearchKey_spec s l L [] key fuel HL Hd).
  - intros i Hi. rewrite (listIndex_spec s l L [] i HL Hd Hi).
    unfold index_model. simpl. destruct (i <? 0); by rewrite ?lookup_nil.
  - exists (ListIter (head L) AL_START_HEAD). split.
    + unfold listRewind, bind, load_list. by rewrite HL.
    + apply listNext_exhausted. simpl. by rewrite (dll_head _ _ _ Hd).
  - exists (ListIter (tail L) AL_START_TAIL). split.
    + unfold listRewindTail, bind, load_list. by rewrite HL.
    + apply listNext_exhausted. simpl. by rewrite (dll_tail _ _ _ Hd).
Qed.

Lemma empty_list_edge_cases_witness :
  ∃ s, listCreate (bump 8) empty_state = Some (Some 1, s) ∧
    listEmpty 1 s = Some (tt, s) ∧ listIndex 1 (-1) s = Some (None, s).
Proof.
  destruct (listCreate_spec (bump 8) empty_state 1 (bump_fresh 8) eq_refl)
    as (r & s & Hrun & -> & Hn & Hr & Hl).
  assert (lists s !! 1 = Some (AdList None None 0 None None None)) as HL
    by (by rewrite Hl, lookup_insert_eq).
  destruct (empty_list_edge_cases s 1 _ HL ltac:(by apply dll_nil))
    as (Hempty & _ & Hidx & _).
  exists s. split; [done|]. split; [done|].
  apply Hidx. unfold is_long. lia.
Defined.

Lemma last_or_Some_snoc xs t :
  last_or None xs = Some t → ∃ ys w, xs = ys ++ [(t, w)].
Proof.
  destruct (snoc_cases xs) as [->|(ys & [b w] & ->)]; [done|].
  rewrite last_or_snoc. intros [= ->]. eauto.
Qed.

(** X15.  On a well-formed list, inserting a value after the tail node
    is adding it at the tail, and inserting a value before the head node
    is adding it at the head: the two calls return the same result and
    leave the same memory, whether the allocation succeeds or fails. *)
Theorem insert_at_ends_is_add zm s l L xs v :
  fresh_allocator zm → lists s !! l = Some L → dll (nodes s) L xs →
  (∀ t after, tail L = Some t → after ≠ 0 →
     listInsertNode zm l t v after s = listAddNodeTail zm l v s) ∧
  (∀ h, head L = Some h →
     listInsertNode zm l h v 0 s = listAddNodeHead zm l v s).
Proof.
  intros Hfresh HL Hd. split.
  - intros t after Ht Hafter. destruct (zm s) as [a|] eqn:Hzm.
    + rewrite (dll_tail _ _ _ Hd) in Ht.
      apply last_or_Some_snoc in Ht as (ys & w & ->).
      destruct (listInsertNode_after_spec zm s l L ys t w [] a v after
                  Hfresh Hzm HL Hd Hafter)
        as (r1 & s1 & Hrun1 & -> & Hr1 & Hrel1).
      destruct (listAddNodeTail_spec zm s l L _ a v Hfresh Hzm HL Hd)
        as (r2 & s2 & Hrun2 & -> & Hr2 & Hrel2).
      rewrite <- app_assoc in Hrel2. simpl in Hrel2.
      destruct (relinked_functional _ _ _ _ _ _ _ Hrel1 Hrel2) as [Hn Hl].
      pose proof (keeps_listInsertNode _ _ _ _ _ _ _ _ Hrun1) as Hi1.
      pose proof (keeps_listAddNodeTail _ _ _ _ _ _ Hrun2) as Hi2.
      rewrite Hrun1, Hrun2. f_equal. f_equal.
      apply state_eq; congruence.
    + by rewrite listInsertNode_fail, listAddNodeTail_fail.
  - intros h Hh. destruct (zm s) as [a|] eqn:Hzm.
    + rewrite (dll_head _ _ _ Hd) in Hh.
      destruct xs as [|[h' w] xs]; [done|]. simpl in Hh.
      inversion Hh; subst h'.
      destruct (listInsertNode_before_spec zm s l L [] h w xs a v
                  Hfresh Hzm HL Hd)
        as (r1 & s1 & Hrun1 & -> & Hr1 & Hrel1).
      destruct (listAddNodeHead_spec zm s l L _ a v Hfresh Hzm HL Hd)
        as (r2 & s2 & Hrun2 & -> & Hr2 & Hrel2).
      simpl in Hrel1.
      destruct (relinked_functional _ _ _ _ _ _ _ Hrel1 Hrel2) as [Hn Hl].
      pose proof (keeps_listInsertNode _ _ _ _ _ _ _ _ Hrun1) as Hi1.
      pose proof (keeps_listAddNodeHead _ _ _ _ _ _ Hrun2) as Hi2.
      rewrite Hrun1, Hrun2. f_equal. f_equal.
      apply state_eq; congruence.
    + by rewrite listInsertNode_fail, listAddNodeHead_fail.
Qed.

Lemma insert_at_ends_is_add_witness :
  listInsertNode (bump 8) 1 4 40 1 demo_state
    = listAddNodeTail (bump 8) 1 40 demo_state ∧
  listInsertNode (bump 8) 1 2 40 0 demo_state
    = listAddNodeHead (bump 8) 1 40 demo_state.
Proof.
  destruct (insert_at_ends_is_add (bump 8) demo_state 1 demo_list demo_nodes
              40 (bump_fresh 8) demo_lookup demo_dll) as [Htail Hhead].
  split.
  - apply Htail; [reflexivity|lia].
  - by apply Hhead.
Defined.

(** X16.  On a well-formed list of [n] nodes, the index [i] from the
    head, for [0 <= i < n], and the index [i - n] from the tail designate
    the same node, which is the node at position [i] of the list:
    [listIndex] returns it for both. *)
Theorem index_from_both_ends s l L xs i :
  lists s !! l = Some L → dll (nodes s) L xs →
  0 <= i < len L → is_long i → is_long (i - len L) →
  ∃ a, xs.*1 !! Z.to_nat i = Some a ∧
    listIndex l i s = Some (Some a, s) ∧
    listIndex l (i - len L) s = Some (Some a, s).
Proof.
  intros HL Hd Hi Hlong Hlong'.
  pose proof (dll_len _ _ _ Hd) as Hlen.
  assert (Z.to_nat i < length xs.*1)%nat as Hlt
    by (rewrite length_fmap; lia).
  destruct (lookup_lt_is_Some_2 _ _ Hlt) as [a Ha].
  exists a. split; [done|].
  rewrite (listIndex_spec s l L xs i HL Hd Hlong).
  rewrite (listIndex_spec s l L xs (i - len L) HL Hd Hlong').
  unfold index_model.
  rewrite (proj2 (Z.ltb_ge i 0)) by lia.
  rewrite (proj2 (Z.ltb_lt (i - len L) 0)) by lia.
  rewrite Ha. split; [done|]. f_equal. f_equal.
  rewrite reverse_lookup by (rewrite length_fmap; lia).
  rewrite <- Ha. f_equal. rewrite length_fmap. lia.
Qed.

Lemma index_from_both_ends_witness :
  listIndex 1 1 demo_state = Some (Some 3, demo_state) ∧
  listIndex 1 (-2) demo_state = Some (Some 3, demo_state).
Proof.
  destruct (index_from_both_ends demo_state 1 demo_list demo_nodes 1
              demo_lookup demo_dll)
    as (a & Ha & H1 & H2).
  - simpl. lia.
  - unfold is_long. lia.
  - unfold is_long. simpl. lia.
  - simpl in Ha. inversion Ha; subst a. by split.
Defined.

Lemma triple_lookup_first : lists triple_state !! 1 = Some pair_first.
Proof. by vm_compute. Qed.

Lemma triple_lookup_second : lists triple_state !! 4 = Some pair_second.
Proof. by vm_compute. Qed.

Lemma triple_lookup_third : lists triple_state !! 7 = Some triple_third.
Proof. by vm_compute. Qed.

Lemma triple_dll_first :
  dll (nodes triple_state) pair_first [(2, 1); (3, 2)].
Proof. concrete_dll. Qed.

Lemma triple_dll_second :
  dll (nodes triple_state) pair_second [(5, 3); (6, 4)].
Proof. concrete_dll. Qed.

Lemma triple_dll_third : dll (nodes triple_state) triple_third [(8, 5)].
Proof. concrete_dll. Qed.

(** X17.  Joining is associative.  For three distinct well-formed lists
    [l], [o] and [p] that share no node, joining [o] and then [p] to [l],
    and joining [p] to [o] and then [o] to [l], both return and leave the
    same memory: [l] holds the nodes of the three lists in this order,
    and [o] and [p] are empty. *)
Theorem join_associative s l o p L O P xs ys zs :
  l ≠ o → l ≠ p → o ≠ p →
  lists s !! l = Some L → lists s !! o = Some O → lists s !! p = Some P →
  dll (nodes s) L xs → dll (nodes s) O ys → dll (nodes s) P zs →
  (∀ a, a ∈ xs.*1 → a ∉ ys.*1) → (∀ a, a ∈ xs.*1 → a ∉ zs.*1) →
  (∀ a, a ∈ ys.*1 → a ∉ zs.*1) →
  ∃ s', (listJoin l o ;;; listJoin l p) s = Some (tt, s') ∧
        (listJoin o p ;;; listJoin l o) s = Some (tt, s') ∧
        (∃ L', lists s' !! l = Some L' ∧
               dll (nodes s') L' (xs ++ ys ++ zs)) ∧
        (∃ O', lists s' !! o = Some O' ∧ dll (nodes s') O' []) ∧
        (∃ P', lists s' !! p = Some P' ∧ dll (nodes s') P' []).
Proof.
  intros Hlo Hlp Hop HL HO HP Hdx Hdy Hdz Hxy Hxz Hyz.
  (* first [o], then [p] *)
  destruct (listJoin_spec s l o L O xs ys Hlo HL HO Hdx Hdy Hxy)
    as ([] & s1 & Hrun1 & (L1 & HL1 & Hd1 & HcL1) & (O1 & HO1 & HdO1 & HcO1)
        & Hoth1 & Hfr1 & _ & Hr1).
  assert (lists s1 !! p = Some P) as HP1 by (rewrite Hoth1; done).
  assert (dll (nodes s1) P zs) as Hdz1.
  { eapply dll_frame; [|exact Hdz]. intros a Ha. apply Hfr1.
    - intros Hx. by apply (Hxz a Hx).
    - intros Hy. by apply (Hyz a Hy). }
  assert (∀ a, a ∈ (xs ++ ys).*1 → a ∉ zs.*1) as Hxyz.
  { intros a. rewrite fmap_app. intros [Hx|Hy]%elem_of_app; eauto. }
  destruct (listJoin_spec s1 l p L1 P (xs ++ ys) zs Hlp HL1 HP1 Hd1 Hdz1 Hxyz)
    as ([] & s2 & Hrun2 & (L2 & HL2 & Hd2 & HcL2) & (P2 & HP2 & HdP2 & HcP2)
        & Hoth2 & Hfr2 & _ & Hr2).
  (* first [p] to [o], then [o] to [l] *)
  destruct (listJoin_spec s o p O P ys zs Hop HO HP Hdy Hdz Hyz)
    as ([] & t1 & Hrun3 & (O3 & HO3 & HdO3 & HcO3) & (P3 & HP3 & HdP3 & HcP3)
        & Hoth3 & Hfr3 & _ & Hr3).
  assert (lists t1 !! l = Some L) as HL3 by (rewrite Hoth3; done).
  assert (dll (nodes t1) L xs) as Hdx3.
  { eapply dll_frame; [|exact Hdx]. intros a Ha. apply Hfr3; eauto. }
  assert (∀ a, a ∈ xs.*1 → a ∉ (ys ++ zs).*1) as Hxyz'.
  { intros a Ha. rewrite fmap_app. intros [Hy|Hz]%elem_of_app.
    - by apply (Hxy a Ha).
    - by apply (Hxz a Ha). }
  destruct (listJoin_spec t1 l o L O3 xs (ys ++ zs) Hlo HL3 HO3 Hdx3 HdO3 Hxyz')
    as ([] & t2 & Hrun4 & (L4 & HL4 & Hd4 & HcL4) & (O4 & HO4 & HdO4 & HcO4)
        & Hoth4 & Hfr4 & _ & Hr4).
  rewrite <- app_assoc in Hd2.
  assert (t2 = s2) as ->.
  { apply state_eq; [| | |congruence]; cycle 2.
    { rewrite (keeps_listJoin _ _ _ _ _ Hrun4), (keeps_listJoin _ _ _ _ _ Hrun3).
      rewrite (keeps_listJoin _ _ _ _ _ Hrun2).
      by rewrite (keeps_listJoin _ _ _ _ _ Hrun1). }
    - apply map_eq. intros b.
      destruct (decide (b ∈ (xs ++ ys ++ zs).*1)) as [Hin|Hout].
      + eapply dlseg_determined; [apply Hd4|apply Hd2|done].
      + rewrite !fmap_app, !elem_of_app in Hout.
        rewrite Hfr4, Hfr3, Hfr2, Hfr1; try done;
          rewrite ?fmap_app, ?elem_of_app; tauto.
    - apply map_eq. intros k.
      destruct HcL1 as (? & ? & ?), HcL2 as (? & ? & ?), HcL4 as (? & ? & ?),
        HcO1 as (? & ? & ?), HcO3 as (? & ? & ?), HcO4 as (? & ? & ?),
        HcP2 as (? & ? & ?), HcP3 as (? & ? & ?).
      destruct (decide (k = l)) as [->|Hkl];
        [|destruct (decide (k = o)) as [->|Hko];
          [|destruct (decide (k = p)) as [->|Hkp]]].
      + rewrite HL4, HL2. f_equal.
        eapply dll_header_eq; [exact Hd4|exact Hd2|..]; congruence.
      + rewrite HO4, (Hoth2 o) by done. rewrite HO1. f_equal.
        eapply dll_header_eq; [exact HdO4|exact HdO1|..]; congruence.
      + rewrite (Hoth4 p) by done. rewrite HP3, HP2. f_equal.
        eapply dll_header_eq; [exact HdP3|exact HdP2|..]; congruence.
      + by rewrite Hoth4, Hoth3, Hoth2, Hoth1. }
  exists s2. split; [unfold bind; by rewrite Hrun1|].
  split; [unfold bind; by rewrite Hrun3|].
  split; [eauto|]. split; [|eauto].
  exists O4. split; [done|]. done.
Qed.

Lemma join_associative_witness :
  ∃ s', (listJoin 1 4 ;;; listJoin 1 7) triple_state = Some (tt, s') ∧
        (listJoin 4 7 ;;; listJoin 1 4) triple_state = Some (tt, s').
Proof.
  destruct (join_associative triple_state 1 4 7 pair_first pair_second
              triple_third [(2, 1); (3, 2)] [(5, 3); (6, 4)] [(8, 5)])
    as (s' & H1 & H2 & _);
    [lia|lia|lia|exact triple_lookup_first|exact triple_lookup_second
    |exact triple_lookup_third|exact triple_dll_first|exact triple_dll_second
    |exact triple_dll_third|..].
  - intros a Ha Hb. simpl in Ha, Hb. set_unfold. lia.
  - intros a Ha Hb. simpl in Ha, Hb. set_unfold. lia.
  - intros a Ha Hb. simpl in Ha, Hb. set_unfold. lia.
  - eauto.
Defined.

Lemma freeing_lookup : lists freeing_state !! 1 = Some freeing_list.
Proof. by vm_compute. Qed.

Lemma freeing_dll : dll (nodes freeing_state) freeing_list demo_nodes.
Proof. concrete_dll. Qed.

(** X18.  On a well-formed list, with fuel for the loop and an allocator
    that hands out unused blocks, duplicating the list and releasing the
    copy returns and leaves the nodes, the lists and the iterators of the
    memory exactly as they were, whether the duplication succeeds or
    fails: [listDup] allocates nothing but the copy, and [listRelease]
    frees all of it.  The values put in the copy all went through the
    [free] callback when one is installed, and no other value did: these
    are the images, by the [dup] callback when one is installed, of the
    values that come before the first one on which the callback fails or
    for whose node the allocation fails, and of all the values of the
    list when there is no such value. *)
Theorem dup_and_release_restores zm s orig O xs fuel :
  fresh_allocator zm → lists s !! orig = Some O → dll (nodes s) O xs →
  (length xs < fuel)%nat →
  ∃ s', dup_and_release fuel zm orig s = Some (tt, s') ∧
    nodes s' = nodes s ∧ lists s' = lists s ∧ iters s' = iters s ∧
    match zm s with
    | None => released s' = released s
    | Some c =>
        (∃ k sk, copied zm c (dup O) xs.*2 k (dup_start O c s) sk ∧
           match xs.*2 !! k with
           | None => True
           | Some v => dup_fails (dup O) v = true ∨ zm sk = None
           end ∧
           released s' =
             released s ++
             freed_values O (dup_value (dup O) <$> take k xs.*2)) ∧
        (∀ sk, copied zm c (dup O) xs.*2 (length xs.*2) (dup_start O c s) sk →
           released s' =
             released s ++ freed_values O (dup_value (dup O) <$> xs.*2))
    end.
Proof.
  intros Hfresh HO Hd Hfuel.
  destruct (listDup_spec zm s orig O xs fuel Hfresh HO Hd Hfuel)
    as (r & s1 & Hrun & (_ & _ & Hkeep) & Hres).
  unfold dup_and_release, bind. rewrite Hrun.
  destruct (zm s) as [c|] eqn:Hzm.
  2: { destruct Hres as [-> ->]. by exists s. }
  destruct Hres as (k & sk & Hcop & Hres).
  destruct (xs.*2 !! k) as [v|] eqn:Hlook.
  - (* the copy was torn down by [listDup] *)
    destruct Hres as (Hcause & -> & Hn & Hl & Hi & Hr).
    exists s1. do 4 (split; [done|]). split.
    + exists k, sk. rewrite Hlook. done.
    + intros sk' Hfull. exfalso.
      by apply (copied_all_no_stop zm c (dup O) xs.*2 k _ sk sk' v Hfull Hcop).
  - (* the copy is released *)
    destruct Hres as (-> & -> & Hc & Hr1 & Hi1 & Hothers & C & ys & HC & HdC
                      & _ & Hfree & _ & _ & Hvals & Hnew & Hrest).
    destruct (listRelease_spec sk c C ys HC HdC)
      as ([] & s2 & Hrun2 & Hr2 & Hl2 & Hn2).
    assert (k = length xs.*2) as ->.
    { destruct Hcop as (Hk & _). apply lookup_ge_None in Hlook. lia. }
    assert (released s2 =
              released s ++ freed_values O (dup_value (dup O) <$> xs.*2))
      as Hreleased.
    { rewrite Hr2, Hr1, Hvals. unfold freed_values. by rewrite Hfree. }
    exists s2. split; [done|]. split; [|split; [|split; [|split]]].
    + apply map_eq. intros b. rewrite Hn2.
      destruct (decide (b ∈ ys.*1)) as [Hin|Hout].
      * by rewrite Hnew.
      * destruct (nodes s !! b) as [n|] eqn:Hb.
        -- rewrite <- Hb. apply Hkeep. eauto.
        -- by apply Hrest.
    + apply map_eq. intros l'. rewrite Hl2.
      destruct (decide (l' = c)) as [->|Hne].
      * by rewrite lookup_delete_eq.
      * rewrite lookup_delete_ne by done. by apply Hothers.
    + by rewrite (keeps_listRelease _ _ _ _ Hrun2).
    + exists (length xs.*2), sk. rewrite Hlook. split; [done|].
      split; [done|]. by rewrite take_ge by lia.
    + done.
Qed.

Lemma dup_and_release_restores_witness :
  ∃ s', dup_and_release 4 (bump 8) 1 freeing_state = Some (tt, s') ∧
    nodes s' = nodes freeing_state ∧ lists s' = lists freeing_state ∧
    released s' = [10; 20; 30].
Proof.
  destruct (dup_and_release_restores (bump 8) freeing_state 1 freeing_list
              demo_nodes 4 (bump_fresh 8) freeing_lookup freeing_dll
              ltac:(simpl; lia))
    as (s' & Hrun & Hn & Hl & _ & Hr).
  exists s'. split; [done|]. split; [done|]. split; [done|].
  change (bump 8 freeing_state) with (Some 5) in Hr.
  destruct Hr as [_ Hr]. eapply Hr.
  split; [simpl; lia|]. split.
  - repeat constructor.
  - vm_compute. reflexivity.
Defined.

(** ** The life of an iterator of the heap *)

Lemma listNext_state it s x s' : listNext it s = Some (x, s') → s' = s.
Proof.
  unfold listNext. destruct (iter_next it) as [c|]; [|by intros [= _ <-]].
  unfold bind, load_node. destruct (nodes s !! c); [|done].
  by destruct (direction it =? AL_START_HEAD); intros [= _ <-].
Qed.

Lemma listNext_frame it s s1 x :
  nodes s1 = nodes s → listNext it s = Some (x, s) →
  listNext it s1 = Some (x, s1).
Proof.
  intros Hn. unfold listNext. destruct (iter_next it) as [c|].
  - unfold bind, load_node. rewrite Hn. destruct (nodes s !! c); [|done].
    by destruct (direction it =? AL_START_HEAD); intros [= <-].
  - by intros [= <-].
Qed.

Lemma listNext_direction it s r it' s' :
  listNext it s = Some ((r, it'), s') → direction it' = direction it.
Proof.
  unfold listNext. destruct (iter_next it) as [c|]; [|by intros [= _ <- _]].
  unfold bind, load_node. destruct (nodes s !! c); [|done].
  by destruct (direction it =? AL_START_HEAD); intros [= _ <- _].
Qed.

Lemma listNext_exhausted_inv it s it' s' :
  listNext it s = Some ((None, it'), s') → it' = ListIter None (direction it).
Proof.
  unfold listNext. destruct it as [[c|] d]; simpl.
  - unfold bind, load_node. destruct (nodes s !! c); [|done].
    by destruct (d =? AL_START_HEAD).
  - by intros [= <- _].
Qed.

Lemma iterate_frame fuel : ∀ it s s1 r,
  nodes s1 = nodes s → iterate fuel it s = Some (r, s) →
  iterate fuel it s1 = Some (r, s1).
Proof.
  induction fuel as [|fuel IH]; intros it s s1 r Hn Hrun; [done|].
  simpl in *. apply bind_inv in Hrun as ([x it'] & s2 & Hnext & Hrest).
  pose proof (listNext_state _ _ _ _ Hnext) as ->.
  unfold bind at 1. rewrite (listNext_frame it s s1 _ Hn Hnext).
  destruct x as [c|]; [|by inversion Hrest].
  apply bind_inv in Hrest as (rest & s3 & Hit & Hret).
  inversion Hret; subst. unfold bind. by rewrite (IH it' s s1 rest Hn Hit).
Qed.

(** The loop on an iterator of the heap meets the nodes that the loop on
    its contents meets, and leaves the iterator exhausted. *)
Lemma iterate_at_iterate fuel p : ∀ it s r,
  iters s !! p = Some it → iterate fuel it s = Some (r, s) →
  iterate_at fuel p s =
    Some (r, with_iters (<[p := ListIter None (direction it)]> (iters s)) s).
Proof.
  induction fuel as [|fuel IH]; intros it s r Hp Hrun; [done|].
  simpl in Hrun. apply bind_inv in Hrun as ([x it'] & s2 & Hnext & Hrest).
  pose proof (listNext_state _ _ _ _ Hnext) as ->.
  cbn [iterate_at]. unfold bind at 1, at_iter, bind, load_iter.
  rewrite Hp, Hnext. unfold update_iter. rewrite Hp. cbn [fst snd ret].
  destruct x as [c|].
  - apply bind_inv in Hrest as (rest & s3 & Hit & Hret).
    inversion Hret; subst.
    set (s1 := with_iters (<[p := it']> (iters s)) s).
    assert (iterate fuel it' s1 = Some (rest, s1)) as Hit1
      by (by apply (iterate_frame fuel it' s s1)).
    rewrite (IH it' s1 rest); [|by apply lookup_insert_eq|done].
    rewrite (listNext_direction _ _ _ _ _ Hnext).
    unfold s1, with_iters. simpl. by rewrite insert_insert_eq.
  - inversion Hrest; subst.
    by rewrite (listNext_exhausted_inv _ _ _ _ Hnext).
Qed.

(** X19.  The usage documented with [listNext], on a well-formed list and
    with fuel for the loop: creating an iterator in the heap, calling
    [listNext] until it returns NULL, and releasing the iterator.  When
    the allocator provides a block, the loop meets the nodes of the list,
    from the head to the tail for the forward direction and from the tail
    to the head for the backward direction, one per call; the release
    frees the block, and the memory is exactly as it was.  When the
    allocation fails, nothing is done and the memory is as it was. *)
Theorem traverse_contract zm s l L xs fuel :
  fresh_allocator zm → lists s !! l = Some L → dll (nodes s) L xs →
  (length xs < fuel)%nat →
  traverse fuel zm l AL_START_HEAD s =
    Some (match zm s with Some _ => Some xs.*1 | None => None end, s) ∧
  traverse fuel zm l AL_START_TAIL s =
    Some (match zm s with Some _ => Some (reverse xs.*1) | None => None end, s).
Proof.
  intros Hfresh HL Hd Hfuel.
  assert (∀ dir r,
    iterate fuel (ListIter (if dir =? AL_START_HEAD then head L else tail L)
                    dir) s = Some (r, s) →
    traverse fuel zm l dir s =
      Some (match zm s with Some _ => Some r | None => None end, s)) as Hgen.
  { intros dir r Hit. unfold traverse, bind at 1.
    destruct (zm s) as [a|] eqn:Hzm.
    - rewrite (listGetIterator_seated zm l dir s L a HL Hzm).
      set (it0 := ListIter (if dir =? AL_START_HEAD then head L else tail L) dir)
        in *.
      set (s1 := with_iters (<[a := it0]> (iters s)) s).
      assert (iterate fuel it0 s1 = Some (r, s1)) as Hit1
        by (by apply (iterate_frame fuel it0 s s1)).
      unfold bind at 1.
      rewrite (iterate_at_iterate fuel a it0 s1 r); [|by apply lookup_insert_eq|done].
      unfold bind at 1.
      erewrite listReleaseIterator_freed; [|by apply lookup_insert_eq].
      unfold ret. f_equal. f_equal.
      destruct (Hfresh _ _ Hzm) as (_ & _ & _ & Hnew).
      unfold s1, with_iters. simpl.
      rewrite insert_insert_eq, delete_insert_id by done. by destruct s.
    - by rewrite (listGetIterator_fail zm l dir s Hzm). }
  split.
  - apply (Hgen AL_START_HEAD). simpl. rewrite (dll_head _ _ _ Hd).
    eapply iterate_forward; [apply Hd|done].
  - apply (Hgen AL_START_TAIL). simpl. rewrite (dll_tail _ _ _ Hd).
    eapply iterate_backward; [done|apply Hd|done].
Qed.

Lemma traverse_contract_witness :
  traverse 4 (bump 8) 1 AL_START_HEAD demo_state
    = Some (Some [2; 3; 4], demo_state) ∧
  traverse 4 (bump 8) 1 AL_START_TAIL demo_state
    = Some (Some [4; 3; 2], demo_state).
Proof.
  exact (traverse_contract (bump 8) demo_state 1 demo_list demo_nodes 4
           (bump_fresh 8) demo_lookup demo_dll ltac:(simpl; lia)).
Defined.
